(** * ONNC memory allocation pass: a shallow embedding of
      lib/Analysis/MemoryAllocation.cpp

    The development follows the source file top to bottom:
    size_t arithmetic, live intervals, [GetUsedMemRegions], [HasConflict],
    [allocByLiveness], and then the planner / splitting loop of
    [runOnModule]. *)

From Stdlib Require Import ZArith List Bool Lia String.
From Stdlib Require Import Floats.SpecFloat.
From stdpp Require Import gmap sorting.
Import ListNotations.

Local Open Scope Z_scope.

(** ** Machine integers

    [size_t] and [uint64_t] are 64-bit unsigned integers on the LP64
    targets ONNC builds for; both are modelled as [Z] with the wrap-around
    of unsigned arithmetic written out.  [int64_t] is the two's-complement
    reading of the same 64 bits. *)

Definition wrap64 (z : Z) : Z := z mod 2 ^ 64.

(** [a + b] on [size_t] *)
Definition size_add (a b : Z) : Z := wrap64 (a + b).

(** conversion [uint64_t -> int64_t] (the assignment [prevMinSize = minSize]) *)
Definition to_int64 (z : Z) : Z :=
  let u := wrap64 z in if u <? 2 ^ 63 then u else u - 2 ^ 64.

(** ** Values and live intervals *)

(** A value is identified by its address ([const onnx::Value *]). *)
Abbreviation Value := nat.

Module LiveInterval.
Record t := mk { getValue : Value; getStart : nat; getEnd : nat }.

(** Modelled from the spec: the class [LiveInterval] is declared in
    onnc/Analysis/LivenessAnalysis.h, which is not among the source
    files at hand.  Two intervals intersect iff their closed ranges
    [[start, end]] overlap, endpoints included. *)
Definition intersect (a b : t) : bool :=
  negb ((getEnd a <? getStart b)%nat || (getEnd b <? getStart a)%nat).
End LiveInterval.

(** ** Memory regions and allocation entries *)

Module MemRegion.
Record t := mk { start : Z; size : Z }.
End MemRegion.

Module MemAllocEntry.
Record t := mk { startAddr : Z; size : Z; liveIntrvl : LiveInterval.t }.
End MemAllocEntry.

Definition MemRegionList := list MemRegion.t.
Definition MemAllocList := list MemAllocEntry.t.

(** [ValMemSizeMap] is an [unordered_map<const Value*, MemSize>]; the pass
    only reads the [size] field of a [MemSize], so the map is kept as a
    finite map from values to sizes. *)
Abbreviation ValMemSizeMap := (gmap Value Z).

(** ** Sorting regions by start address

    [std::sort] with the comparator [ra.start < rb.start].  The C++
    standard specifies its result as a permutation of the range in which
    no region comes before a region with a smaller start; the order of
    regions with equal start is left open.  The allocator is embedded
    over any function with that contract. *)

Class StdSort := {
  std_sort : MemRegionList -> MemRegionList;
  std_sort_sorted : forall l,
    StronglySorted (fun a b => MemRegion.start a <= MemRegion.start b)
                   (std_sort l);
  std_sort_permutation : forall l, Permutation (std_sort l) l
}.

(** The insertion sort that libstdc++'s [std::sort] runs on ranges of at
    most 16 elements; it keeps equal starts in their original order.  It
    is the instance [insertion_sort] on which the allocator is run on
    concrete inputs, all of which have fewer than 16 regions. *)

Fixpoint insert_region (x : MemRegion.t) (l : MemRegionList) : MemRegionList :=
  match l with
  | [] => [x]
  | y :: l' =>
      if MemRegion.start x <? MemRegion.start y then x :: y :: l'
      else y :: insert_region x l'
  end.

Definition sort_by_start (l : MemRegionList) : MemRegionList :=
  fold_left (fun acc x => insert_region x acc) l [].

Section Allocator.
Context {sorter : StdSort}.

(** ** GetUsedMemRegions *)

Definition GetUsedMemRegions (pAllocs : MemAllocList)
                             (pIntrvl : LiveInterval.t) : MemRegionList :=
  let regions :=
    List.map (fun entry => MemRegion.mk (MemAllocEntry.startAddr entry)
                                        (MemAllocEntry.size entry))
      (List.filter
         (fun entry =>
            LiveInterval.intersect (MemAllocEntry.liveIntrvl entry) pIntrvl)
         pAllocs) in
  std_sort regions.

(** ** HasConflict *)

Definition HasConflict (pStartA pSizeA pStartB pSizeB : Z) : bool :=
  let endA := size_add pStartA pSizeA in
  let endB := size_add pStartB pSizeB in
  negb ((endA <=? pStartB) || (endB <=? pStartA)).

(** ** allocByLiveness *)

(** The scan over the sorted conflicts (source lines 98-102): it leaves the
    loop at the first region that does not conflict with the candidate. *)
Fixpoint scan_conflicts (conflicts : MemRegionList)
                        (startAddr required : Z) : Z :=
  match conflicts with
  | [] => startAddr
  | reg :: rest =>
      if negb (HasConflict (MemRegion.start reg) (MemRegion.size reg)
                           startAddr required)
      then startAddr
      else scan_conflicts rest
             (size_add (MemRegion.start reg) (MemRegion.size reg)) required
  end.

(** One iteration of the loop over the live intervals.  The accumulator is
    the pair (m_MemAllocList, minSize). *)
Definition alloc_step (pValMemSizeMap : ValMemSizeMap)
                      (acc : MemAllocList * Z)
                      (li : LiveInterval.t) : MemAllocList * Z :=
  let '(allocs, minSize) := acc in
  match pValMemSizeMap !! LiveInterval.getValue li with
  | None => acc
  | Some sz =>
      let required := wrap64 sz in
      let conflicts := GetUsedMemRegions allocs li in
      let startAddr := scan_conflicts conflicts 0 required in
      (allocs ++ [MemAllocEntry.mk startAddr required li],
       Z.max minSize (size_add startAddr required))
  end.

(** [MemoryAllocation::clear] *)
Definition clear (m_MemAllocList : MemAllocList) : MemAllocList := [].

(** [allocByLiveness]: the member [m_MemAllocList] is passed in and
    returned; [livesInfo] is what [getLiveIntervals()] yields.  The result
    is (minSize, m_MemAllocList). *)
Definition allocByLiveness (m_MemAllocList : MemAllocList)
                           (livesInfo : list LiveInterval.t)
                           (pValMemSizeMap : ValMemSizeMap)
  : Z * MemAllocList :=
  let cleared := clear m_MemAllocList in
  let '(allocs, minSize) :=
    fold_left (alloc_step pValMemSizeMap) livesInfo (cleared, 0) in
  (minSize, allocs).
End Allocator.

(** ** Single-precision arithmetic of the splitting threshold

    [runOnModule] compares [(float)minSize / prevMinSize] with the
    [float] constant [0.9f].  Both operands of the division are converted
    to IEEE-754 binary32 (round to nearest, ties to even), the quotient is
    rounded to binary32, and the comparison is the IEEE one.  binary32 is
    [prec = 24], [emax = 128] in the Standard Library's specification of
    floating-point arithmetic. *)

Definition float_of_Z (z : Z) : spec_float := binary_normalize 24 128 z 0 false.

(** [0.9f], bit pattern 0x3F666666: 15099494 * 2^-24. *)
Definition threshold : spec_float := S754_finite false 15099494 (-24).

(** [(float)minSize / prevMinSize > threshold] *)
Definition exceeds_threshold (minSize prevMinSize : Z) : bool :=
  SFltb threshold (SFdiv 24 128 (float_of_Z minSize) (float_of_Z prevMinSize)).

(** The last step of [binary_round_aux] on a rounded mantissa. *)
Definition finish (sx : bool) (m2 e : Z) : spec_float :=
  let '(mrs, e') := shr_fexp 24 128 m2 e loc_Exact in
  match shr_m mrs with
  | Z0 => S754_zero sx
  | Zpos m => if e' <=? 128 - 24 then S754_finite sx m e' else S754_infinity sx
  | Zneg _ => S754_nan
  end.

(** ** Collaborators of the pass *)

(** A sub-graph is identified by its address ([SplitGraph *]). *)
Abbreviation SplitGraph := nat.

(** The sub-graph services the pass calls.  [SplitGraph] and
    [SplitGraphManager] are declared in onnc/Analysis/SplitNode.h, which is
    not among the source files at hand, so they enter as an interface: [M] is the state
    of the manager together with the sub-graphs it owns. *)
Class SplitGraphManager (M : Type) := {
  getSplitGraphs : M -> list SplitGraph;
  getMemUsage : M -> SplitGraph -> ValMemSizeMap;
  shrinkSize : M -> SplitGraph -> M;
  resetToOrigSize : M -> SplitGraph -> M;
  splitNewSubGraph : M -> SplitGraph -> M * option SplitGraph
}.

(** [m_DLATB->getMemInfo()->getLocalMemSize()] *)
Record DLATargetBackend := { getLocalMemSize : Z }.

(** The two values of [Pass::ReturnType] that [runOnModule] returns. *)
Inductive ReturnType := kModuleNoChanged | kPassFailure.

(** What the pass does to the outside world, in program order. *)
Inductive Event :=
| Errs (text : string)              (* errs() << text *)
| ErrsKb (prevMinSize : Z)          (* errs() << prevMinSize / 1024 in kb *)
| Outs (text : string)              (* outs() << text *)
| SchedulerRun                      (* scheduler->runOnModule(pModule) *)
| LivenessRun                       (* liveAnaly->runOnModule(pModule) *)
| GetMemUsage (g : SplitGraph)
| AllocByLiveness (minSize : Z)
| ResetToOrigSize (g : SplitGraph)
| SplitNewSubGraph (g : SplitGraph) (newSpGraph : option SplitGraph)
| ShrinkSize (g : SplitGraph)
| Dump.                             (* sgMgr.dump() *)

(** The texts the pass writes; [msg_newline] is the line feed. *)
Definition msg_newline : string := String (Ascii.ascii_of_nat 10) EmptyString.
Definition msg_no_backend : string :=
  ("No backend infomation that is needed for memory allcation." ++ msg_newline)
  %string.
Definition msg_alloc_or_shrink : string := "allocate or shrink size: ".
Definition msg_unable : string :=
  ("[MemoryAllocation] Unable to allocate memory for group." ++ msg_newline)
  %string.

Section Pass.
Context {M : Type} `{SplitGraphManager M}.
Context {sorter : StdSort}.

(** The live intervals computed by [liveAnaly->runOnModule(pModule)];
    [allocByLiveness] reads them through [getLiveIntervals()]. *)
Variable livesInfo : list LiveInterval.t.

(** State of the loops of [runOnModule]: the member [m_MemAllocList],
    the local [sgMgr], the local [worklist] (kept back-first: the head of
    the list is [worklist.back()]) and the events so far. *)
Record State := mkState {
  m_MemAllocList : MemAllocList;
  sgMgr : M;
  worklist : list SplitGraph;
  trace : list Event
}.

(** The two [break]s of the inner loop: the placement fits, or the
    sub-graph is given up. *)
Inductive Verdict := Accepted | Abandoned.

(** How one pass through the body of [while (true)] leaves it: by one of
    the two [break]s, or back to the loop head with a new
    [prevMinSize]. *)
Inductive IterResult :=
| Break (v : Verdict) (s : State)
| Continue (s : State) (prevMinSize : Z).

(** [maxSize], summed over the map (computed by the source, never read). *)
Definition maxSize (valMemSMap : ValMemSizeMap) : Z :=
  map_fold (fun _ sz acc => wrap64 (acc + wrap64 sz)) 0 valMemSMap.

(** Source lines 157-169: forget the prior candidate, reset the sizes,
    ask for a split; [continue] with the new sub-graph on the worklist,
    or report and [break]. *)
Definition splitStep (spGraph : SplitGraph) (s : State) : IterResult :=
  let prevMinSize := 0 in
  let mgr1 := resetToOrigSize (sgMgr s) spGraph in
  let '(mgr2, newSpGraph) := splitNewSubGraph mgr1 spGraph in
  let tr := trace s ++ [ResetToOrigSize spGraph;
                        SplitNewSubGraph spGraph newSpGraph] in
  match newSpGraph with
  | Some g =>
      Continue (mkState (m_MemAllocList s) mgr2 (g :: worklist s) tr)
               prevMinSize
  | None =>
      Break Abandoned
        (mkState (m_MemAllocList s) mgr2 (worklist s)
           (tr ++ [Errs msg_unable]))
  end.

(** Source lines 171-174: record the candidate and shrink. *)
Definition shrinkStep (spGraph : SplitGraph) (s : State) (minSize : Z)
  : IterResult :=
  let prevMinSize := to_int64 minSize in
  Continue (mkState (m_MemAllocList s) (shrinkSize (sgMgr s) spGraph)
              (worklist s)
              (trace s ++ [ErrsKb prevMinSize; ShrinkSize spGraph]))
           prevMinSize.

(** The state after [getMemUsage] and [allocByLiveness], lines 141-150. *)
Definition allocStep (spGraph : SplitGraph) (s : State) : Z * State :=
  let valMemSMap := getMemUsage (sgMgr s) spGraph in
  let '(minSize, allocs) :=
    allocByLiveness (m_MemAllocList s) livesInfo valMemSMap in
  (minSize,
   mkState allocs (sgMgr s) (worklist s)
     (trace s ++ [GetMemUsage spGraph; AllocByLiveness minSize])).

(** The body of [while (true)], source lines 141-174. *)
Definition plannerIter (localMemSize : Z) (spGraph : SplitGraph)
                       (s : State) (prevMinSize : Z) : IterResult :=
  let '(minSize, s1) := allocStep spGraph s in
  if minSize <? localMemSize then Break Accepted s1
  else if negb (prevMinSize =? 0) && exceeds_threshold minSize prevMinSize
       then splitStep spGraph s1
       else shrinkStep spGraph s1 minSize.

(** [while (true)]: the loop need not end, so it runs on fuel. *)
Fixpoint plannerLoop (fuel : nat) (localMemSize : Z) (spGraph : SplitGraph)
                     (s : State) (prevMinSize : Z)
  : option (Verdict * State) :=
  match fuel with
  | O => None
  | S fuel' =>
      match plannerIter localMemSize spGraph s prevMinSize with
      | Break v s' => Some (v, s')
      | Continue s' prevMinSize' =>
          plannerLoop fuel' localMemSize spGraph s' prevMinSize'
      end
  end.

(** Lines 133-139: pop the back of the worklist and announce it. *)
Definition enterPlanner (s : State) (rest : list SplitGraph) : State :=
  mkState (m_MemAllocList s) (sgMgr s) rest
    (trace s ++ [Errs msg_alloc_or_shrink]).

(** Line 176, after the inner loop. *)
Definition leavePlanner (s : State) : State :=
  mkState (m_MemAllocList s) (sgMgr s) (worklist s)
    (trace s ++ [Outs msg_newline]).

(** [while (!worklist.empty())], source lines 132-177. *)
Fixpoint worklistLoop (fuel : nat) (localMemSize : Z) (s : State)
  : option State :=
  match fuel with
  | O => None
  | S fuel' =>
      match worklist s with
      | [] => Some s
      | spGraph :: rest =>
          match plannerLoop fuel' localMemSize spGraph
                  (enterPlanner s rest) 0 with
          | None => None
          | Some (_, s') => worklistLoop fuel' localMemSize (leavePlanner s')
          end
      end
  end.

(** What a call of [runOnModule] leaves behind. *)
Record Result := mkResult {
  status : ReturnType;
  allocations : MemAllocList;
  events : list Event
}.

(** [runOnModule].  [m_DLATB] is the backend pointer given to the
    constructor ([None] is the null pointer); [newSgMgr] stands for the
    constructor of the local [sgMgr], which takes the module's graph and
    the backend; [m_MemAllocList0] and [trace0] are the member list and
    the events before the call. *)
Definition runOnModule (fuel : nat) (m_DLATB : option DLATargetBackend)
                       (newSgMgr : DLATargetBackend -> M)
                       (m_MemAllocList0 : MemAllocList)
                       (trace0 : list Event) : option Result :=
  match m_DLATB with
  | None =>
      Some (mkResult kPassFailure m_MemAllocList0
              (trace0 ++ [Errs msg_no_backend]))
  | Some backend =>
      let mgr := newSgMgr backend in
      let localMemSize := wrap64 (getLocalMemSize backend) in
      let s0 := mkState (clear m_MemAllocList0) mgr
                  (rev (getSplitGraphs mgr))
                  (trace0 ++ [SchedulerRun; LivenessRun]) in
      match worklistLoop fuel localMemSize s0 with
      | None => None
      | Some s =>
          Some (mkResult kModuleNoChanged (m_MemAllocList s)
                  (trace s ++ [Dump]))
      end
  end.
End Pass.

Arguments State M : clear implicits.
Arguments IterResult M : clear implicits.
Arguments Result : clear implicits.

(** ** Notions used to state the properties of the planner *)

Section Specification.
Context {M : Type} `{SplitGraphManager M}.
Context {sorter : StdSort}.
Variable livesInfo : list LiveInterval.t.

(** The peak the allocator computes for sub-graph [g] when the manager is
    in state [m]. *)
Definition peak_of (m : M) (g : SplitGraph) : Z :=
  fst (allocByLiveness [] livesInfo (getMemUsage m g)).

(** The state an iteration ends in. *)
Definition result_state (r : IterResult M) : State M :=
  match r with
  | Break _ s => s
  | Continue s _ => s
  end.

(** In a trace, every request for a split comes directly after the reset
    of the same sub-graph's sizes. *)
Definition reset_before_split (tr : list Event) : Prop :=
  forall pre g r post,
    tr = pre ++ SplitNewSubGraph g r :: post ->
    exists pre', pre = pre' ++ [ResetToOrigSize g].

(** A shrink and split policy under which the planner loop ends, for the
    sub-graph [g] and the manager states satisfying [Inv]:
    - a shrink either leaves the requested sizes as they are (the floor is
      reached) or lowers the measure [mu];
    - a split that yields a new sub-graph lowers the measure [nu], which
      shrinking and resetting do not raise;
    - the peak stays below 2^63, so that it fits [prevMinSize]. *)
Record Converging (g : SplitGraph) (Inv : M -> Prop)
                  (mu nu : M -> nat) : Prop := {
  conv_shrink_inv : forall m, Inv m -> Inv (shrinkSize m g);
  conv_reset_inv : forall m, Inv m -> Inv (resetToOrigSize m g);
  conv_split_inv : forall m, Inv m -> Inv (fst (splitNewSubGraph m g));
  conv_shrink : forall m, Inv m ->
    getMemUsage (shrinkSize m g) g = getMemUsage m g \/
    (mu (shrinkSize m g) < mu m)%nat;
  conv_shrink_nu : forall m, Inv m -> (nu (shrinkSize m g) <= nu m)%nat;
  conv_reset_nu : forall m, Inv m -> (nu (resetToOrigSize m g) <= nu m)%nat;
  conv_split : forall m g', Inv m ->
    snd (splitNewSubGraph m g) = Some g' ->
    (nu (fst (splitNewSubGraph m g)) < nu m)%nat;
  conv_range : forall m, Inv m -> peak_of m g < 2 ^ 63
}.
End Specification.

(** ** A synthetic sub-graph manager

    The instance used to run the pass on concrete inputs: every sub-graph
    holds one value (the value's identity is the sub-graph's), [shrinkSize]
    halves the current size unless that would go below the floor, [resetToOrigSize] restores the
    original size, and [splitNewSubGraph] moves half of the original size
    into a new sub-graph as long as the manager has splits left. *)
Module Synthetic.
Record Graph := mkGraph { cur : Z; orig : Z; floor : Z }.
Record Mgr := mkMgr { graphs : list Graph; splits_left : nat }.

Definition usage (m : Mgr) (g : SplitGraph) : ValMemSizeMap :=
  match graphs m !! g with
  | Some x => {[ g := cur x ]}
  | None => ∅
  end.

Definition shrink (m : Mgr) (g : SplitGraph) : Mgr :=
  match graphs m !! g with
  | Some x =>
      let half := cur x / 2 in
      let cur' := if half <? floor x then cur x else half in
      mkMgr (<[ g := mkGraph cur' (orig x) (floor x) ]> (graphs m))
            (splits_left m)
  | None => m
  end.

Definition reset (m : Mgr) (g : SplitGraph) : Mgr :=
  match graphs m !! g with
  | Some x =>
      mkMgr (<[ g := mkGraph (orig x) (orig x) (floor x) ]> (graphs m))
            (splits_left m)
  | None => m
  end.

Definition split (m : Mgr) (g : SplitGraph) : Mgr * option SplitGraph :=
  match splits_left m, graphs m !! g with
  | S k, Some x =>
      let half := mkGraph (orig x / 2) (orig x / 2) (floor x) in
      (mkMgr (<[ g := half ]> (graphs m) ++ [half]) k,
       Some (length (graphs m)))
  | _, _ => (m, None)
  end.

#[global] Instance manager : SplitGraphManager Mgr := {|
  getSplitGraphs m := seq 0 (length (graphs m));
  getMemUsage := usage;
  shrinkSize := shrink;
  resetToOrigSize := reset;
  splitNewSubGraph := split
|}.

(** Every value is live at instruction 0. *)
Definition lives (n : nat) : list LiveInterval.t :=
  List.map (fun v => LiveInterval.mk v 0 0) (seq 0 n).

Definition state (m : Mgr) : State Mgr := mkState [] m [] [].

(** Sizes that fit a signed 64-bit integer. *)
Definition in_range (m : Mgr) : Prop :=
  Forall (fun x => 0 <= cur x < 2 ^ 63 /\ 0 <= orig x < 2 ^ 63) (graphs m).

(** What is left to shrink, and how many splits are left. *)
Definition shrink_room (g : SplitGraph) (m : Mgr) : nat :=
  match graphs m !! g with
  | Some x => Z.to_nat (cur x)
  | None => 0%nat
  end.

(** One sub-graph whose only value has size 2^63, also its floor. *)
Definition huge : Mgr := mkMgr [mkGraph (2 ^ 63) (2 ^ 63) (2 ^ 63)] 0.

(** One sub-graph with a value of size [c]. *)
Definition single (c : Z) (splits : nat) : Mgr := mkMgr [mkGraph c c 1] splits.

(** Two sub-graphs: the first fits 500 bytes, the second never does. *)
Definition pair : Mgr := mkMgr [mkGraph 400 400 1; mkGraph 2000 2000 600] 0.
End Synthetic.

(** ** Inputs used to run the allocator *)

(** Five values: value 0 is live at instruction 5 only, values 1, 2, 3 are
    live from instruction 0, value 4 is live over [1, 5]. *)
Definition overlap_lives : list LiveInterval.t :=
  [ LiveInterval.mk 0 5 5; LiveInterval.mk 1 0 0; LiveInterval.mk 2 0 1;
    LiveInterval.mk 3 0 2; LiveInterval.mk 4 1 5 ]%nat.

Definition overlap_sizes : ValMemSizeMap :=
  <[ 0%nat := 100 ]> (<[ 1%nat := 10 ]> (<[ 2%nat := 10 ]>
    (<[ 3%nat := 100 ]> (<[ 4%nat := 5 ]> ∅)))).

(** ** Properties of an allocation *)

(** [e->startAddr + e->size], as [print] computes it. *)
Definition entry_end (e : MemAllocEntry.t) : Z :=
  size_add (MemAllocEntry.startAddr e) (MemAllocEntry.size e).

(** The largest end address of a list of entries, 0 for the empty list. *)
Definition max_end (l : MemAllocList) : Z :=
  fold_right (fun e acc => Z.max (entry_end e) acc) 0 l.

(** Half-open ranges [start, start + size) with a common address. *)
Definition ranges_overlap (a b : MemAllocEntry.t) : Prop :=
  MemAllocEntry.startAddr a < MemAllocEntry.startAddr b + MemAllocEntry.size b /\
  MemAllocEntry.startAddr b < MemAllocEntry.startAddr a + MemAllocEntry.size a.

(** No two entries with intersecting live intervals overlap. *)
Definition no_overlap (l : MemAllocList) : Prop :=
  forall (i j : nat) (a b : MemAllocEntry.t),
    i <> j -> l !! i = Some a -> l !! j = Some b ->
    LiveInterval.intersect (MemAllocEntry.liveIntrvl a)
                           (MemAllocEntry.liveIntrvl b) = true ->
    ~ ranges_overlap a b.

(** [pValMemSizeMap.count(v)] for the value of a live interval *)
Definition in_map (pValMemSizeMap : ValMemSizeMap) (li : LiveInterval.t) : bool :=
  match pValMemSizeMap !! LiveInterval.getValue li with
  | Some _ => true
  | None => false
  end.

(** The live intervals come in order of their first instruction. *)
Definition starts_ordered (lives : list LiveInterval.t) : Prop :=
  StronglySorted
    (fun a b => (LiveInterval.getStart a <= LiveInterval.getStart b)%nat) lives.

(** The sum of the sizes requested for the intervals of [lives]. *)
Definition total_required (vm : ValMemSizeMap)
                          (lives : list LiveInterval.t) : Z :=
  fold_right (fun li acc =>
                match vm !! LiveInterval.getValue li with
                | Some sz => sz + acc
                | None => acc
                end) 0 lives.

(** Every interval of [lives] that has a size has a positive one. *)
Definition sizes_positive (vm : ValMemSizeMap)
                          (lives : list LiveInterval.t) : Prop :=
  Forall (fun li => forall sz,
            vm !! LiveInterval.getValue li = Some sz -> 0 < sz) lives.

(** Two entries are compatible when their ranges are disjoint or their
    live intervals do not intersect. *)
Definition compatible (a b : MemAllocEntry.t) : Prop :=
  LiveInterval.intersect (MemAllocEntry.liveIntrvl a)
                         (MemAllocEntry.liveIntrvl b) = true ->
  MemAllocEntry.startAddr a + MemAllocEntry.size a <= MemAllocEntry.startAddr b \/
  MemAllocEntry.startAddr b + MemAllocEntry.size b <= MemAllocEntry.startAddr a.

(** The region of an entry, as [GetUsedMemRegions] builds it. *)
Definition region_of (e : MemAllocEntry.t) : MemRegion.t :=
  MemRegion.mk (MemAllocEntry.startAddr e) (MemAllocEntry.size e).

(** A region of positive size inside [0, bound]. *)
Definition region_within (bound : Z) (r : MemRegion.t) : Prop :=
  0 <= MemRegion.start r /\ 0 < MemRegion.size r /\
  MemRegion.start r + MemRegion.size r <= bound.

(** The regions the scan has not passed when it leaves the loop (the region
    it stopped at comes first); empty when the conflicts are exhausted. *)
Fixpoint scan_remaining (conflicts : MemRegionList)
                        (startAddr required : Z) : MemRegionList :=
  match conflicts with
  | [] => []
  | reg :: rest =>
      if negb (HasConflict (MemRegion.start reg) (MemRegion.size reg)
                           startAddr required)
      then reg :: rest
      else scan_remaining rest
             (size_add (MemRegion.start reg) (MemRegion.size reg)) required
  end.

(** The entries placed for values 0 to 3 of [overlap_lives], and the
    conflicts of value 4 among them. *)
Definition overlap_placed : MemAllocList :=
  [ MemAllocEntry.mk 0 100 (LiveInterval.mk 0 5 5)%nat;
    MemAllocEntry.mk 0 10 (LiveInterval.mk 1 0 0)%nat;
    MemAllocEntry.mk 10 10 (LiveInterval.mk 2 0 1)%nat;
    MemAllocEntry.mk 20 100 (LiveInterval.mk 3 0 2)%nat ].

Definition overlap_conflicts : MemRegionList :=
  [ MemRegion.mk 0 100; MemRegion.mk 10 10; MemRegion.mk 20 100 ].

(** ** Notions used to state further properties *)

(** Every entry sits at address 0 or right at the end of an earlier entry
    whose live interval intersects its own. *)
Definition tightly_placed (l : MemAllocList) : Prop :=
  forall pre e post,
    l = pre ++ e :: post ->
    MemAllocEntry.startAddr e = 0 \/
    exists e', In e' pre /\
               LiveInterval.intersect (MemAllocEntry.liveIntrvl e')
                                      (MemAllocEntry.liveIntrvl e) = true /\
               MemAllocEntry.startAddr e = entry_end e'.

(** Every interval of [lives] that has a size has a non-negative one. *)
Definition sizes_nonneg (vm : ValMemSizeMap)
                        (lives : list LiveInterval.t) : Prop :=
  Forall (fun li => forall sz,
            vm !! LiveInterval.getValue li = Some sz -> 0 <= sz) lives.

(** The sum of all the sizes of a map, without wrap-around. *)
Definition sum_sizes (vm : ValMemSizeMap) : Z :=
  map_fold (fun _ sz acc => sz + acc) 0 vm.

(** An entry of non-negative size inside [0, bound]. *)
Definition entry_within (bound : Z) (e : MemAllocEntry.t) : Prop :=
  0 <= MemAllocEntry.startAddr e /\ 0 <= MemAllocEntry.size e /\
  MemAllocEntry.startAddr e + MemAllocEntry.size e <= bound.

(** The entries lie back to back from address [base] up to [top]. *)
Fixpoint stacked (base : Z) (l : MemAllocList) (top : Z) : Prop :=
  match l with
  | [] => top = base
  | e :: l' =>
      MemAllocEntry.startAddr e = base /\
      stacked (base + MemAllocEntry.size e) l' top
  end.

(** The events of the pass on [Synthetic.pair] with a budget of 500
    bytes. *)
Definition pair_events : list Event :=
  [SchedulerRun; LivenessRun;
   Errs msg_alloc_or_shrink;
   GetMemUsage 1; AllocByLiveness 2000; ErrsKb 2000; ShrinkSize 1;
   GetMemUsage 1; AllocByLiveness 1000; ErrsKb 1000; ShrinkSize 1;
   GetMemUsage 1; AllocByLiveness 1000;
   ResetToOrigSize 1; SplitNewSubGraph 1 None; Errs msg_unable;
   Outs msg_newline;
   Errs msg_alloc_or_shrink;
   GetMemUsage 0; AllocByLiveness 400;
   Outs msg_newline; Dump]%nat.

(** ** Notions used to state properties of whole runs *)

(** In a trace, every request for a split comes at the end of the sequence
    shrink, usage, allocation, reset for the same sub-graph. *)
Definition shrunk_before_split (tr : list Event) : Prop :=
  forall pre g r post,
    tr = pre ++ SplitNewSubGraph g r :: post ->
    exists pre' q p,
      pre = pre' ++ [ErrsKb q; ShrinkSize g; GetMemUsage g; AllocByLiveness p;
                     ResetToOrigSize g].

(** The events that open and close the planning of one sub-graph, and the
    event of a split that yields a new sub-graph. *)
Definition is_announcement (e : Event) : bool :=
  match e with
  | Errs m => String.eqb m msg_alloc_or_shrink
  | _ => false
  end.

Definition is_end_of_planning (e : Event) : bool :=
  match e with
  | Outs _ => true
  | _ => false
  end.

Definition is_new_subgraph (e : Event) : bool :=
  match e with
  | SplitNewSubGraph _ (Some _) => true
  | _ => false
  end.

Definition count_events (p : Event -> bool) (tr : list Event) : nat :=
  length (List.filter p tr).

Section PassSpecification.
Context {M : Type} `{SplitGraphManager M}.
Context {sorter : StdSort}.
Variable livesInfo : list LiveInterval.t.

(** A policy that converges on every sub-graph, with one measure [nu] for
    the splits of the whole pass, which a refused split does not raise. *)
Record ConvergingPass (Inv : M -> Prop) (mu : SplitGraph -> M -> nat)
                      (nu : M -> nat) : Prop := {
  pass_converging : forall g, Converging livesInfo g Inv (mu g) nu;
  pass_refused : forall m g, Inv m ->
    snd (splitNewSubGraph m g) = None ->
    (nu (fst (splitNewSubGraph m g)) <= nu m)%nat
}.
End PassSpecification.

(** A float that is not a number, or has the sign [s]. *)
Definition has_sign (s : bool) (f : spec_float) : Prop :=
  match f with
  | S754_nan => True
  | S754_zero s' | S754_infinity s' | S754_finite s' _ _ => s' = s
  end.

(** * Theorems *)

(** ** The sort

    The insertion sort meets the contract of [std::sort]. *)

Lemma insert_region_Forall (P : MemRegion.t -> Prop) (x : MemRegion.t)
      (l : MemRegionList) :
  P x -> Forall P l -> Forall P (insert_region x l).
Proof.
  intros Hx Hl. induction Hl as [| y l Hy Hl IH]; cbn [insert_region].
  - now constructor.
  - destruct (_ <? _); repeat constructor; assumption.
Qed.

Lemma insert_region_sorted (x : MemRegion.t) (l : MemRegionList) :
  StronglySorted (fun a b => MemRegion.start a <= MemRegion.start b) l ->
  StronglySorted (fun a b => MemRegion.start a <= MemRegion.start b)
                 (insert_region x l).
Proof.
  intros Hl. induction Hl as [| y l Hl IH Hy]; cbn [insert_region].
  - repeat constructor.
  - destruct (Z.ltb_spec (MemRegion.start x) (MemRegion.start y)) as [Hlt | Hge].
    + constructor; [now constructor |].
      constructor; [lia |].
      eapply Forall_impl; [exact Hy |]. cbn. intros; lia.
    + constructor; [exact IH |].
      apply insert_region_Forall; [lia | exact Hy].
Qed.

Lemma insert_region_perm (x : MemRegion.t) (l : MemRegionList) :
  Permutation (insert_region x l) (x :: l).
Proof.
  induction l as [| y l IH]; cbn [insert_region]; [reflexivity |].
  destruct (_ <? _); [reflexivity |].
  rewrite IH. apply perm_swap.
Qed.

Lemma sort_fold_perm (l : MemRegionList) :
  forall acc,
    Permutation (fold_left (fun acc x => insert_region x acc) l acc) (acc ++ l).
Proof.
  induction l as [| x l IH]; intros acc; cbn [fold_left].
  - now rewrite app_nil_r.
  - rewrite IH, insert_region_perm.
    change (x :: acc) with ([x] ++ acc).
    rewrite (Permutation_app_comm [x] acc), <- app_assoc. reflexivity.
Qed.

Lemma sort_fold_sorted (l : MemRegionList) :
  forall acc,
    StronglySorted (fun a b => MemRegion.start a <= MemRegion.start b) acc ->
    StronglySorted (fun a b => MemRegion.start a <= MemRegion.start b)
      (fold_left (fun acc x => insert_region x acc) l acc).
Proof.
  induction l as [| x l IH]; intros acc Hacc; cbn [fold_left]; [exact Hacc |].
  apply IH. now apply insert_region_sorted.
Qed.

Lemma sort_by_start_sorted (l : MemRegionList) :
  StronglySorted (fun a b => MemRegion.start a <= MemRegion.start b)
                 (sort_by_start l).
Proof. apply sort_fold_sorted. constructor. Qed.

Lemma sort_by_start_permutation (l : MemRegionList) :
  Permutation (sort_by_start l) l.
Proof. unfold sort_by_start. now rewrite sort_fold_perm. Qed.

#[global] Instance insertion_sort : StdSort := {|
  std_sort := sort_by_start;
  std_sort_sorted := sort_by_start_sorted;
  std_sort_permutation := sort_by_start_permutation
|}.

(** What holds of the sorted range whatever the order of equal starts. *)

Lemma StronglySorted_Permutation {A : Type} (R : A -> A -> Prop) (l l' : list A) :
  (forall a b, R a b -> R b a) ->
  Permutation l l' -> StronglySorted R l -> StronglySorted R l'.
Proof.
  intros Hsym. induction 1 as [| x l l' Hp IH | x y l | l l' l'' _ IH1 _ IH2];
    intros Hs.
  - exact Hs.
  - apply StronglySorted_cons in Hs as [Hx Hl].
    constructor; [now apply IH |]. now rewrite <- Hp.
  - apply StronglySorted_cons in Hs as [Hy Hs].
    apply StronglySorted_cons in Hs as [Hx Hl].
    apply Forall_cons_1 in Hy as [Hyx Hy].
    repeat constructor; auto.
  - auto.
Qed.

Lemma sorted_permutation_unique (l l' : MemRegionList) :
  StronglySorted (fun a b => MemRegion.start a < MemRegion.start b) l ->
  StronglySorted (fun a b => MemRegion.start a <= MemRegion.start b) l' ->
  Permutation l' l -> l' = l.
Proof.
  intros Hl. revert l'.
  induction Hl as [| x l Hl IH Hx]; intros l' Hl' Hp.
  - now apply Permutation_nil_r in Hp.
  - destruct l' as [| y l']; [now apply Permutation_nil_cons in Hp |].
    apply StronglySorted_cons in Hl' as [Hy Hl'].
    rewrite Forall_forall in Hx, Hy.
    assert (Hyx : y = x).
    { assert (Hin : y ∈ x :: l) by (rewrite <- Hp; now left).
      apply elem_of_cons in Hin as [Heq | Hin]; [exact Heq |].
      assert (Hin' : x ∈ y :: l') by (rewrite Hp; now left).
      apply elem_of_cons in Hin' as [Heq | Hin']; [now symmetry |].
      specialize (Hx y Hin). specialize (Hy x Hin'). cbn beta in Hx, Hy. lia. }
    subst y. f_equal. apply IH; [exact Hl' |].
    now apply Permutation_cons_inv in Hp.
Qed.

Section SortContract.
Context {sorter : StdSort}.

Lemma std_sort_In (x : MemRegion.t) (l : MemRegionList) :
  In x (std_sort l) <-> In x l.
Proof.
  split; apply Permutation_in;
    [apply std_sort_permutation | symmetry; apply std_sort_permutation].
Qed.

Lemma std_sort_spec (R : MemRegion.t -> MemRegion.t -> Prop)
      (P : MemRegion.t -> Prop) (l : MemRegionList) :
  (forall a b, R a b -> R b a) ->
  StronglySorted R l ->
  Forall P l ->
  StronglySorted R (std_sort l) /\ Forall P (std_sort l) /\
  StronglySorted (fun a b => MemRegion.start a <= MemRegion.start b) (std_sort l) /\
  (forall y, In y l -> In y (std_sort l)).
Proof.
  intros Hsym HR HP. repeat split.
  - apply (StronglySorted_Permutation R l); [exact Hsym | | exact HR].
    symmetry. apply std_sort_permutation.
  - now rewrite std_sort_permutation.
  - apply std_sort_sorted.
  - intros y. apply std_sort_In.
Qed.

(** Where the starts are pairwise distinct, the contract leaves one
    result: a range already in ascending order stays as it is. *)
Lemma std_sort_ascending (l : MemRegionList) :
  StronglySorted (fun a b => MemRegion.start a < MemRegion.start b) l ->
  std_sort l = l.
Proof.
  intros Hl. apply sorted_permutation_unique;
    [exact Hl | apply std_sort_sorted | apply std_sort_permutation].
Qed.
End SortContract.

(** ** The allocator *)

Section AllocatorFacts.
Context {sorter : StdSort}.

Lemma max_end_app (l : MemAllocList) (e : MemAllocEntry.t) :
  max_end (l ++ [e]) = Z.max (max_end l) (entry_end e).
Proof.
  induction l as [| x l IH]; cbn [max_end fold_right app].
  - unfold entry_end, size_add, wrap64.
    pose proof (Z.mod_pos_bound (MemAllocEntry.startAddr e + MemAllocEntry.size e)
                  (2 ^ 64) ltac:(lia)).
    lia.
  - fold (max_end (l ++ [e])). fold (max_end l). rewrite IH. lia.
Qed.

Lemma alloc_step_peak (vm : ValMemSizeMap) (allocs : MemAllocList)
      (minSize : Z) (li : LiveInterval.t) :
  minSize = max_end allocs ->
  snd (alloc_step vm (allocs, minSize) li)
  = max_end (fst (alloc_step vm (allocs, minSize) li)).
Proof.
  intros Hm. unfold alloc_step.
  destruct (vm !! LiveInterval.getValue li) as [sz |]; cbn [fst snd]; [| exact Hm].
  rewrite max_end_app. unfold entry_end. cbn. now rewrite Hm.
Qed.

Lemma alloc_fold_peak (vm : ValMemSizeMap) (lives : list LiveInterval.t) :
  forall acc, snd acc = max_end (fst acc) ->
    snd (fold_left (alloc_step vm) lives acc)
    = max_end (fst (fold_left (alloc_step vm) lives acc)).
Proof.
  induction lives as [| li lives IH]; intros [allocs minSize] Hacc;
    cbn [fold_left]; [exact Hacc |].
  apply IH. apply alloc_step_peak. exact Hacc.
Qed.

Lemma allocByLiveness_unfold (old : MemAllocList) (lives : list LiveInterval.t)
      (vm : ValMemSizeMap) :
  allocByLiveness old lives vm
  = (snd (fold_left (alloc_step vm) lives (clear [], 0)),
     fst (fold_left (alloc_step vm) lives (clear [], 0))).
Proof.
  unfold allocByLiveness. cbv zeta. change (clear old) with (clear []).
  now destruct (fold_left (alloc_step vm) lives (clear [], 0)).
Qed.

Lemma allocByLiveness_peak (old : MemAllocList) (lives : list LiveInterval.t)
      (vm : ValMemSizeMap) :
  fst (allocByLiveness old lives vm) = max_end (snd (allocByLiveness old lives vm)).
Proof.
  rewrite allocByLiveness_unfold. cbn [fst snd].
  now apply alloc_fold_peak.
Qed.

Lemma allocByLiveness_old (old1 old2 : MemAllocList)
      (lives : list LiveInterval.t) (vm : ValMemSizeMap) :
  allocByLiveness old1 lives vm = allocByLiveness old2 lives vm.
Proof. now rewrite !allocByLiveness_unfold. Qed.

Lemma alloc_step_unmapped (vm : ValMemSizeMap) (acc : MemAllocList * Z)
      (li : LiveInterval.t) :
  in_map vm li = false -> alloc_step vm acc li = acc.
Proof.
  unfold in_map, alloc_step. destruct acc as [allocs minSize].
  now destruct (vm !! LiveInterval.getValue li).
Qed.

Lemma alloc_step_mapped (vm : ValMemSizeMap) (acc : MemAllocList * Z)
      (li : LiveInterval.t) :
  in_map vm li = true ->
  exists e, fst (alloc_step vm acc li) = fst acc ++ [e]
            /\ MemAllocEntry.liveIntrvl e = li.
Proof.
  unfold in_map, alloc_step. destruct acc as [allocs minSize].
  destruct (vm !! LiveInterval.getValue li); [| discriminate].
  intros _. eexists. split; reflexivity.
Qed.

Lemma alloc_fold_filter (vm : ValMemSizeMap) (lives : list LiveInterval.t) :
  forall acc,
    fold_left (alloc_step vm) lives acc
    = fold_left (alloc_step vm) (List.filter (in_map vm) lives) acc.
Proof.
  induction lives as [| li lives IH]; intros acc; cbn [fold_left List.filter];
    [reflexivity |].
  destruct (in_map vm li) eqn:E; cbn [fold_left].
  - apply IH.
  - rewrite alloc_step_unmapped by exact E. apply IH.
Qed.

Lemma alloc_fold_intervals (vm : ValMemSizeMap) (lives : list LiveInterval.t) :
  forall acc,
    List.map MemAllocEntry.liveIntrvl (fst (fold_left (alloc_step vm) lives acc))
    = List.map MemAllocEntry.liveIntrvl (fst acc) ++ List.filter (in_map vm) lives.
Proof.
  induction lives as [| li lives IH]; intros acc; cbn [fold_left List.filter].
  - now rewrite app_nil_r.
  - rewrite IH. destruct (in_map vm li) eqn:E.
    + destruct (alloc_step_mapped vm acc li E) as (e & -> & <-).
      rewrite List.map_app. cbn [List.map]. now rewrite <- app_assoc.
    + now rewrite alloc_step_unmapped by exact E.
Qed.

Lemma alloc_fold_nil (vm : ValMemSizeMap) (lives : list LiveInterval.t) :
  Forall (fun li => vm !! LiveInterval.getValue li = None) lives ->
  forall acc, fold_left (alloc_step vm) lives acc = acc.
Proof.
  induction 1 as [| li lives Hli _ IH]; intros acc; cbn [fold_left];
    [reflexivity |].
  rewrite alloc_step_unmapped; [apply IH |].
  unfold in_map. now rewrite Hli.
Qed.

(** C8: the allocator starts by discarding the entries of earlier runs, so
    its result (peak and entries) is the same whatever list it finds in
    [m_MemAllocList]: two runs on the same intervals and sizes agree. *)
Theorem allocByLiveness_history_independent
        (old1 old2 : MemAllocList) (lives : list LiveInterval.t)
        (vm : ValMemSizeMap) :
  clear old1 = [] /\
  allocByLiveness old1 lives vm = allocByLiveness old2 lives vm.
Proof. split; [reflexivity | apply allocByLiveness_old]. Qed.

(** C10: intervals whose value is not in the size map are skipped: dropping
    them from the input changes nothing, the entries are exactly the mapped
    intervals in input order, and when no interval is mapped (for instance
    with the empty map) the result is peak 0 and no entry. *)
Theorem allocByLiveness_skips_unmapped
        (old : MemAllocList) (lives : list LiveInterval.t) (vm : ValMemSizeMap) :
  allocByLiveness old lives vm
  = allocByLiveness old (List.filter (in_map vm) lives) vm /\
  List.map MemAllocEntry.liveIntrvl (snd (allocByLiveness old lives vm))
  = List.filter (in_map vm) lives /\
  (Forall (fun li => vm !! LiveInterval.getValue li = None) lives ->
   allocByLiveness old lives vm = (0, [])) /\
  allocByLiveness old lives ∅ = (0, []).
Proof.
  rewrite !allocByLiveness_unfold. repeat split.
  - now rewrite <- alloc_fold_filter.
  - cbn [snd]. now rewrite alloc_fold_intervals.
  - intros Hnone. now rewrite alloc_fold_nil.
  - rewrite alloc_fold_nil; [reflexivity |].
    apply Forall_forall. intros li _. apply lookup_empty.
Qed.

End AllocatorFacts.

Lemma allocByLiveness_skips_unmapped_witness :
  allocByLiveness overlap_placed overlap_lives {[ 9%nat := 64 ]} = (0, []).
Proof.
  refine (proj1 (proj2 (proj2
            (allocByLiveness_skips_unmapped overlap_placed overlap_lives
               {[ 9%nat := 64 ]}))) _).
  repeat constructor.
Defined.

(** C1 (defect in the code): on the intervals [overlap_lives] with the sizes
    [overlap_sizes] the allocator puts value 3 at [20, 120) and value 4 at
    [100, 105), although their live intervals [0, 2] and [1, 5] intersect:
    the entries it returns break the no-overlap invariant. *)
Theorem allocByLiveness_overlap :
  allocByLiveness [] overlap_lives overlap_sizes
  = (120, overlap_placed ++ [MemAllocEntry.mk 100 5 (LiveInterval.mk 4 1 5)%nat]) /\
  ~ no_overlap (snd (allocByLiveness [] overlap_lives overlap_sizes)).
Proof.
  assert (E : allocByLiveness [] overlap_lives overlap_sizes
              = (120, overlap_placed
                      ++ [MemAllocEntry.mk 100 5 (LiveInterval.mk 4 1 5)%nat]))
    by (vm_compute; reflexivity).
  split; [exact E |].
  rewrite E. intros Hno.
  apply (Hno 3%nat 4%nat (MemAllocEntry.mk 20 100 (LiveInterval.mk 3 0 2)%nat)
             (MemAllocEntry.mk 100 5 (LiveInterval.mk 4 1 5)%nat));
    try reflexivity; [lia |].
  unfold ranges_overlap. cbn. lia.
Qed.

(** C2 (defect in the code): for value 4 of [overlap_lives] the sorted
    conflicts are [0, 100), [10, 20), [20, 120); with size 5 the scan moves
    to 100 past the first region and leaves the loop at the second one,
    which lies below the candidate, while the third region, still to be
    scanned, overlaps the accepted range [100, 105). *)
Theorem scan_conflicts_stops_early :
  GetUsedMemRegions overlap_placed (LiveInterval.mk 4 1 5)%nat = overlap_conflicts /\
  scan_conflicts overlap_conflicts 0 5 = 100 /\
  scan_remaining overlap_conflicts 0 5
  = [MemRegion.mk 10 10; MemRegion.mk 20 100] /\
  HasConflict 20 100 (scan_conflicts overlap_conflicts 0 5) 5 = true.
Proof. repeat split; vm_compute; reflexivity. Qed.

(** The defect does not hang on the order of equal starts: in the run of
    C1 the conflicts of every interval come in ascending order of distinct
    starts, so every [std::sort] returns them as they are. *)

Section AnySort.
Context {sorter : StdSort}.

Lemma GetUsedMemRegions_ascending (allocs : MemAllocList) (li : LiveInterval.t)
      (l : MemRegionList) :
  List.map region_of
    (List.filter
       (fun e => LiveInterval.intersect (MemAllocEntry.liveIntrvl e) li) allocs)
  = l ->
  StronglySorted (fun a b => MemRegion.start a < MemRegion.start b) l ->
  GetUsedMemRegions allocs li = l.
Proof.
  intros <- Hl. unfold GetUsedMemRegions. cbv zeta. fold region_of.
  now apply std_sort_ascending.
Qed.

Lemma alloc_step_ascending (vm : ValMemSizeMap) (allocs : MemAllocList)
      (minSize : Z) (li : LiveInterval.t) (sz : Z) (l : MemRegionList) :
  vm !! LiveInterval.getValue li = Some sz ->
  List.map region_of
    (List.filter
       (fun e => LiveInterval.intersect (MemAllocEntry.liveIntrvl e) li) allocs)
  = l ->
  StronglySorted (fun a b => MemRegion.start a < MemRegion.start b) l ->
  alloc_step vm (allocs, minSize) li
  = (allocs ++ [MemAllocEntry.mk (scan_conflicts l 0 (wrap64 sz)) (wrap64 sz) li],
     Z.max minSize (size_add (scan_conflicts l 0 (wrap64 sz)) (wrap64 sz))).
Proof.
  intros Hsz Hl Hs. unfold alloc_step. rewrite Hsz.
  now rewrite (GetUsedMemRegions_ascending allocs li l Hl Hs).
Qed.

Lemma GetUsedMemRegions_overlap_any_sort :
  GetUsedMemRegions overlap_placed (LiveInterval.mk 4 1 5)%nat = overlap_conflicts.
Proof.
  apply GetUsedMemRegions_ascending; [reflexivity |].
  repeat constructor; cbn; lia.
Qed.

Lemma allocByLiveness_overlap_any_sort :
  allocByLiveness [] overlap_lives overlap_sizes
  = (120, overlap_placed ++ [MemAllocEntry.mk 100 5 (LiveInterval.mk 4 1 5)%nat]).
Proof.
  rewrite allocByLiveness_unfold. unfold overlap_lives, clear. cbn [fold_left].
  rewrite (alloc_step_ascending overlap_sizes [] 0 _ 100 []);
    [| reflexivity | reflexivity | constructor].
  rewrite (alloc_step_ascending overlap_sizes _ _ _ 10 []);
    [| reflexivity | reflexivity | constructor].
  rewrite (alloc_step_ascending overlap_sizes _ _ _ 10 [MemRegion.mk 0 10]);
    [| reflexivity | reflexivity | repeat constructor].
  rewrite (alloc_step_ascending overlap_sizes _ _ _ 100
             [MemRegion.mk 0 10; MemRegion.mk 10 10]);
    [| reflexivity | reflexivity | repeat constructor; cbn; lia].
  rewrite (alloc_step_ascending overlap_sizes _ _ _ 5 overlap_conflicts);
    [| reflexivity | reflexivity | repeat constructor; cbn; lia].
  vm_compute. reflexivity.
Qed.
End AnySort.

(** ** The invariant for intervals in order of start

    When the live intervals are supplied in order of their first
    instruction, the entries that conflict with a new interval are all live
    at that instruction, hence pairwise disjoint, and the scan of the
    sorted conflicts finds a free range. *)

Section OrderedStarts.
Context {sorter : StdSort}.

Lemma intersect_sym (a b : LiveInterval.t) :
  LiveInterval.intersect a b = LiveInterval.intersect b a.
Proof. unfold LiveInterval.intersect. now rewrite orb_comm. Qed.

Lemma intersect_common_start (a b x : LiveInterval.t) :
  LiveInterval.intersect a x = true ->
  LiveInterval.intersect b x = true ->
  (LiveInterval.getStart a <= LiveInterval.getStart x)%nat ->
  (LiveInterval.getStart b <= LiveInterval.getStart x)%nat ->
  LiveInterval.intersect a b = true.
Proof.
  unfold LiveInterval.intersect.
  rewrite !negb_true_iff, !orb_false_iff, !Nat.ltb_ge. lia.
Qed.

Lemma compatible_sym (a b : MemAllocEntry.t) : compatible a b -> compatible b a.
Proof. unfold compatible. rewrite (intersect_sym (MemAllocEntry.liveIntrvl b)). tauto. Qed.

(** *** The scan on disjoint conflicts *)

Lemma chain_of_sorted_disjoint (bound : Z) (C : MemRegionList) :
  StronglySorted (fun a b => MemRegion.start a <= MemRegion.start b) C ->
  StronglySorted
    (fun a b => MemRegion.start a + MemRegion.size a <= MemRegion.start b \/
                MemRegion.start b + MemRegion.size b <= MemRegion.start a) C ->
  Forall (region_within bound) C ->
  StronglySorted
    (fun a b => MemRegion.start a + MemRegion.size a <= MemRegion.start b) C.
Proof.
  induction C as [| r C IH]; intros Hs Hd Hw; [constructor |].
  apply StronglySorted_cons in Hs as [Hs1 Hs2].
  apply StronglySorted_cons in Hd as [Hd1 Hd2].
  apply Forall_cons_1 in Hw as [Hr Hw].
  constructor; [now apply IH |].
  rewrite Forall_forall in *. intros x Hx.
  specialize (Hs1 x Hx). specialize (Hd1 x Hx). specialize (Hw x Hx).
  unfold region_within in *. cbn beta in *. lia.
Qed.

Lemma scan_conflicts_free (bound required : Z) :
  0 < required -> bound + required < 2 ^ 64 ->
  forall (C : MemRegionList) (c : Z),
    StronglySorted
      (fun a b => MemRegion.start a + MemRegion.size a <= MemRegion.start b) C ->
    Forall (region_within bound) C ->
    0 <= c <= bound ->
    Forall (fun r => c <= MemRegion.start r) C ->
    c <= scan_conflicts C c required <= bound /\
    Forall (fun r =>
              MemRegion.start r + MemRegion.size r <= scan_conflicts C c required \/
              scan_conflicts C c required + required <= MemRegion.start r) C.
Proof.
  intros Hreq Hbound.
  induction C as [| r C IH]; intros c Hch Hw Hc Hlow; cbn [scan_conflicts].
  - split; [lia | constructor].
  - apply StronglySorted_cons in Hch as [Hr Hch].
    apply Forall_cons_1 in Hw as [Hwr Hw].
    apply Forall_cons_1 in Hlow as [Hcr Hlow].
    unfold region_within in Hwr.
    unfold HasConflict, size_add, wrap64.
    rewrite !Z.mod_small by lia.
    rewrite negb_involutive.
    destruct (Z.leb_spec (MemRegion.start r + MemRegion.size r) c) as [Hle | Hgt];
      [lia |].
    destruct (Z.leb_spec (c + required) (MemRegion.start r)) as [Hfree | Hhit];
      cbn [orb].
    + split; [lia |]. constructor; [now right |].
      rewrite Forall_forall in *. intros x Hx. specialize (Hr x Hx).
      cbn beta in Hr. lia.
    + destruct (IH (MemRegion.start r + MemRegion.size r)) as [Hres Hfree];
        [exact Hch | exact Hw | lia | exact Hr |].
      split; [lia |]. constructor; [left; lia | exact Hfree].
Qed.

(** *** The conflicts of an interval that starts last *)

Lemma StronglySorted_map {A B : Type} (f : A -> B) (R : B -> B -> Prop)
      (l : list A) :
  StronglySorted (fun a b => R (f a) (f b)) l -> StronglySorted R (List.map f l).
Proof.
  induction 1 as [| a l Hl IH Ha]; cbn [List.map]; constructor; [exact IH |].
  rewrite Forall_forall in Ha. apply Forall_forall. intros y Hy.
  apply list_elem_of_In, in_map_iff in Hy as (x & <- & Hx).
  apply Ha. now apply list_elem_of_In.
Qed.

Lemma conflicts_disjoint (allocs : MemAllocList) (li : LiveInterval.t) :
  StronglySorted compatible allocs ->
  Forall (fun e => (LiveInterval.getStart (MemAllocEntry.liveIntrvl e)
                    <= LiveInterval.getStart li)%nat) allocs ->
  StronglySorted
    (fun a b =>
       MemRegion.start (region_of a) + MemRegion.size (region_of a)
       <= MemRegion.start (region_of b) \/
       MemRegion.start (region_of b) + MemRegion.size (region_of b)
       <= MemRegion.start (region_of a))
    (List.filter
       (fun e => LiveInterval.intersect (MemAllocEntry.liveIntrvl e) li) allocs).
Proof.
  induction 1 as [| e l Hl IH He]; intros Hstart; cbn [List.filter];
    [constructor |].
  apply Forall_cons_1 in Hstart as [Hes Hstart].
  destruct (LiveInterval.intersect (MemAllocEntry.liveIntrvl e) li) eqn:Hint;
    [| now apply IH].
  constructor; [now apply IH |].
  rewrite Forall_forall in He, Hstart. apply Forall_forall. intros b Hb.
  apply list_elem_of_In, filter_In in Hb as [Hb Hbint].
  apply list_elem_of_In in Hb.
  apply (He b Hb).
  eapply intersect_common_start; eauto.
Qed.

Lemma GetUsedMemRegions_spec (bound : Z) (allocs : MemAllocList)
      (li : LiveInterval.t) :
  StronglySorted compatible allocs ->
  Forall (fun e => region_within bound (region_of e)) allocs ->
  Forall (fun e => (LiveInterval.getStart (MemAllocEntry.liveIntrvl e)
                    <= LiveInterval.getStart li)%nat) allocs ->
  StronglySorted
    (fun a b => MemRegion.start a + MemRegion.size a <= MemRegion.start b)
    (GetUsedMemRegions allocs li) /\
  Forall (region_within bound) (GetUsedMemRegions allocs li) /\
  (forall e, In e allocs ->
             LiveInterval.intersect (MemAllocEntry.liveIntrvl e) li = true ->
             In (region_of e) (GetUsedMemRegions allocs li)).
Proof.
  intros Hcompat Hwithin Hstart. unfold GetUsedMemRegions. cbv zeta.
  fold region_of.
  set (F := List.filter _ allocs).
  destruct (std_sort_spec
              (fun a b => MemRegion.start a + MemRegion.size a <= MemRegion.start b \/
                          MemRegion.start b + MemRegion.size b <= MemRegion.start a)
              (region_within bound) (List.map region_of F))
    as (Hd & Hw & Hs & Hin).
  - intros a b. tauto.
  - apply StronglySorted_map. now apply conflicts_disjoint.
  - apply Forall_forall. intros r Hr.
    apply list_elem_of_In, in_map_iff in Hr as (e & <- & He).
    apply filter_In in He as [He _].
    rewrite Forall_forall in Hwithin. now apply Hwithin, list_elem_of_In.
  - repeat split.
    + eapply chain_of_sorted_disjoint; eauto.
    + exact Hw.
    + intros e He Hint. apply Hin. apply List.in_map.
      apply filter_In. now split.
Qed.

(** *** The allocator keeps the entries compatible *)

Lemma total_required_nonneg (vm : ValMemSizeMap) (lives : list LiveInterval.t) :
  sizes_positive vm lives -> 0 <= total_required vm lives.
Proof.
  induction 1 as [| li lives Hli _ IH]; cbn [total_required fold_right]; [lia |].
  fold (total_required vm lives).
  destruct (vm !! LiveInterval.getValue li) as [sz |]; [| exact IH].
  specialize (Hli sz eq_refl). lia.
Qed.

Lemma alloc_step_compatible (vm : ValMemSizeMap) (bound : Z)
      (allocs : MemAllocList) (minSize : Z) (li : LiveInterval.t) (sz : Z) :
  vm !! LiveInterval.getValue li = Some sz ->
  0 < sz -> 0 <= bound -> bound + sz < 2 ^ 64 ->
  StronglySorted compatible allocs ->
  Forall (fun e => region_within bound (region_of e)) allocs ->
  Forall (fun e => (LiveInterval.getStart (MemAllocEntry.liveIntrvl e)
                    <= LiveInterval.getStart li)%nat) allocs ->
  exists c,
    fst (alloc_step vm (allocs, minSize) li)
    = allocs ++ [MemAllocEntry.mk c sz li] /\
    StronglySorted compatible (allocs ++ [MemAllocEntry.mk c sz li]) /\
    Forall (fun e => region_within (bound + sz) (region_of e))
           (allocs ++ [MemAllocEntry.mk c sz li]).
Proof.
  intros Hsz Hpos Hb Hfit Hcompat Hwithin Hstart.
  unfold alloc_step. rewrite Hsz. cbn [fst].
  assert (Hw : wrap64 sz = sz) by (unfold wrap64; apply Z.mod_small; lia).
  rewrite Hw.
  destruct (GetUsedMemRegions_spec bound allocs li Hcompat Hwithin Hstart)
    as (Hchain & Hreg & Hin).
  destruct (scan_conflicts_free bound sz Hpos Hfit (GetUsedMemRegions allocs li) 0
              Hchain Hreg ltac:(lia)) as [Hc Hfree].
  { eapply Forall_impl; [exact Hreg |]. unfold region_within. cbn. intros; lia. }
  set (c := scan_conflicts (GetUsedMemRegions allocs li) 0 sz) in *.
  exists c. split; [reflexivity |]. split.
  - apply StronglySorted_app. repeat split; [| exact Hcompat | repeat constructor].
    intros a b Ha Hb'. apply list_elem_of_In in Hb'. destruct Hb' as [<- | []].
    intros Hint. cbn [MemAllocEntry.liveIntrvl MemAllocEntry.startAddr
                      MemAllocEntry.size] in *.
    apply list_elem_of_In in Ha.
    specialize (Hin a Ha Hint).
    rewrite List.Forall_forall in Hfree. specialize (Hfree _ Hin).
    cbn [region_of MemRegion.start MemRegion.size] in Hfree. lia.
  - apply Forall_app. split.
    + eapply Forall_impl; [exact Hwithin |].
      unfold region_within. cbn. intros; lia.
    + repeat constructor; cbn; lia.
Qed.

Lemma alloc_fold_compatible (vm : ValMemSizeMap) (lives : list LiveInterval.t) :
  forall (bound : Z) (allocs : MemAllocList) (minSize : Z),
    starts_ordered lives ->
    sizes_positive vm lives ->
    0 <= bound -> bound + total_required vm lives < 2 ^ 64 ->
    StronglySorted compatible allocs ->
    Forall (fun e => region_within bound (region_of e)) allocs ->
    Forall (fun li =>
              Forall (fun e =>
                        (LiveInterval.getStart (MemAllocEntry.liveIntrvl e)
                         <= LiveInterval.getStart li)%nat) allocs) lives ->
    StronglySorted compatible
      (fst (fold_left (alloc_step vm) lives (allocs, minSize))).
Proof.
  induction lives as [| li lives IH];
    intros bound allocs minSize Hord Hpos Hb Hfit Hcompat Hwithin Hstart;
    cbn [fold_left]; [exact Hcompat |].
  apply StronglySorted_cons in Hord as [Hli Hord].
  apply Forall_cons_1 in Hpos as [Hpli Hpos].
  apply Forall_cons_1 in Hstart as [Hsli Hstart].
  pose proof (total_required_nonneg vm lives Hpos) as Hnn.
  cbn [total_required fold_right] in Hfit. fold (total_required vm lives) in Hfit.
  destruct (vm !! LiveInterval.getValue li) as [sz |] eqn:Hsz.
  - specialize (Hpli sz eq_refl).
    destruct (alloc_step_compatible vm bound allocs minSize li sz)
      as (c & Hstep & Hcompat' & Hwithin'); try assumption; try lia.
    destruct (alloc_step vm (allocs, minSize) li) as [allocs' minSize'].
    cbn [fst] in Hstep. subst allocs'.
    apply (IH (bound + sz)); try assumption; try lia.
    rewrite Forall_forall in Hstart, Hli. apply Forall_forall. intros li' Hli'.
    apply Forall_app. split; [now apply Hstart |].
    repeat constructor. cbn [MemAllocEntry.liveIntrvl]. now apply Hli.
  - rewrite alloc_step_unmapped by (unfold in_map; now rewrite Hsz).
    now apply (IH bound).
Qed.

Lemma pairwise_lookup {A : Type} (R : A -> A -> Prop) (l : list A) :
  (forall a b, R a b -> R b a) ->
  StronglySorted R l ->
  forall (i j : nat) (a b : A),
    i <> j -> l !! i = Some a -> l !! j = Some b -> R a b.
Proof.
  intros Hsym. induction 1 as [| x l Hl IH Hx]; intros i j a b Hij Hi Hj.
  - discriminate.
  - rewrite Forall_forall in Hx.
    destruct i as [| i], j as [| j]; cbn in Hi, Hj; try lia.
    + injection Hi as <-. apply Hx. eapply list_elem_of_lookup_2; eauto.
    + injection Hj as <-. apply Hsym, Hx. eapply list_elem_of_lookup_2; eauto.
    + apply (IH i j); auto.
Qed.

(** X10: for live intervals supplied in order of their first instruction,
    with positive sizes whose sum fits [size_t], the entries the allocator
    returns satisfy the no-overlap invariant. *)
Theorem allocByLiveness_no_overlap_ordered
        (old : MemAllocList) (lives : list LiveInterval.t) (vm : ValMemSizeMap) :
  starts_ordered lives ->
  sizes_positive vm lives ->
  total_required vm lives < 2 ^ 64 ->
  no_overlap (snd (allocByLiveness old lives vm)).
Proof.
  intros Hord Hpos Hfit. rewrite allocByLiveness_unfold. cbn [snd]. unfold clear.
  assert (Hcompat : StronglySorted compatible
                      (fst (fold_left (alloc_step vm) lives ([], 0)))).
  { apply (alloc_fold_compatible vm lives 0); try assumption; try lia;
      try constructor.
    apply Forall_forall. intros li _. constructor. }
  intros i j a b Hij Hi Hj Hint [H1 H2].
  pose proof (pairwise_lookup compatible _ compatible_sym Hcompat i j a b Hij Hi Hj Hint).
  lia.
Qed.

End OrderedStarts.

(** The "simple fit" scenario: A (10 bytes, live [0, 2]), B (20 bytes, live
    [1, 3]), C (10 bytes, live [3, 4]): A at 0, B at 10, C at 0 again, peak
    30. *)
Example allocByLiveness_simple_fit :
  allocByLiveness []
    [LiveInterval.mk 0 0 2; LiveInterval.mk 1 1 3; LiveInterval.mk 2 3 4]%nat
    (<[ 0%nat := 10 ]> (<[ 1%nat := 20 ]> (<[ 2%nat := 10 ]> ∅)))
  = (30, [MemAllocEntry.mk 0 10 (LiveInterval.mk 0 0 2);
          MemAllocEntry.mk 10 20 (LiveInterval.mk 1 1 3);
          MemAllocEntry.mk 0 10 (LiveInterval.mk 2 3 4)]%nat).
Proof. vm_compute. reflexivity. Qed.

Lemma allocByLiveness_no_overlap_ordered_example :
  no_overlap
    (snd (allocByLiveness []
            [LiveInterval.mk 0 0 2; LiveInterval.mk 1 1 3; LiveInterval.mk 2 3 4]%nat
            (<[ 0%nat := 10 ]> (<[ 1%nat := 20 ]> (<[ 2%nat := 10 ]> ∅))))).
Proof.
  apply allocByLiveness_no_overlap_ordered.
  - repeat constructor.
  - repeat constructor; intros sz [= <-]; reflexivity.
  - reflexivity.
Defined.

Lemma max_end_range (l : MemAllocList) : 0 <= max_end l < 2 ^ 64.
Proof.
  induction l as [| e l IH]; cbn [max_end fold_right]; [lia |].
  fold (max_end l).
  pose proof (Z.mod_pos_bound (MemAllocEntry.startAddr e + MemAllocEntry.size e)
                (2 ^ 64) ltac:(lia)) as He.
  unfold entry_end, size_add, wrap64. lia.
Qed.

Lemma to_int64_small (z : Z) : 0 <= z < 2 ^ 63 -> to_int64 z = z.
Proof.
  intros Hz. unfold to_int64, wrap64. cbv zeta.
  rewrite Z.mod_small by lia.
  destruct (Z.ltb_spec z (2 ^ 63)); lia.
Qed.

(** ** One iteration of the planner *)

Section PassProperties.
Context {M : Type} `{SplitGraphManager M}.
Context {sorter : StdSort}.
Variable livesInfo : list LiveInterval.t.

Lemma allocStep_eq (g : SplitGraph) (s : State M) :
  allocStep livesInfo g s
  = (peak_of livesInfo (sgMgr s) g,
     mkState (snd (allocByLiveness [] livesInfo (getMemUsage (sgMgr s) g)))
       (sgMgr s) (worklist s)
       (trace s ++ [GetMemUsage g;
                    AllocByLiveness (peak_of livesInfo (sgMgr s) g)])).
Proof.
  unfold allocStep, peak_of.
  rewrite (allocByLiveness_old (m_MemAllocList s) []).
  now destruct (allocByLiveness [] livesInfo (getMemUsage (sgMgr s) g)).
Qed.

Lemma peak_of_range (m : M) (g : SplitGraph) :
  0 <= peak_of livesInfo m g < 2 ^ 64.
Proof. unfold peak_of. rewrite allocByLiveness_peak. apply max_end_range. Qed.

Lemma plannerIter_eq (localMemSize : Z) (g : SplitGraph) (s : State M)
      (prevMinSize : Z) :
  plannerIter livesInfo localMemSize g s prevMinSize
  = let minSize := peak_of livesInfo (sgMgr s) g in
    let s1 := snd (allocStep livesInfo g s) in
    if minSize <? localMemSize then Break Accepted s1
    else if negb (prevMinSize =? 0) && exceeds_threshold minSize prevMinSize
         then splitStep g s1
         else shrinkStep g s1 minSize.
Proof. unfold plannerIter. now rewrite allocStep_eq. Qed.

Lemma splitStep_cases (g : SplitGraph) (s : State M) :
  let m2 := fst (splitNewSubGraph (resetToOrigSize (sgMgr s) g) g) in
  let r := snd (splitNewSubGraph (resetToOrigSize (sgMgr s) g) g) in
  let tr := trace s ++ [ResetToOrigSize g; SplitNewSubGraph g r] in
  splitStep g s
  = match r with
    | Some g' => Continue (mkState (m_MemAllocList s) m2 (g' :: worklist s) tr) 0
    | None => Break Abandoned
                (mkState (m_MemAllocList s) m2 (worklist s)
                   (tr ++ [Errs msg_unable]))
    end.
Proof.
  unfold splitStep.
  now destruct (splitNewSubGraph (resetToOrigSize (sgMgr s) g) g) as [m2 [g' |]].
Qed.

(** C6: without a backend [runOnModule] returns [kPassFailure] at once,
    whatever the fuel: the only event is the error message (the scheduler,
    the liveness analysis and the allocator are not run) and the list of
    allocation entries is left as it was, in particular empty for a pass
    that has not allocated before. *)
Theorem runOnModule_without_backend
        (fuel : nat) (newSgMgr : DLATargetBackend -> M)
        (old : MemAllocList) (tr0 : list Event) :
  runOnModule livesInfo fuel None newSgMgr old tr0
  = Some (mkResult kPassFailure old (tr0 ++ [Errs msg_no_backend])) /\
  runOnModule livesInfo fuel None newSgMgr [] tr0
  = Some (mkResult kPassFailure [] (tr0 ++ [Errs msg_no_backend])).
Proof. split; reflexivity. Qed.

(** C4: the peak returned by the allocator is the largest end address
    [startAddr + size] (in [size_t] arithmetic) over the entries it
    produced, and an iteration of the planner leaves the loop as accepted,
    keeping these entries, exactly when that peak is strictly below the
    budget. *)
Theorem peak_is_max_end_and_accepted_iff_below_budget
        (old : MemAllocList) (lives : list LiveInterval.t) (vm : ValMemSizeMap)
        (localMemSize : Z) (g : SplitGraph) (s : State M) (prevMinSize : Z) :
  fst (allocByLiveness old lives vm)
  = max_end (snd (allocByLiveness old lives vm)) /\
  ((exists s', plannerIter livesInfo localMemSize g s prevMinSize
               = Break Accepted s')
   <-> peak_of livesInfo (sgMgr s) g < localMemSize) /\
  (peak_of livesInfo (sgMgr s) g < localMemSize ->
   plannerIter livesInfo localMemSize g s prevMinSize
   = Break Accepted (snd (allocStep livesInfo g s)) /\
   peak_of livesInfo (sgMgr s) g
   = max_end (m_MemAllocList (snd (allocStep livesInfo g s)))).
Proof.
  split; [apply allocByLiveness_peak |].
  rewrite plannerIter_eq. cbv zeta.
  destruct (Z.ltb_spec (peak_of livesInfo (sgMgr s) g) localMemSize) as [Hlt | Hge].
  - split; [split; eauto |].
    intros _. split; [reflexivity |].
    rewrite allocStep_eq. cbn [snd m_MemAllocList].
    apply allocByLiveness_peak.
  - split; [| lia].
    split; [| lia]. intros [s' Hs'].
    destruct (negb (prevMinSize =? 0) &&
              exceeds_threshold (peak_of livesInfo (sgMgr s) g) prevMinSize).
    + rewrite splitStep_cases in Hs'. cbv zeta in Hs'.
      destruct (snd (splitNewSubGraph _ g)); discriminate.
    + discriminate.
Qed.
End PassProperties.

(** ** Single-precision facts

    What the proofs need about the binary32 operations of [SpecFloat]: the
    right shift [shr] divides the mantissa by a power of two, rounding keeps
    a positive mantissa positive and in range, so that the conversion of a
    positive 64-bit integer is a finite positive number, and a finite
    number divided by itself is 1. *)

Lemma digits2_pos_bounds (p : positive) :
  2 ^ (Zpos (digits2_pos p) - 1) <= Zpos p < 2 ^ Zpos (digits2_pos p).
Proof.
  induction p as [p IH | p IH |]; cbn [digits2_pos].
  - rewrite Pos2Z.inj_succ.
    replace (Z.succ (Zpos (digits2_pos p)) - 1) with (Z.succ (Zpos (digits2_pos p) - 1)) by lia.
    rewrite !Z.pow_succ_r by lia. lia.
  - rewrite Pos2Z.inj_succ.
    replace (Z.succ (Zpos (digits2_pos p)) - 1) with (Z.succ (Zpos (digits2_pos p) - 1)) by lia.
    rewrite !Z.pow_succ_r by lia. lia.
  - cbn. lia.
Qed.

Lemma shr_1_m (r : shr_record) :
  0 <= shr_m r -> shr_m (shr_1 r) = shr_m r / 2.
Proof.
  destruct r as [m b s]; cbn [shr_m].
  destruct m as [| [p | p |] | p]; intros Hm; cbn [shr_1 shr_m]; try lia.
  - reflexivity.
  - apply Z.div_unique with 1; lia.
  - apply Z.div_unique with 0; lia.
  - reflexivity.
Qed.

Lemma iter_shr_1_m (n : positive) : forall r,
  0 <= shr_m r -> shr_m (SpecFloat.iter_pos shr_1 n r) = shr_m r / 2 ^ Zpos n.
Proof.
  assert (Hnn : forall r, 0 <= shr_m r -> 0 <= shr_m (shr_1 r)).
  { intros r Hr. rewrite shr_1_m by assumption. apply Z.div_pos; lia. }
  induction n as [n IH | n IH |]; intros r Hr; cbn [SpecFloat.iter_pos].
  - assert (H1 := Hnn r Hr).
    assert (H2 : 0 <= shr_m (SpecFloat.iter_pos shr_1 n (shr_1 r))).
    { rewrite IH by assumption. apply Z.div_pos; lia. }
    rewrite IH, IH, shr_1_m by assumption.
    rewrite !Z.div_div by lia.
    f_equal. replace (Z.pos n~1) with (Z.pos n + Z.pos n + 1) by lia.
    rewrite !Z.pow_add_r by lia. change (2 ^ 1) with 2. ring.
  - assert (H2 : 0 <= shr_m (SpecFloat.iter_pos shr_1 n r)).
    { rewrite IH by assumption. apply Z.div_pos; lia. }
    rewrite IH, IH by assumption.
    rewrite !Z.div_div by lia.
    f_equal. replace (Z.pos n~0) with (Z.pos n + Z.pos n) by lia.
    rewrite Z.pow_add_r by lia. ring.
  - rewrite shr_1_m by assumption. reflexivity.
Qed.

Lemma shr_record_of_loc_m (m : Z) (l : location) :
  shr_m (shr_record_of_loc m l) = m.
Proof. destruct l as [| []]; reflexivity. Qed.

Lemma shr_spec (r : shr_record) (e n : Z) :
  1 <= shr_m r -> (0 < n -> 2 ^ n <= shr_m r) ->
  1 <= shr_m (fst (shr r e n)) /\
  shr_m (fst (shr r e n)) = shr_m r / 2 ^ Z.max n 0 /\
  snd (shr r e n) = e + Z.max n 0.
Proof.
  intros Hm Hn. destruct n as [| n | n]; cbn [shr fst snd].
  - cbn. rewrite Z.div_1_r. lia.
  - rewrite iter_shr_1_m by lia.
    replace (Z.max (Z.pos n) 0) with (Z.pos n) by lia.
    repeat split; try lia.
    apply Z.div_le_lower_bound; [apply Z.pow_pos_nonneg; lia|].
    specialize (Hn ltac:(lia)). lia.
  - cbn. rewrite Z.div_1_r. lia.
Qed.

Lemma round_nearest_even_range (m : Z) (l : location) :
  m <= round_nearest_even m l <= m + 1.
Proof.
  destruct l as [| []]; cbn [round_nearest_even]; try lia.
  destruct (Z.even m); lia.
Qed.

Lemma pow2_le_of_digits (p : positive) (n : Z) :
  n <= Zpos (digits2_pos p) - 1 -> 0 <= n -> 2 ^ n <= Zpos p.
Proof.
  intros Hn H0. destruct (digits2_pos_bounds p) as [Hlo _].
  eapply Z.le_trans; [|exact Hlo]. apply Z.pow_le_mono_r; lia.
Qed.

Lemma digits_le_of_lt_pow2 (p : positive) (k : Z) :
  0 <= k -> Zpos p < 2 ^ k -> Zpos (digits2_pos p) <= k.
Proof.
  intros Hk Hp. destruct (digits2_pos_bounds p) as [Hlo _].
  assert (H : 2 ^ (Zpos (digits2_pos p) - 1) < 2 ^ k) by lia.
  apply Z.pow_lt_mono_r_iff in H; lia.
Qed.

Lemma binary_round_aux_finite (sx : bool) (p : positive) (ex : Z) (lx : location) :
  -125 <= ex <= 100 -> Zpos (digits2_pos p) + ex <= 127 ->
  exists m e, binary_round_aux 24 128 sx (Zpos p) ex lx = S754_finite sx m e.
Proof.
  intros Hex Hd. unfold binary_round_aux, shr_fexp.
  set (d := Zpos (digits2_pos p)) in *.
  cbn [Zdigits2]. fold d.
  set (n1 := fexp 24 128 (d + ex) - ex).
  assert (Hn1 : n1 = d - 24) by (unfold n1, fexp, emin; lia).
  destruct (digits2_pos_bounds p) as [Hlo Hhi]. fold d in Hlo, Hhi.
  pose proof (shr_spec (shr_record_of_loc (Zpos p) lx) ex n1) as S1.
  rewrite shr_record_of_loc_m in S1.
  destruct S1 as (S1a & S1b & S1c); [lia | |].
  { intros Hpos. apply pow2_le_of_digits; fold d; lia. }
  destruct (shr (shr_record_of_loc (Z.pos p) lx) ex n1) as [mrs' e'].
  cbn [fst snd] in S1a, S1b, S1c.
  assert (Hm1 : shr_m mrs' < 2 ^ 24).
  { rewrite S1b. apply Z.div_lt_upper_bound; [apply Z.pow_pos_nonneg; lia|].
    rewrite <- Z.pow_add_r by lia.
    eapply Z.lt_le_trans; [exact Hhi|]. apply Z.pow_le_mono_r; lia. }
  pose proof (round_nearest_even_range (shr_m mrs') (loc_of_shr_record mrs')) as R.
  set (m2 := round_nearest_even (shr_m mrs') (loc_of_shr_record mrs')) in *.
  destruct m2 as [| q | q] eqn:Em2; try lia.
  cbn [Zdigits2].
  set (d2 := Zpos (digits2_pos q)).
  assert (Hd2 : d2 <= 25).
  { apply digits_le_of_lt_pow2; [lia|]. change (2 ^ 25) with (2 * 2 ^ 24). lia. }
  set (n2 := fexp 24 128 (d2 + e') - e').
  assert (Hn2 : n2 = d2 - 24) by (unfold n2, fexp, emin; lia).
  pose proof (shr_spec (shr_record_of_loc (Zpos q) loc_Exact) e' n2) as S2.
  rewrite shr_record_of_loc_m in S2.
  destruct S2 as (S2a & S2b & S2c); [lia | |].
  { intros Hpos. apply pow2_le_of_digits; fold d2; lia. }
  destruct (shr (shr_record_of_loc (Z.pos q) loc_Exact) e' n2) as [mrs'' e''].
  cbn [fst snd] in S2a, S2b, S2c.
  destruct (shr_m mrs'') as [| m3 | m3]; try lia.
  replace (e'' <=? 128 - 24) with true by (symmetry; apply Z.leb_le; lia).
  eauto.
Qed.

Lemma digits2_pos_iter_xO (k p : positive) :
  Zpos (digits2_pos (Pos.iter xO p k)) = Zpos (digits2_pos p) + Zpos k.
Proof.
  revert p. induction k using Pos.peano_ind; intros p.
  - change (Pos.iter xO p 1) with (xO p). cbn [digits2_pos]. lia.
  - rewrite Pos.iter_succ. cbn [digits2_pos]. rewrite Pos2Z.inj_succ, IHk. lia.
Qed.

Lemma float_of_Z_finite (z : Z) :
  0 < z < 2 ^ 64 -> exists m e, float_of_Z z = S754_finite false m e.
Proof.
  intros Hz. destruct z as [| p | p]; try lia.
  unfold float_of_Z, binary_normalize, binary_round, shl_align.
  set (d := Zpos (digits2_pos p)).
  assert (Hd : d <= 64) by (apply digits_le_of_lt_pow2; lia).
  assert (Hf : fexp 24 128 (d + 0) = d - 24) by (unfold fexp, emin; lia).
  rewrite Hf.
  destruct (d - 24 - 0) as [| k | k] eqn:Ek.
  - apply binary_round_aux_finite; fold d; lia.
  - apply binary_round_aux_finite; fold d; lia.
  - apply binary_round_aux_finite; [lia|].
    rewrite digits2_pos_iter_xO. fold d. lia.
Qed.

Lemma SFdiv_self (m : positive) (e : Z) :
  SFdiv 24 128 (S754_finite false m e) (S754_finite false m e)
  = S754_finite false 8388608 (-23).
Proof.
  unfold SFdiv, SFdiv_core_binary.
  replace (Zdigits2 (Z.pos m) + e - (Zdigits2 (Z.pos m) + e)) with 0 by lia.
  replace (e - e) with 0 by lia.
  change (Z.min (fexp 24 128 0) 0) with (-24).
  change (0 - -24) with 24.
  cbv iota beta.
  rewrite Z.shiftl_mul_pow2 by lia.
  assert (Hq : Z.div_eucl (Z.pos m * 2 ^ 24) (Z.pos m) = (2 ^ 24, 0)).
  { pose proof (Z.div_eucl_eq (Z.pos m * 2 ^ 24) (Z.pos m) ltac:(lia)) as E.
    pose proof (Z.mod_pos_bound (Z.pos m * 2 ^ 24) (Z.pos m) ltac:(lia)) as B.
    unfold Z.modulo in B.
    destruct (Z.div_eucl (Z.pos m * 2 ^ 24) (Z.pos m)) as [q r].
    assert (q = 2 ^ 24) by nia. assert (r = 0) by nia. congruence. }
  rewrite Hq.
  assert (Hl : new_location (Z.pos m) 0 = loc_Exact).
  { unfold new_location, new_location_even, new_location_odd.
    destruct (Z.even (Z.pos m)); reflexivity. }
  rewrite Hl. reflexivity.
Qed.

Lemma exceeds_threshold_same (z : Z) :
  0 < z < 2 ^ 64 -> exceeds_threshold z z = true.
Proof.
  intros Hz. unfold exceeds_threshold.
  destruct (float_of_Z_finite z Hz) as (m & e & ->).
  rewrite SFdiv_self. reflexivity.
Qed.

(** *** Exactness below 2^24 *)

Lemma digits_eq_of_bounds (p : positive) (k : Z) :
  2 ^ (k - 1) <= Zpos p < 2 ^ k -> 1 <= k -> Zpos (digits2_pos p) = k.
Proof.
  intros [Hlo Hhi] Hk. destruct (digits2_pos_bounds p) as [Dlo Dhi].
  assert (H1 : Zpos (digits2_pos p) <= k) by (apply digits_le_of_lt_pow2; lia).
  assert (H2 : 2 ^ (k - 1) < 2 ^ Zpos (digits2_pos p)) by lia.
  apply Z.pow_lt_mono_r_iff in H2; lia.
Qed.

Lemma loc_of_shr_record_of_loc (m : Z) (l : location) :
  loc_of_shr_record (shr_record_of_loc m l) = l.
Proof. destruct l as [| []]; reflexivity. Qed.

Lemma pos_iter_xO_value (k p : positive) :
  Zpos (Pos.iter xO p k) = Zpos p * 2 ^ Zpos k.
Proof.
  revert p. induction k using Pos.peano_ind; intros p.
  - change (Pos.iter xO p 1) with (xO p). lia.
  - rewrite Pos.iter_succ, Pos2Z.inj_succ, Z.pow_succ_r by lia.
    rewrite Pos2Z.inj_xO, IHk. ring.
Qed.

Lemma finish_spec (sx : bool) (m2 e : Z) :
  2 ^ 23 <= m2 <= 2 ^ 24 -> -125 <= e <= 102 ->
  finish sx m2 e
  = if m2 =? 2 ^ 24 then S754_finite sx 8388608 (e + 1)
    else S754_finite sx (Z.to_pos m2) e.
Proof.
  intros Hm He. unfold finish, shr_fexp.
  destruct (Z.eqb_spec m2 (2 ^ 24)) as [-> | Hne].
  - change (2 ^ 24) with 16777216.
    change (Zdigits2 16777216) with 25.
    replace (fexp 24 128 (25 + e) - e) with 1 by (unfold fexp, emin; lia).
    cbn [shr shr_record_of_loc SpecFloat.iter_pos shr_1 shr_m].
    replace (e + 1 <=? 128 - 24) with true by (symmetry; apply Z.leb_le; lia).
    reflexivity.
  - destruct m2 as [| q | q]; try lia. cbn [Zdigits2].
    rewrite (digits_eq_of_bounds q 24) by (change (2 ^ (24 - 1)) with (2 ^ 23); lia).
    replace (fexp 24 128 (24 + e) - e) with 0 by (unfold fexp, emin; lia).
    cbn [shr shr_record_of_loc shr_m].
    replace (e <=? 128 - 24) with true by (symmetry; apply Z.leb_le; lia).
    reflexivity.
Qed.

Lemma binary_round_aux_24 (sx : bool) (q : positive) (e : Z) (l : location) :
  2 ^ 23 <= Zpos q < 2 ^ 24 -> -125 <= e <= 102 ->
  binary_round_aux 24 128 sx (Zpos q) e l
  = finish sx (round_nearest_even (Zpos q) l) e.
Proof.
  intros Hq He. unfold binary_round_aux, finish, shr_fexp at 1.
  cbn [Zdigits2].
  rewrite (digits_eq_of_bounds q 24) by (change (2 ^ (24 - 1)) with (2 ^ 23); lia).
  replace (fexp 24 128 (24 + e) - e) with 0 by (unfold fexp, emin; lia).
  cbn [shr]. rewrite shr_record_of_loc_m, loc_of_shr_record_of_loc.
  reflexivity.
Qed.

Lemma binary_round_aux_25 (sx : bool) (q : positive) (e : Z) (l : location) :
  2 ^ 24 <= Zpos q < 2 ^ 25 -> -125 <= e <= 101 ->
  binary_round_aux 24 128 sx (Zpos q) e l
  = finish sx
      (round_nearest_even (Zpos q / 2)
         (loc_of_shr_record (shr_1 (shr_record_of_loc (Zpos q) l))))
      (e + 1).
Proof.
  intros Hq He. unfold binary_round_aux, finish, shr_fexp at 1.
  cbn [Zdigits2].
  rewrite (digits_eq_of_bounds q 25) by (change (2 ^ (25 - 1)) with (2 ^ 24); lia).
  replace (fexp 24 128 (25 + e) - e) with 1 by (unfold fexp, emin; lia).
  cbn [shr SpecFloat.iter_pos].
  rewrite shr_1_m by (rewrite shr_record_of_loc_m; lia).
  rewrite shr_record_of_loc_m. reflexivity.
Qed.

Lemma binary_round_aux_exact (sx : bool) (m : positive) (e : Z) :
  2 ^ 23 <= Zpos m < 2 ^ 24 -> -125 <= e <= 102 ->
  binary_round_aux 24 128 sx (Zpos m) e loc_Exact = S754_finite sx m e.
Proof.
  intros Hm He. rewrite binary_round_aux_24 by assumption.
  cbn [round_nearest_even]. rewrite finish_spec by lia.
  destruct (Z.eqb_spec (Zpos m) (2 ^ 24)); [lia | reflexivity].
Qed.

(** The conversion of an integer below 2^24 is exact. *)
Lemma float_of_Z_small (z : Z) :
  0 < z < 2 ^ 24 ->
  exists (m : positive) (a : Z),
    float_of_Z z = S754_finite false m (- a) /\
    0 <= a <= 23 /\ Zpos m = z * 2 ^ a /\ 2 ^ 23 <= Zpos m < 2 ^ 24.
Proof.
  intros Hz. destruct z as [| p | p]; try lia.
  unfold float_of_Z, binary_normalize, binary_round, shl_align.
  set (d := Zpos (digits2_pos p)).
  destruct (digits2_pos_bounds p) as [Hlo Hhi]. fold d in Hlo, Hhi.
  assert (Hd : 1 <= d <= 24).
  { split; [unfold d; lia | apply digits_le_of_lt_pow2; lia]. }
  assert (Hf : fexp 24 128 (d + 0) = d - 24) by (unfold fexp, emin; lia).
  rewrite Hf.
  destruct (d - 24 - 0) as [| k | k] eqn:Ek; try lia.
  - assert (d = 24) by lia. subst d.
    replace (Z.pos (digits2_pos p)) with 24 in * by lia.
    exists p, 0. change (2 ^ (24 - 1)) with (2 ^ 23) in Hlo.
    rewrite binary_round_aux_exact by lia.
    repeat split; try lia.
  - assert (Hk : Zpos k = 24 - d) by lia.
    assert (Hval : Zpos (Pos.iter xO p k) = Zpos p * 2 ^ (24 - d))
      by (rewrite pos_iter_xO_value, Hk; reflexivity).
    assert (Hb : 2 ^ 23 <= Zpos (Pos.iter xO p k) < 2 ^ 24).
    { rewrite Hval. split.
      - replace 23 with ((d - 1) + (24 - d)) by lia.
        rewrite Z.pow_add_r by lia. apply Z.mul_le_mono_nonneg_r; [|exact Hlo].
        apply Z.pow_nonneg; lia.
      - replace 24 with (d + (24 - d)) at 2 by lia.
        rewrite Z.pow_add_r by lia. apply Z.mul_lt_mono_pos_r; [|exact Hhi].
        apply Z.pow_pos_nonneg; lia. }
    exists (Pos.iter xO p k), (24 - d).
    rewrite binary_round_aux_exact by lia.
    replace (- (24 - d)) with (d - 24) by lia.
    repeat split; try lia.
Qed.

(** [SpecFloat] is written with the integer operations of the core
    library; the lemmas on integers are stated on those of [BinInt]. *)
Ltac binint :=
  repeat match goal with
    | |- context [IntDef.Z.eqb ?a ?b] => change (IntDef.Z.eqb a b) with (Z.eqb a b)
    | |- context [IntDef.Z.compare ?a ?b] =>
        change (IntDef.Z.compare a b) with (Z.compare a b)
    | |- context [IntDef.Z.mul ?a ?b] => change (IntDef.Z.mul a b) with (Z.mul a b)
    | |- context [IntDef.Z.add ?a ?b] => change (IntDef.Z.add a b) with (Z.add a b)
    | |- context [IntDef.Z.even ?a] => change (IntDef.Z.even a) with (Z.even a)
    end.

Lemma new_location_spec (m r : Z) :
  0 < m -> 0 <= r < m ->
  new_location m r
  = if r =? 0 then loc_Exact else loc_Inexact (2 * r ?= m).
Proof.
  intros Hm Hr. unfold new_location, new_location_even, new_location_odd.
  change (IntDef.Z.even m) with (Z.even m).
  destruct (Z.even m) eqn:Hev; cbv beta; binint; [reflexivity |].
  destruct (r =? 0); [reflexivity |]. f_equal.
  assert (Hodd : Z.odd m = true) by (rewrite <- Z.negb_even, Hev; reflexivity).
  apply Z.odd_spec in Hodd as [k Hk].
  destruct (Z.compare_spec (2 * r + 1) m), (Z.compare_spec (2 * r) m);
    try reflexivity; lia.
Qed.

Lemma div_eucl_div_mod (a b : Z) : Z.div_eucl a b = (a / b, a mod b).
Proof. unfold Z.div, Z.modulo. now destruct (Z.div_eucl a b). Qed.

(** The quotient of two normalised numbers is the rounding of
    [m1 * 2^24 / m2]. *)
Lemma SFdiv_normal (m1 m2 : positive) (e1 e2 : Z) :
  2 ^ 23 <= Zpos m1 < 2 ^ 24 -> 2 ^ 23 <= Zpos m2 < 2 ^ 24 ->
  -23 <= e1 <= 0 -> -23 <= e2 <= 0 ->
  SFdiv 24 128 (S754_finite false m1 e1) (S754_finite false m2 e2)
  = binary_round_aux 24 128 false
      (Zpos m1 * 2 ^ 24 / Zpos m2) (e1 - e2 - 24)
      (if (Zpos m1 * 2 ^ 24) mod Zpos m2 =? 0 then loc_Exact
       else loc_Inexact (2 * ((Zpos m1 * 2 ^ 24) mod Zpos m2) ?= Zpos m2)).
Proof.
  intros H1 H2 He1 He2. unfold SFdiv, SFdiv_core_binary. cbn [Zdigits2 xorb].
  rewrite (digits_eq_of_bounds m1 24), (digits_eq_of_bounds m2 24)
    by (change (2 ^ (24 - 1)) with (2 ^ 23); lia).
  replace (Z.min (fexp 24 128 (24 + e1 - (24 + e2))) (e1 - e2))
    with (e1 - e2 - 24) by (unfold fexp, emin; lia).
  replace (e1 - e2 - (e1 - e2 - 24)) with 24 by lia.
  cbv iota. rewrite Z.shiftl_mul_pow2 by lia.
  rewrite div_eucl_div_mod.
  rewrite new_location_spec; [reflexivity | lia |].
  apply Z.mod_pos_bound. lia.
Qed.

Lemma SFltb_threshold_finite (m : positive) (e : Z) :
  SFltb threshold (S754_finite false m e)
  = match -24 ?= e with
    | Lt => true
    | Eq => 15099494 <? Zpos m
    | Gt => false
    end.
Proof.
  unfold SFltb, SFcompare, threshold.
  change (IntDef.Z.compare (-24) e) with (-24 ?= e).
  destruct (-24 ?= e); reflexivity.
Qed.

Lemma exceeds_finish (m e : Z) :
  2 ^ 23 <= m <= 2 ^ 24 -> -125 <= e <= 102 ->
  SFltb threshold (finish false m e)
  = (-24 <? e) || ((e =? -24) && (15099494 <? m)).
Proof.
  intros Hm He. rewrite finish_spec by assumption.
  destruct (Z.eqb_spec m (2 ^ 24)) as [-> | Hne];
    rewrite SFltb_threshold_finite.
  - destruct (Z.compare_spec (-24) (e + 1)), (Z.ltb_spec (-24) e),
      (Z.eqb_spec e (-24)); try lia; reflexivity.
  - rewrite Z2Pos.id by lia.
    destruct (Z.compare_spec (-24) e), (Z.ltb_spec (-24) e),
      (Z.eqb_spec e (-24)); try lia; reflexivity.
Qed.

Lemma shr_1_loc (q : positive) (l : location) :
  loc_of_shr_record (shr_1 (shr_record_of_loc (Zpos q) l))
  = match Z.odd (Zpos q), l with
    | false, loc_Exact => loc_Exact
    | false, loc_Inexact _ => loc_Inexact Lt
    | true, loc_Exact => loc_Inexact Eq
    | true, loc_Inexact _ => loc_Inexact Gt
    end.
Proof. destruct q, l as [| []]; reflexivity. Qed.

Lemma pow2_gap (a b k : Z) :
  0 <= a -> 0 <= k -> a + k <= b -> 2 ^ k * 2 ^ a <= 2 ^ b.
Proof.
  intros Ha Hk Hab. rewrite <- Z.pow_add_r by lia.
  apply Z.pow_le_mono_r; lia.
Qed.

Lemma ratio_test_normal (m1 m2 : positive) (a b : Z) :
  2 ^ 23 <= Zpos m1 < 2 ^ 24 -> 2 ^ 23 <= Zpos m2 < 2 ^ 24 ->
  0 <= a <= 23 -> 0 <= b <= 23 ->
  SFltb threshold
    (SFdiv 24 128 (S754_finite false m1 (- a)) (S754_finite false m2 (- b)))
  = (9 * (Zpos m2 * 2 ^ a) <? 10 * (Zpos m1 * 2 ^ b)).
Proof.
  intros H1 H2 Ha Hb. rewrite SFdiv_normal by lia.
  change (2 ^ 23) with 8388608 in *. change (2 ^ 24) with 16777216 in *.
  pose proof (Z.div_mod (Zpos m1 * 16777216) (Zpos m2) ltac:(lia)) as Hdm.
  pose proof (Z.mod_pos_bound (Zpos m1 * 16777216) (Zpos m2) ltac:(lia)) as HR.
  remember (Zpos m1 * 16777216 / Zpos m2) as Q eqn:EQ.
  remember ((Zpos m1 * 16777216) mod Zpos m2) as R eqn:ER.
  clear EQ ER.
  assert (HA : 0 < 2 ^ a) by (apply Z.pow_pos_nonneg; lia).
  assert (HB : 0 < 2 ^ b) by (apply Z.pow_pos_nonneg; lia).
  set (e' := - a - - b - 24).
  set (loc := if R =? 0 then loc_Exact else loc_Inexact (2 * R ?= Zpos m2)).
  destruct (Z.lt_ge_cases (Zpos m1) (Zpos m2)) as [Hlt | Hge].
  - (* quotient below 1: 24 digits *)
    assert (HQ : 8388608 <= Q < 16777216) by nia.
    destruct Q as [| q | q]; try lia.
    rewrite binary_round_aux_24 by (change (2 ^ 23) with 8388608;
                                    change (2 ^ 24) with 16777216; lia).
    pose proof (round_nearest_even_range (Zpos q) loc) as Hr.
    rewrite exceeds_finish by (change (2 ^ 23) with 8388608;
                               change (2 ^ 24) with 16777216; lia).
    destruct (Z.lt_trichotomy b a) as [Hba | [Hba | Hba]].
    + (* the quotient is below 1/2 *)
      pose proof (pow2_gap b a 1 ltac:(lia) ltac:(lia) ltac:(lia)) as Hgap.
      change (2 ^ 1) with 2 in Hgap.
      replace (-24 <? e') with false by (symmetry; apply Z.ltb_ge; lia).
      replace (e' =? -24) with false by (symmetry; apply Z.eqb_neq; lia).
      symmetry. apply Z.ltb_ge. nia.
    + subst b. replace e' with (-24) by lia.
      change (-24 <? -24) with false. change (-24 =? -24) with true.
      cbn [orb andb].
      assert (Hrhs : (9 * (Zpos m2 * 2 ^ a) <? 10 * (Zpos m1 * 2 ^ a))
                     = (9 * Zpos m2 <? 10 * Zpos m1)).
      { destruct (Z.ltb_spec (9 * Zpos m2) (10 * Zpos m1));
          [apply Z.ltb_lt | apply Z.ltb_ge]; nia. }
      rewrite Hrhs. clear Hrhs.
      destruct (Z.lt_trichotomy (Zpos q) 15099494) as [Hq | [Hq | Hq]].
      * replace (15099494 <? _) with false by (symmetry; apply Z.ltb_ge; lia).
        symmetry. apply Z.ltb_ge. nia.
      * rewrite Hq in *. unfold loc, round_nearest_even.
        destruct (Z.eqb_spec R 0) as [HR0 | HR0].
        -- change (15099494 <? 15099494) with false.
           symmetry. apply Z.ltb_ge. lia.
        -- destruct (Z.compare_spec (2 * R) (Zpos m2)) as [Hc | Hc | Hc];
             vm_compute (Z.even 15099494); vm_compute (15099494 <? 15099494 + 1);
             vm_compute (15099494 <? 15099494);
             symmetry; [apply Z.ltb_ge | apply Z.ltb_ge | apply Z.ltb_lt]; lia.
      * replace (15099494 <? _) with true by (symmetry; apply Z.ltb_lt; lia).
        symmetry. apply Z.ltb_lt. nia.
    + pose proof (pow2_gap a b 1 ltac:(lia) ltac:(lia) ltac:(lia)) as Hgap.
      change (2 ^ 1) with 2 in Hgap.
      replace (-24 <? e') with true by (symmetry; apply Z.ltb_lt; lia).
      cbn [orb]. symmetry. apply Z.ltb_lt. nia.
  - (* quotient at least 1: 25 digits *)
    assert (HQ : 16777216 <= Q < 33554432) by nia.
    destruct Q as [| q | q]; try lia.
    rewrite binary_round_aux_25 by (change (2 ^ 25) with 33554432;
                                    change (2 ^ 24) with 16777216; lia).
    rewrite shr_1_loc.
    set (loc' := match Z.odd (Zpos q), loc with
                 | false, loc_Exact => loc_Exact
                 | false, loc_Inexact _ => loc_Inexact Lt
                 | true, loc_Exact => loc_Inexact Eq
                 | true, loc_Inexact _ => loc_Inexact Gt
                 end).
    pose proof (round_nearest_even_range (Zpos q / 2) loc') as Hr.
    pose proof (Z.div_mod (Zpos q) 2 ltac:(lia)) as Hq2.
    pose proof (Z.mod_pos_bound (Zpos q) 2 ltac:(lia)) as Hq2b.
    rewrite exceeds_finish by (change (2 ^ 23) with 8388608;
                               change (2 ^ 24) with 16777216; lia).
    destruct (Z.lt_trichotomy (b + 1) a) as [Hba | [Hba | Hba]].
    + pose proof (pow2_gap b a 2 ltac:(lia) ltac:(lia) ltac:(lia)) as Hgap.
      change (2 ^ 2) with 4 in Hgap.
      replace (-24 <? e' + 1) with false by (symmetry; apply Z.ltb_ge; lia).
      replace (e' + 1 =? -24) with false by (symmetry; apply Z.eqb_neq; lia).
      symmetry. apply Z.ltb_ge. nia.
    + subst a. replace (e' + 1) with (-24) by lia.
      change (-24 <? -24) with false. change (-24 =? -24) with true.
      cbn [orb andb].
      assert (Hrhs : (9 * (Zpos m2 * 2 ^ (b + 1)) <? 10 * (Zpos m1 * 2 ^ b))
                     = (9 * Zpos m2 <? 5 * Zpos m1)).
      { rewrite Z.pow_add_r by lia. change (2 ^ 1) with 2.
        destruct (Z.ltb_spec (9 * Zpos m2) (5 * Zpos m1));
          [apply Z.ltb_lt | apply Z.ltb_ge]; nia. }
      rewrite Hrhs. clear Hrhs.
      destruct (Z.lt_trichotomy (Zpos q / 2) 15099494) as [Hq | [Hq | Hq]].
      * replace (15099494 <? _) with false by (symmetry; apply Z.ltb_ge; lia).
        symmetry. apply Z.ltb_ge. nia.
      * rewrite Hq in *. unfold loc', loc, round_nearest_even.
        rewrite Zmod_odd in Hq2.
        destruct (Z.odd (Zpos q)) eqn:Hodd;
          destruct (Z.eqb_spec R 0) as [HR0 | HR0];
          vm_compute (Z.even 15099494);
          vm_compute (15099494 <? 15099494 + 1);
          vm_compute (15099494 <? 15099494);
          symmetry; first [apply Z.ltb_ge; lia | apply Z.ltb_lt; lia].
      * replace (15099494 <? _) with true by (symmetry; apply Z.ltb_lt; lia).
        symmetry. apply Z.ltb_lt. nia.
    + pose proof (pow2_gap a b 0 ltac:(lia) ltac:(lia) ltac:(lia)) as Hgap.
      change (2 ^ 0) with 1 in Hgap.
      replace (-24 <? e' + 1) with true by (symmetry; apply Z.ltb_lt; lia).
      cbn [orb]. symmetry. apply Z.ltb_lt. nia.
Qed.

(** Below 2^24 the single-precision test is the exact comparison of the
    ratio with 9/10. *)
Lemma exceeds_threshold_exact (p q : Z) :
  0 <= p < 2 ^ 24 -> 0 < q < 2 ^ 24 ->
  exceeds_threshold p q = (9 * q <? 10 * p).
Proof.
  intros Hp0 Hq. unfold exceeds_threshold.
  destruct (Z.eq_dec p 0) as [-> | Hne].
  { destruct (float_of_Z_small q Hq) as (m2 & b & -> & _).
    cbn. symmetry. apply Z.ltb_ge. lia. }
  assert (Hp : 0 < p < 2 ^ 24) by lia.
  destruct (float_of_Z_small p Hp) as (m1 & a & -> & Ha & Hm1 & Hb1).
  destruct (float_of_Z_small q Hq) as (m2 & b & -> & Hb & Hm2 & Hb2).
  rewrite ratio_test_normal by assumption.
  rewrite Hm1, Hm2.
  assert (HA : 0 < 2 ^ a) by (apply Z.pow_pos_nonneg; lia).
  assert (HB : 0 < 2 ^ b) by (apply Z.pow_pos_nonneg; lia).
  assert (HAB : 0 < 2 ^ a * 2 ^ b) by lia.
  replace (9 * (q * 2 ^ b * 2 ^ a)) with (9 * q * (2 ^ a * 2 ^ b)) by ring.
  replace (10 * (p * 2 ^ a * 2 ^ b)) with (10 * p * (2 ^ a * 2 ^ b)) by ring.
  destruct (Z.ltb_spec (9 * q) (10 * p)) as [Hlt | Hge].
  - apply Z.ltb_lt. now apply Z.mul_lt_mono_pos_r.
  - apply Z.ltb_ge. apply Z.mul_le_mono_nonneg_r; lia.
Qed.


(** ** The split decision, the reset before a split, abandonment *)

Lemma reset_before_split_snoc (tr : list Event) (e : Event) :
  reset_before_split tr ->
  (forall g r, e = SplitNewSubGraph g r ->
               exists tr', tr = tr' ++ [ResetToOrigSize g]) ->
  reset_before_split (tr ++ [e]).
Proof.
  intros Htr He pre g r post Heq.
  destruct (exists_last (l := SplitNewSubGraph g r :: post) ltac:(discriminate))
    as (body & z & Hlast).
  destruct post as [| y post].
  - apply app_inj_tail in Heq as [-> ->]. now apply (He g r).
  - destruct (exists_last (l := y :: post) ltac:(discriminate))
      as (post' & z' & Hpost).
    rewrite Hpost in Heq.
    change (pre ++ SplitNewSubGraph g r :: post' ++ [z'])
      with (pre ++ (SplitNewSubGraph g r :: post') ++ [z']) in Heq.
    rewrite app_assoc in Heq.
    apply app_inj_tail in Heq as [Heq _].
    now apply (Htr pre g r post').
Qed.

Lemma reset_before_split_app (tr ext : list Event) :
  reset_before_split tr ->
  Forall (fun e => forall g r, e <> SplitNewSubGraph g r) ext ->
  reset_before_split (tr ++ ext).
Proof.
  intros Htr Hext. revert tr Htr.
  induction Hext as [| e ext He _ IH]; intros tr Htr.
  - now rewrite app_nil_r.
  - change (e :: ext) with ([e] ++ ext). rewrite app_assoc. apply IH.
    apply reset_before_split_snoc; [exact Htr |].
    intros g r Heq. now destruct (He g r).
Qed.

Lemma reset_before_split_reset_split (tr : list Event) (g : SplitGraph)
      (r : option SplitGraph) :
  reset_before_split tr ->
  reset_before_split (tr ++ [ResetToOrigSize g; SplitNewSubGraph g r]).
Proof.
  intros Htr.
  change [ResetToOrigSize g; SplitNewSubGraph g r]
    with ([ResetToOrigSize g] ++ [SplitNewSubGraph g r]).
  rewrite app_assoc. apply reset_before_split_snoc.
  - apply reset_before_split_app; [exact Htr |].
    repeat constructor. discriminate.
  - intros g' r' [= <- <-]. eauto.
Qed.

Section PlannerClaims.
Context {M : Type} `{SplitGraphManager M}.
Context {sorter : StdSort}.
Variable livesInfo : list LiveInterval.t.

Lemma splitStep_trace (g : SplitGraph) (s : State M) :
  reset_before_split (trace s) ->
  reset_before_split (trace (result_state (splitStep g s))).
Proof.
  intros Htr. rewrite splitStep_cases. cbv zeta.
  destruct (snd (splitNewSubGraph (resetToOrigSize (sgMgr s) g) g));
    cbn [result_state trace].
  - now apply reset_before_split_reset_split.
  - apply reset_before_split_app;
      [now apply reset_before_split_reset_split |].
    repeat constructor. discriminate.
Qed.

Lemma allocStep_trace (g : SplitGraph) (s : State M) :
  reset_before_split (trace s) ->
  reset_before_split (trace (snd (allocStep livesInfo g s))).
Proof.
  intros Htr. rewrite allocStep_eq. cbn [snd trace].
  apply reset_before_split_app; [exact Htr |].
  repeat constructor; discriminate.
Qed.

Lemma plannerIter_trace (localMemSize : Z) (g : SplitGraph) (s : State M)
      (prevMinSize : Z) :
  reset_before_split (trace s) ->
  reset_before_split
    (trace (result_state (plannerIter livesInfo localMemSize g s prevMinSize))).
Proof.
  intros Htr. rewrite plannerIter_eq. cbv zeta.
  pose proof (allocStep_trace g s Htr) as H1.
  destruct (_ <? _); [exact H1 |].
  destruct (_ && _).
  - now apply splitStep_trace.
  - cbn [shrinkStep result_state trace].
    apply reset_before_split_app; [exact H1 |].
    repeat constructor; discriminate.
Qed.

Lemma plannerIter_no_fit (localMemSize : Z) (g : SplitGraph) (s : State M)
      (prevMinSize : Z) :
  localMemSize <= peak_of livesInfo (sgMgr s) g ->
  prevMinSize <> 0 ->
  plannerIter livesInfo localMemSize g s prevMinSize
  = (if exceeds_threshold (peak_of livesInfo (sgMgr s) g) prevMinSize
     then splitStep g (snd (allocStep livesInfo g s))
     else shrinkStep g (snd (allocStep livesInfo g s))
            (peak_of livesInfo (sgMgr s) g)).
Proof.
  intros Hge Hprev. rewrite plannerIter_eq. cbv zeta.
  replace (_ <? localMemSize) with false by (symmetry; apply Z.ltb_ge; lia).
  replace (prevMinSize =? 0) with false by (symmetry; apply Z.eqb_neq; lia).
  reflexivity.
Qed.

(** C3 (amended): when the peak does not fit the budget and there is a
    prior candidate, the planner decides by the single-precision test
    [(float)peak / prevMinSize > 0.9f]: if it holds the split block runs
    (no shrink), otherwise the shrink block runs, which records the peak
    as [prevMinSize], shrinks the sub-graph and iterates.  When the peak
    and a positive [prevMinSize] are both below 2^24 the test is the exact
    one: a ratio above 0.9 splits, a ratio of at most 0.9 records
    [prevMinSize = peak] and shrinks.  For [prevMinSize = 1000] the planner
    splits at peak 950 and shrinks at peak 850. *)
Theorem planner_split_threshold
        (localMemSize : Z) (g : SplitGraph) (s : State M) (prevMinSize : Z) :
  localMemSize <= peak_of livesInfo (sgMgr s) g ->
  prevMinSize <> 0 ->
  let peak := peak_of livesInfo (sgMgr s) g in
  let s1 := snd (allocStep livesInfo g s) in
  let shrunk (prevMinSize' : Z) :=
    Continue
      (mkState (m_MemAllocList s1) (shrinkSize (sgMgr s) g) (worklist s)
         (trace s1 ++ [ErrsKb prevMinSize'; ShrinkSize g]))
      prevMinSize' in
  plannerIter livesInfo localMemSize g s prevMinSize
  = (if exceeds_threshold peak prevMinSize
     then splitStep g s1 else shrunk (to_int64 peak)) /\
  (0 < prevMinSize < 2 ^ 24 -> peak < 2 ^ 24 ->
   (9 * prevMinSize < 10 * peak ->
    plannerIter livesInfo localMemSize g s prevMinSize = splitStep g s1) /\
   (10 * peak <= 9 * prevMinSize ->
    plannerIter livesInfo localMemSize g s prevMinSize = shrunk peak)) /\
  exceeds_threshold 950 1000 = true /\
  exceeds_threshold 850 1000 = false.
Proof.
  intros Hge Hprev. cbv zeta.
  assert (Hiter : plannerIter livesInfo localMemSize g s prevMinSize
                  = (if exceeds_threshold (peak_of livesInfo (sgMgr s) g) prevMinSize
                     then splitStep g (snd (allocStep livesInfo g s))
                     else Continue
                            (mkState (m_MemAllocList (snd (allocStep livesInfo g s)))
                               (shrinkSize (sgMgr s) g) (worklist s)
                               (trace (snd (allocStep livesInfo g s))
                                ++ [ErrsKb (to_int64 (peak_of livesInfo (sgMgr s) g));
                                    ShrinkSize g]))
                            (to_int64 (peak_of livesInfo (sgMgr s) g)))).
  { rewrite plannerIter_no_fit by assumption. unfold shrinkStep.
    rewrite allocStep_eq. reflexivity. }
  split; [exact Hiter |].
  split; [| split; vm_compute; reflexivity].
  intros Hsmall Hpeak.
  pose proof (peak_of_range livesInfo (sgMgr s) g) as Hrange.
  rewrite Hiter, exceeds_threshold_exact by lia.
  rewrite to_int64_small by lia.
  split; intros Hratio.
  - now replace (_ <? _) with true by (symmetry; apply Z.ltb_lt; lia).
  - now replace (_ <? _) with false by (symmetry; apply Z.ltb_ge; lia).
Qed.

(** C5: when an iteration decides to split (the peak does not fit, there
    is a prior candidate and the threshold test holds), the sizes are
    reset first and the split is requested on the reset sub-graph: the
    two events are adjacent and in this order, no shrink happens in
    between, and if a new sub-graph comes back the loop goes on with
    [prevMinSize = 0] and the new sub-graph on top of the worklist.  The
    reset-then-split order of the trace is maintained. *)
Theorem split_resets_sizes_first
        (localMemSize : Z) (g : SplitGraph) (s : State M) (prevMinSize : Z) :
  localMemSize <= peak_of livesInfo (sgMgr s) g ->
  prevMinSize <> 0 ->
  exceeds_threshold (peak_of livesInfo (sgMgr s) g) prevMinSize = true ->
  let s1 := snd (allocStep livesInfo g s) in
  let reset := resetToOrigSize (sgMgr s) g in
  let r := snd (splitNewSubGraph reset g) in
  let tr := trace s1 ++ [ResetToOrigSize g; SplitNewSubGraph g r] in
  let res := plannerIter livesInfo localMemSize g s prevMinSize in
  sgMgr (result_state res) = fst (splitNewSubGraph reset g) /\
  (forall g', r = Some g' ->
     res = Continue (mkState (m_MemAllocList s1) (fst (splitNewSubGraph reset g))
                       (g' :: worklist s) tr) 0) /\
  (r = None ->
     res = Break Abandoned
             (mkState (m_MemAllocList s1) (fst (splitNewSubGraph reset g))
                (worklist s) (tr ++ [Errs msg_unable]))) /\
  (reset_before_split (trace s) ->
   reset_before_split (trace (result_state res))).
Proof.
  intros Hge Hprev Hthr. cbv zeta.
  pose proof (plannerIter_no_fit localMemSize g s prevMinSize Hge Hprev)
    as Hiter.
  rewrite Hthr in Hiter. rewrite Hiter.
  rewrite splitStep_cases. cbv zeta.
  rewrite allocStep_eq. cbn [snd sgMgr worklist trace m_MemAllocList].
  repeat split.
  - now destruct (snd (splitNewSubGraph (resetToOrigSize (sgMgr s) g) g)).
  - now intros g' ->.
  - now intros ->.
  - intros Htr.
    pose proof (plannerIter_trace localMemSize g s prevMinSize Htr) as Hres.
    rewrite Hiter, splitStep_cases in Hres. cbv zeta in Hres.
    rewrite allocStep_eq in Hres.
    exact Hres.
Qed.
End PlannerClaims.

(** ** The loops *)

Section LoopProperties.
Context {M : Type} `{SplitGraphManager M}.
Context {sorter : StdSort}.
Variable livesInfo : list LiveInterval.t.

Lemma peak_of_usage (m m' : M) (g : SplitGraph) :
  getMemUsage m' g = getMemUsage m g ->
  peak_of livesInfo m' g = peak_of livesInfo m g.
Proof. unfold peak_of. now intros ->. Qed.

Lemma allocStep_sgMgr (g : SplitGraph) (s : State M) :
  sgMgr (snd (allocStep livesInfo g s)) = sgMgr s.
Proof. now rewrite allocStep_eq. Qed.

Lemma allocStep_worklist (g : SplitGraph) (s : State M) :
  worklist (snd (allocStep livesInfo g s)) = worklist s.
Proof. now rewrite allocStep_eq. Qed.

Lemma allocStep_allocs (g : SplitGraph) (s : State M) :
  max_end (m_MemAllocList (snd (allocStep livesInfo g s)))
  = peak_of livesInfo (sgMgr s) g.
Proof.
  rewrite allocStep_eq. cbn [snd m_MemAllocList]. unfold peak_of.
  now rewrite allocByLiveness_peak.
Qed.

(** How the inner loop can end. *)
Lemma plannerLoop_verdict (localMemSize : Z) (g : SplitGraph) (fuel : nat) :
  forall (s : State M) (prevMinSize : Z) (v : Verdict) (s' : State M),
    plannerLoop livesInfo fuel localMemSize g s prevMinSize = Some (v, s') ->
    (exists pushed, worklist s' = pushed ++ worklist s) /\
    match v with
    | Accepted => max_end (m_MemAllocList s') < localMemSize
    | Abandoned =>
        exists tr, trace s' = tr ++ [ResetToOrigSize g;
                                     SplitNewSubGraph g None;
                                     Errs msg_unable]
    end.
Proof.
  induction fuel as [| fuel IH]; intros s prev v s' Hrun; [discriminate |].
  cbn [plannerLoop] in Hrun. rewrite plannerIter_eq in Hrun. cbv zeta in Hrun.
  destruct (Z.ltb_spec (peak_of livesInfo (sgMgr s) g) localMemSize) as [Hlt | Hge].
  - injection Hrun as <- <-. split.
    + exists []. now rewrite allocStep_worklist.
    + now rewrite allocStep_allocs.
  - destruct (_ && _).
    + rewrite splitStep_cases in Hrun. cbv zeta in Hrun.
      destruct (snd (splitNewSubGraph _ g)) as [g' |].
      * apply IH in Hrun as [[pushed Hw] Hv]. split; [| exact Hv].
        exists (pushed ++ [g']). rewrite Hw. cbn [worklist].
        rewrite allocStep_worklist. now rewrite <- app_assoc.
      * injection Hrun as <- <-. split.
        -- exists []. cbn [worklist]. now rewrite allocStep_worklist.
        -- eexists. cbn [trace]. now rewrite <- app_assoc.
    + unfold shrinkStep in Hrun. cbv zeta in Hrun.
      apply IH in Hrun as [[pushed Hw] Hv]. split; [| exact Hv].
      exists pushed. rewrite Hw. cbn [worklist]. now rewrite allocStep_worklist.
Qed.

Lemma plannerLoop_trace (localMemSize : Z) (g : SplitGraph) (fuel : nat) :
  forall (s : State M) (prevMinSize : Z) (v : Verdict) (s' : State M),
    plannerLoop livesInfo fuel localMemSize g s prevMinSize = Some (v, s') ->
    reset_before_split (trace s) -> reset_before_split (trace s').
Proof.
  induction fuel as [| fuel IH]; intros s prev v s' Hrun Htr; [discriminate |].
  cbn [plannerLoop] in Hrun.
  pose proof (plannerIter_trace livesInfo localMemSize g s prev Htr) as Hres.
  destruct (plannerIter livesInfo localMemSize g s prev) as [v1 s1 | s1 prev1].
  - injection Hrun as <- <-. exact Hres.
  - eapply IH; eauto.
Qed.

Lemma worklistLoop_trace (localMemSize : Z) (fuel : nat) :
  forall (s s' : State M),
    worklistLoop livesInfo fuel localMemSize s = Some s' ->
    reset_before_split (trace s) -> reset_before_split (trace s').
Proof.
  induction fuel as [| fuel IH]; intros s s' Hrun Htr; [discriminate |].
  cbn [worklistLoop] in Hrun.
  destruct (worklist s) as [| g rest]; [now injection Hrun as <- |].
  destruct (plannerLoop livesInfo fuel localMemSize g (enterPlanner s rest) 0)
    as [[v s1] |] eqn:Hplan; [| discriminate].
  apply IH in Hrun; [exact Hrun |].
  cbn [leavePlanner trace].
  apply reset_before_split_app; [| repeat constructor; discriminate].
  eapply plannerLoop_trace; [exact Hplan |].
  cbn [enterPlanner trace].
  apply reset_before_split_app; [exact Htr | repeat constructor; discriminate].
Qed.

(** Over a whole run of the pass, every split request directly follows the
    reset of the sub-graph it is made for. *)
Lemma runOnModule_trace (fuel : nat) (backend : option DLATargetBackend)
      (newSgMgr : DLATargetBackend -> M) (old : MemAllocList)
      (tr0 : list Event) (r : Result) :
  runOnModule livesInfo fuel backend newSgMgr old tr0 = Some r ->
  reset_before_split tr0 -> reset_before_split (events r).
Proof.
  unfold runOnModule. intros Hrun Htr. destruct backend as [b |].
  - destruct (worklistLoop _ _ _ _) as [s |] eqn:Hloop; [| discriminate].
    injection Hrun as <-. cbn [events].
    apply reset_before_split_app; [| repeat constructor; discriminate].
    eapply worklistLoop_trace; [exact Hloop |]. cbn [trace].
    apply reset_before_split_app; [exact Htr | repeat constructor; discriminate].
  - injection Hrun as <-. cbn [events].
    apply reset_before_split_app; [exact Htr | repeat constructor; discriminate].
Qed.


End LoopProperties.

(** ** Termination of the planner loop *)

Section Termination.
Context {M : Type} `{SplitGraphManager M}.
Context {sorter : StdSort}.
Variable livesInfo : list LiveInterval.t.
Variable localMemSize : Z.
Variable g : SplitGraph.
Variable Inv : M -> Prop.
Variables mu nu : M -> nat.
Hypothesis budget_pos : 0 < localMemSize.
Hypothesis policy : Converging livesInfo g Inv mu nu.

(** After a shrink that changed nothing, the next iteration splits. *)
Lemma stalled_iteration_splits (m : M) (s' : State M) :
  Inv m ->
  localMemSize <= peak_of livesInfo m g ->
  getMemUsage (sgMgr s') g = getMemUsage m g ->
  plannerIter livesInfo localMemSize g s' (to_int64 (peak_of livesInfo m g))
  = splitStep g (snd (allocStep livesInfo g s')).
Proof.
  intros Hinv Hge Hsame.
  pose proof (peak_of_range livesInfo m g) as Hrange.
  pose proof (conv_range _ _ _ _ _ policy m Hinv) as Hsmall.
  rewrite to_int64_small by lia.
  rewrite plannerIter_no_fit.
  - rewrite (peak_of_usage livesInfo m (sgMgr s') g Hsame).
    now rewrite exceeds_threshold_same by lia.
  - rewrite (peak_of_usage livesInfo m (sgMgr s') g Hsame). exact Hge.
  - lia.
Qed.

(** After the split block either the loop is left, or it goes on in a
    state with a smaller [nu]. *)
Lemma splitStep_progress (s : State M) :
  Inv (sgMgr s) ->
  (exists s', splitStep g s = Break Abandoned s') \/
  (exists s', splitStep g s = Continue s' 0 /\ Inv (sgMgr s') /\
              (nu (sgMgr s') < nu (sgMgr s))%nat).
Proof.
  intros Hinv. rewrite splitStep_cases. cbv zeta.
  pose proof (conv_reset_inv _ _ _ _ _ policy _ Hinv) as Hinv1.
  pose proof (conv_reset_nu _ _ _ _ _ policy _ Hinv) as Hnu1.
  pose proof (conv_split_inv _ _ _ _ _ policy _ Hinv1) as Hinv2.
  pose proof (conv_split _ _ _ _ _ policy (resetToOrigSize (sgMgr s) g)) as Hnu2.
  destruct (snd (splitNewSubGraph (resetToOrigSize (sgMgr s) g) g)) as [g' |].
  - right. eexists. split; [reflexivity |]. cbn [sgMgr]. split; [exact Hinv2 |].
    specialize (Hnu2 g' Hinv1 eq_refl). lia.
  - left. eauto.
Qed.

Lemma plannerLoop_terminates_from (N : nat) :
  forall (K : nat) (s : State M) (prevMinSize : Z),
    Inv (sgMgr s) -> (nu (sgMgr s) <= N)%nat -> (mu (sgMgr s) <= K)%nat ->
    exists fuel v s',
      plannerLoop livesInfo fuel localMemSize g s prevMinSize = Some (v, s').
Proof.
  induction N as [N IHN] using lt_wf_ind.
  induction K as [K IHK] using lt_wf_ind.
  intros s prev Hinv HN HK.
  assert (Hsplit : forall s1 : State M,
             Inv (sgMgr s1) -> (nu (sgMgr s1) <= N)%nat ->
             forall s0 p0,
               plannerIter livesInfo localMemSize g s0 p0 = splitStep g s1 ->
               exists fuel v s',
                 plannerLoop livesInfo fuel localMemSize g s0 p0 = Some (v, s')).
  { intros s1 Hinv1 HN1 s0 p0 Hiter.
    destruct (splitStep_progress s1 Hinv1) as [[s' Hs'] | (s' & Hs' & Hinv' & Hnu')].
    - exists 1%nat, Abandoned, s'. cbn [plannerLoop]. now rewrite Hiter, Hs'.
    - destruct (IHN (nu (sgMgr s')) ltac:(lia) (mu (sgMgr s')) s' 0 Hinv'
                    ltac:(lia) ltac:(lia)) as (fuel & v & s'' & Hrun).
      exists (S fuel), v, s''. cbn [plannerLoop]. now rewrite Hiter, Hs'. }
  pose proof (plannerIter_eq livesInfo localMemSize g s prev) as Hiter.
  cbv zeta in Hiter.
  destruct (Z.ltb_spec (peak_of livesInfo (sgMgr s) g) localMemSize) as [Hlt | Hge].
  { exists 1%nat, Accepted, (snd (allocStep livesInfo g s)).
    cbn [plannerLoop]. now rewrite Hiter. }
  destruct (_ && _).
  { apply (Hsplit (snd (allocStep livesInfo g s))); [| | exact Hiter];
      now rewrite allocStep_sgMgr. }
  unfold shrinkStep in Hiter. cbv zeta in Hiter.
  rewrite allocStep_sgMgr in Hiter.
  set (s' := mkState _ (shrinkSize (sgMgr s) g) _ _) in Hiter.
  pose proof (conv_shrink_inv _ _ _ _ _ policy _ Hinv) as Hinv'.
  pose proof (conv_shrink_nu _ _ _ _ _ policy _ Hinv) as Hnu'.
  destruct (conv_shrink _ _ _ _ _ policy _ Hinv) as [Hsame | Hless].
  - destruct (Hsplit (snd (allocStep livesInfo g s'))) with
      (s0 := s') (p0 := to_int64 (peak_of livesInfo (sgMgr s) g))
      as (fuel & v & s'' & Hrun).
    + now rewrite allocStep_sgMgr.
    + rewrite allocStep_sgMgr. cbn [s' sgMgr]. lia.
    + now apply stalled_iteration_splits.
    + exists (S fuel), v, s''. cbn [plannerLoop]. rewrite Hiter. exact Hrun.
  - destruct (IHK (mu (shrinkSize (sgMgr s) g)) ltac:(lia) s'
                  (to_int64 (peak_of livesInfo (sgMgr s) g)))
      as (fuel & v & s'' & Hrun); [exact Hinv' | cbn [s' sgMgr]; lia | now cbn |].
    exists (S fuel), v, s''. cbn [plannerLoop]. rewrite Hiter. exact Hrun.
Qed.
End Termination.

(** X20: for a positive budget and a policy that converges on the
    sub-graph (a shrink leaves the sizes as they are or lowers a measure,
    a split that succeeds lowers a second measure that shrinking and
    resetting do not raise, the peak stays below 2^63), the planner loop
    started in any state ends after finitely many iterations, either
    accepted with the entries' peak below the budget, or abandoned after a
    split request that returned nothing. *)
Theorem plannerLoop_terminates
        {M : Type} `{SplitGraphManager M} {sorter : StdSort}
        (livesInfo : list LiveInterval.t)
        (localMemSize : Z) (g : SplitGraph) (Inv : M -> Prop) (mu nu : M -> nat)
        (s : State M) (prevMinSize : Z) :
  0 < localMemSize ->
  Converging livesInfo g Inv mu nu ->
  Inv (sgMgr s) ->
  exists fuel v s',
    plannerLoop livesInfo fuel localMemSize g s prevMinSize = Some (v, s') /\
    match v with
    | Accepted => max_end (m_MemAllocList s') < localMemSize
    | Abandoned =>
        exists tr, trace s' = tr ++ [ResetToOrigSize g; SplitNewSubGraph g None;
                                     Errs msg_unable]
    end.
Proof.
  intros Hpos Hpolicy Hinv.
  destruct (plannerLoop_terminates_from livesInfo localMemSize g Inv mu nu
              Hpos Hpolicy (nu (sgMgr s)) (mu (sgMgr s)) s prevMinSize
              Hinv ltac:(lia) ltac:(lia)) as (fuel & v & s' & Hrun).
  exists fuel, v, s'. split; [exact Hrun |].
  now destruct (plannerLoop_verdict livesInfo _ _ _ _ _ _ _ Hrun).
Qed.

(** ** The pass on the synthetic manager *)

Lemma synthetic_peak (m : Synthetic.Mgr) :
  peak_of (Synthetic.lives 1) m 0%nat
  = match Synthetic.graphs m !! 0%nat with
    | Some x => wrap64 (Synthetic.cur x)
    | None => 0
    end.
Proof.
  unfold peak_of. rewrite allocByLiveness_unfold. cbn [fst].
  change (getMemUsage m 0%nat) with (Synthetic.usage m 0%nat).
  unfold Synthetic.usage.
  destruct (Synthetic.graphs m !! 0%nat) as [x |].
  - cbn [Synthetic.lives seq List.map fold_left]. unfold alloc_step, clear.
    cbn [LiveInterval.getValue]. rewrite lookup_singleton_eq.
    cbn [snd GetUsedMemRegions List.filter List.map std_sort insertion_sort
         sort_by_start fold_left scan_conflicts].
    unfold size_add, wrap64. rewrite Z.add_0_l, Z.mod_mod by lia.
    pose proof (Z.mod_pos_bound (Synthetic.cur x) (2 ^ 64) ltac:(lia)). lia.
  - cbn [Synthetic.lives seq List.map fold_left]. unfold alloc_step, clear.
    cbn [LiveInterval.getValue]. now rewrite lookup_empty.
Qed.

Lemma synthetic_converging :
  Converging (Synthetic.lives 1) 0%nat Synthetic.in_range
             (Synthetic.shrink_room 0) Synthetic.splits_left.
Proof.
  split; cbn [shrinkSize resetToOrigSize splitNewSubGraph getMemUsage
              Synthetic.manager].
  - intros m Hm. unfold Synthetic.shrink.
    destruct (Synthetic.graphs m !! 0%nat) as [x |] eqn:Hx; [| exact Hm].
    unfold Synthetic.in_range in *. cbn [Synthetic.graphs].
    apply Forall_insert; [exact Hm |].
    pose proof (Forall_lookup_1 _ _ _ _ Hm Hx) as [Hc Ho]. cbn beta in Hc, Ho.
    cbn [Synthetic.cur Synthetic.orig]. split; [| exact Ho].
    pose proof (Z.mul_div_le (Synthetic.cur x) 2 ltac:(lia)).
    pose proof (Z.div_pos (Synthetic.cur x) 2 ltac:(lia) ltac:(lia)).
    destruct (_ <? _); lia.
  - intros m Hm. unfold Synthetic.reset.
    destruct (Synthetic.graphs m !! 0%nat) as [x |] eqn:Hx; [| exact Hm].
    unfold Synthetic.in_range in *. cbn [Synthetic.graphs].
    apply Forall_insert; [exact Hm |].
    pose proof (Forall_lookup_1 _ _ _ _ Hm Hx) as [Hc Ho]. cbn beta in Hc, Ho.
    cbn [Synthetic.cur Synthetic.orig]. lia.
  - intros m Hm. unfold Synthetic.split.
    destruct (Synthetic.splits_left m) as [| k]; [exact Hm |].
    destruct (Synthetic.graphs m !! 0%nat) as [x |] eqn:Hx; [| exact Hm].
    unfold Synthetic.in_range in *. cbn [fst Synthetic.graphs].
    pose proof (Forall_lookup_1 _ _ _ _ Hm Hx) as [Hc Ho]. cbn beta in Hc, Ho.
    pose proof (Z.mul_div_le (Synthetic.orig x) 2 ltac:(lia)).
    pose proof (Z.div_pos (Synthetic.orig x) 2 ltac:(lia) ltac:(lia)).
    apply Forall_app. split; [apply Forall_insert; [exact Hm |] | repeat constructor];
      cbn [Synthetic.cur Synthetic.orig]; lia.
  - intros m Hm. unfold Synthetic.shrink, Synthetic.shrink_room, Synthetic.usage.
    destruct (Synthetic.graphs m !! 0%nat) as [x |] eqn:Hx;
      [| rewrite Hx; now left].
    pose proof (Forall_lookup_1 _ _ _ _ Hm Hx) as [Hc Ho]. cbn beta in Hc, Ho.
    cbn [Synthetic.graphs].
    rewrite list_lookup_insert_eq by (eapply lookup_lt_Some; exact Hx).
    cbn [Synthetic.cur].
    pose proof (Z.mul_div_le (Synthetic.cur x) 2 ltac:(lia)).
    pose proof (Z.div_pos (Synthetic.cur x) 2 ltac:(lia) ltac:(lia)).
    destruct (_ <? _); [now left |].
    destruct (Z.eq_dec (Synthetic.cur x / 2) (Synthetic.cur x)) as [-> | Hne];
      [now left | right; lia].
  - intros m _. unfold Synthetic.shrink.
    now destruct (Synthetic.graphs m !! 0%nat).
  - intros m _. unfold Synthetic.reset.
    now destruct (Synthetic.graphs m !! 0%nat).
  - intros m g' _. unfold Synthetic.split.
    destruct (Synthetic.splits_left m) as [| k]; [discriminate |].
    destruct (Synthetic.graphs m !! 0%nat); [| discriminate].
    cbn [fst Synthetic.splits_left]. lia.
  - intros m Hm. rewrite synthetic_peak.
    destruct (Synthetic.graphs m !! 0%nat) as [x |] eqn:Hx; [| lia].
    pose proof (Forall_lookup_1 _ _ _ _ Hm Hx) as [Hc Ho]. cbn beta in Hc, Ho.
    unfold wrap64. rewrite Z.mod_small; lia.
Qed.

(** The pass on [Synthetic.pair] with a budget of 500 bytes: sub-graph 1 is
    shrunk to its floor, cannot be split and is abandoned; sub-graph 0 is
    then planned and accepted. *)
Example runOnModule_pair :
  runOnModule (Synthetic.lives 2) 12 (Some {| getLocalMemSize := 500 |})
    (fun _ => Synthetic.pair) [] []
  = Some (mkResult kModuleNoChanged
            [MemAllocEntry.mk 0 400 (LiveInterval.mk 0 0 0)]
            [SchedulerRun; LivenessRun;
             Errs msg_alloc_or_shrink;
             GetMemUsage 1; AllocByLiveness 2000; ErrsKb 2000; ShrinkSize 1;
             GetMemUsage 1; AllocByLiveness 1000; ErrsKb 1000; ShrinkSize 1;
             GetMemUsage 1; AllocByLiveness 1000;
             ResetToOrigSize 1; SplitNewSubGraph 1 None; Errs msg_unable;
             Outs msg_newline;
             Errs msg_alloc_or_shrink;
             GetMemUsage 0; AllocByLiveness 400;
             Outs msg_newline; Dump]%nat).
Proof. vm_compute. reflexivity. Qed.

(** C3, against the claim as stated: with [prevMinSize = 10^9] and peak
    900000001 the exact ratio is above 0.9, yet the planner shrinks (the
    peak rounds to 9 * 10^8 in single precision); with
    [prevMinSize = 2^30 + 63] and peak 966367698 the exact ratio is below
    0.9, yet the planner goes to the split block. *)
Lemma exact_ratio_disagrees_with_float_test :
  (9 * 1000000000 < 10 * 900000001 /\
   plannerIter (Synthetic.lives 1) 500 0%nat
     (Synthetic.state (Synthetic.single 900000001 0)) 1000000000
   = Continue
       (mkState [MemAllocEntry.mk 0 900000001 (LiveInterval.mk 0 0 0)]
          (Synthetic.mkMgr [Synthetic.mkGraph 450000000 900000001 1] 0) []
          [GetMemUsage 0%nat; AllocByLiveness 900000001;
           ErrsKb 900000001; ShrinkSize 0%nat])
       900000001) /\
  (10 * 966367698 < 9 * (2 ^ 30 + 63) /\
   plannerIter (Synthetic.lives 1) 500 0%nat
     (Synthetic.state (Synthetic.single 966367698 0)) (2 ^ 30 + 63)
   = Break Abandoned
       (mkState [MemAllocEntry.mk 0 966367698 (LiveInterval.mk 0 0 0)]
          (Synthetic.single 966367698 0) []
          [GetMemUsage 0%nat; AllocByLiveness 966367698;
           ResetToOrigSize 0%nat; SplitNewSubGraph 0%nat None;
           Errs msg_unable])).
Proof. repeat split; vm_compute; reflexivity. Qed.

Lemma planner_split_threshold_witness :
  plannerIter (Synthetic.lives 1) 500 0%nat
    (Synthetic.state (Synthetic.single 950 0)) 1000
  = splitStep 0%nat
      (snd (allocStep (Synthetic.lives 1) 0%nat
              (Synthetic.state (Synthetic.single 950 0)))).
Proof.
  refine (proj1 (proj1 (proj2
            (planner_split_threshold (Synthetic.lives 1) 500 0%nat
               (Synthetic.state (Synthetic.single 950 0)) 1000 _ _)) _ _) _).
  - vm_compute. discriminate.
  - discriminate.
  - split; reflexivity.
  - vm_compute. reflexivity.
  - vm_compute. reflexivity.
Defined.

Lemma split_resets_sizes_first_witness :
  sgMgr (result_state
           (plannerIter (Synthetic.lives 1) 500 0%nat
              (Synthetic.state (Synthetic.single 950 1)) 1000))
  = fst (splitNewSubGraph
           (resetToOrigSize (Synthetic.single 950 1) 0%nat) 0%nat).
Proof.
  refine (proj1 (split_resets_sizes_first (Synthetic.lives 1) 500 0%nat
                   (Synthetic.state (Synthetic.single 950 1)) 1000 _ _ _)).
  - vm_compute. discriminate.
  - discriminate.
  - vm_compute. reflexivity.
Defined.


Lemma plannerLoop_huge (fuel : nat) :
  forall (s : State Synthetic.Mgr) (prevMinSize : Z),
    sgMgr s = Synthetic.huge ->
    prevMinSize = 0 \/ prevMinSize = - 2 ^ 63 ->
    plannerLoop (Synthetic.lives 1) fuel (2 ^ 63) 0%nat s prevMinSize = None.
Proof.
  induction fuel as [| fuel IH]; intros s prev Hs Hprev; [reflexivity |].
  cbn [plannerLoop]. rewrite plannerIter_eq. cbv zeta. rewrite Hs.
  replace (peak_of (Synthetic.lives 1) Synthetic.huge 0%nat) with (2 ^ 63)
    by (vm_compute; reflexivity).
  rewrite Z.ltb_irrefl.
  replace (negb (prev =? 0) && exceeds_threshold (2 ^ 63) prev) with false
    by (destruct Hprev as [-> | ->]; vm_compute; reflexivity).
  unfold shrinkStep. cbv zeta. apply IH.
  - cbn [sgMgr]. rewrite allocStep_sgMgr, Hs. vm_compute. reflexivity.
  - right. vm_compute. reflexivity.
Qed.

(** C9: the planner loop at a sub-graph whose only value has size 2^63,
    which is also the floor of its shrink (shrinking changes nothing) and
    which cannot be split, planned against a budget of 2^63 bytes.  The
    peak never fits and the new allocation is never smaller than the
    previous one, which by the comment above the split block is the case
    for a new sub-graph; but the peak is recorded in the [int64_t]
    [prevMinSize] as the negative -2^63, the quotient is -1 and never
    exceeds the threshold, the split block is never reached and the loop
    goes on for ever. *)
Lemma planner_loop_diverges_on_huge :
  0 < 2 ^ 63 /\
  shrinkSize Synthetic.huge 0%nat = Synthetic.huge /\
  snd (splitNewSubGraph (resetToOrigSize Synthetic.huge 0%nat) 0%nat) = None /\
  ~ exists fuel r,
      plannerLoop (Synthetic.lives 1) fuel (2 ^ 63) 0%nat
        (Synthetic.state Synthetic.huge) 0 = Some r.
Proof.
  split; [reflexivity |].
  split; [vm_compute; reflexivity |].
  split; [vm_compute; reflexivity |].
  intros (fuel & r & Hrun).
  rewrite plannerLoop_huge in Hrun; [discriminate | reflexivity | now left].
Qed.

Lemma plannerLoop_terminates_witness :
  exists fuel v s',
    plannerLoop (Synthetic.lives 1) fuel 500 0%nat
      (Synthetic.state (Synthetic.single 2000 1)) 0 = Some (v, s') /\
    match v with
    | Accepted => max_end (m_MemAllocList s') < 500
    | Abandoned =>
        exists tr, trace s' = tr ++ [ResetToOrigSize 0%nat;
                                     SplitNewSubGraph 0%nat None;
                                     Errs msg_unable]
    end.
Proof.
  apply (plannerLoop_terminates (Synthetic.lives 1) 500 0%nat
           Synthetic.in_range (Synthetic.shrink_room 0) Synthetic.splits_left).
  - reflexivity.
  - exact synthetic_converging.
  - repeat constructor; cbn; lia.
Defined.

(** * Further properties of the allocator *)

(** ** HasConflict *)

Lemma size_add_small (a b : Z) : 0 <= a + b < 2 ^ 64 -> size_add a b = a + b.
Proof. intros H. unfold size_add, wrap64. now apply Z.mod_small. Qed.

(** X1: when neither end address wraps around, [HasConflict] is exactly
    the overlap of the half-open ranges [a, a + sa) and [b, b + sb). *)
Theorem HasConflict_iff_overlap (a sa b sb : Z) :
  0 <= a + sa < 2 ^ 64 -> 0 <= b + sb < 2 ^ 64 ->
  (HasConflict a sa b sb = true <-> a < b + sb /\ b < a + sa).
Proof.
  intros Ha Hb. unfold HasConflict. cbv zeta.
  rewrite !size_add_small by assumption.
  rewrite negb_true_iff, orb_false_iff, !Z.leb_gt. lia.
Qed.

Lemma HasConflict_iff_overlap_witness :
  HasConflict 0 10 10 20 = true <-> 0 < 10 + 20 /\ 10 < 0 + 10.
Proof. apply (HasConflict_iff_overlap 0 10 10 20); lia. Defined.

(** X2: when the end of the first range wraps around [size_t] and lands at
    or below the start of the second, [HasConflict] reports no conflict
    although the ranges overlap. *)
Theorem HasConflict_misses_wrapped_range (a sa b sb : Z) :
  0 <= a <= b -> b < 2 ^ 64 -> 0 < sb ->
  2 ^ 64 <= a + sa < 2 ^ 65 -> a + sa - 2 ^ 64 <= b ->
  HasConflict a sa b sb = false /\ a < b + sb /\ b < a + sa.
Proof.
  intros Hab Hb Hsb Hwrap Hend. split; [| lia].
  unfold HasConflict, size_add, wrap64. cbv zeta.
  replace ((a + sa) mod 2 ^ 64) with (a + sa - 2 ^ 64).
  - replace (a + sa - 2 ^ 64 <=? b) with true by (symmetry; apply Z.leb_le; lia).
    reflexivity.
  - apply Z.mod_unique with 1; lia.
Qed.

Lemma HasConflict_misses_wrapped_range_witness :
  HasConflict (2 ^ 64 - 8) 16 (2 ^ 64 - 4) 2 = false /\
  2 ^ 64 - 8 < 2 ^ 64 - 4 + 2 /\ 2 ^ 64 - 4 < 2 ^ 64 - 8 + 16.
Proof.
  apply (HasConflict_misses_wrapped_range (2 ^ 64 - 8) 16 (2 ^ 64 - 4) 2); lia.
Defined.

(** ** GetUsedMemRegions *)

Section ConflictsFacts.
Context {sorter : StdSort}.

(** X3: the conflicts returned for an interval are the regions of exactly
    the entries whose live interval intersects it (each once), in
    ascending order of start address. *)
Theorem GetUsedMemRegions_sorted_permutation
        (pAllocs : MemAllocList) (pIntrvl : LiveInterval.t) :
  StronglySorted (fun a b => MemRegion.start a <= MemRegion.start b)
    (GetUsedMemRegions pAllocs pIntrvl) /\
  Permutation (GetUsedMemRegions pAllocs pIntrvl)
    (List.map region_of
       (List.filter
          (fun e => LiveInterval.intersect (MemAllocEntry.liveIntrvl e) pIntrvl)
          pAllocs)).
Proof.
  unfold GetUsedMemRegions. cbv zeta. fold region_of. split.
  - apply std_sort_sorted.
  - apply std_sort_permutation.
Qed.

End ConflictsFacts.

(** ** The scan of the conflicts *)

Lemma HasConflict_end_above (rs rz c required : Z) :
  HasConflict rs rz c required = true -> c < size_add rs rz.
Proof.
  unfold HasConflict. cbv zeta.
  rewrite negb_true_iff, orb_false_iff, !Z.leb_gt. lia.
Qed.

Lemma scan_conflicts_ge (conflicts : MemRegionList) (c required : Z) :
  c <= scan_conflicts conflicts c required.
Proof.
  revert c. induction conflicts as [| r rest IH]; intros c; cbn [scan_conflicts];
    [lia |].
  destruct (HasConflict (MemRegion.start r) (MemRegion.size r) c required)
    eqn:Hc; cbn [negb]; [| lia].
  apply HasConflict_end_above in Hc.
  specialize (IH (size_add (MemRegion.start r) (MemRegion.size r))). lia.
Qed.

Lemma scan_conflicts_origin (conflicts : MemRegionList) (c required : Z) :
  scan_conflicts conflicts c required = c \/
  exists r, In r conflicts /\
            scan_conflicts conflicts c required
            = size_add (MemRegion.start r) (MemRegion.size r).
Proof.
  revert c. induction conflicts as [| r rest IH]; intros c; cbn [scan_conflicts].
  - now left.
  - destruct (HasConflict (MemRegion.start r) (MemRegion.size r) c required);
      cbn [negb]; [| now left].
    destruct (IH (size_add (MemRegion.start r) (MemRegion.size r)))
      as [Heq | (r' & Hin & Heq)].
    + right. exists r. split; [now left | exact Heq].
    + right. exists r'. split; [now right | exact Heq].
Qed.

(** X4: the scan never lowers the candidate, and the address it accepts is
    the candidate it started from or the end of one of the conflicts. *)
Theorem scan_conflicts_result (conflicts : MemRegionList) (c required : Z) :
  c <= scan_conflicts conflicts c required /\
  (scan_conflicts conflicts c required = c \/
   exists r, In r conflicts /\
             scan_conflicts conflicts c required
             = size_add (MemRegion.start r) (MemRegion.size r)).
Proof. split; [apply scan_conflicts_ge | apply scan_conflicts_origin]. Qed.

(** X5: when the scan leaves the loop, every region it has passed ends at
    or below the accepted address, and the region it stopped at (if any)
    does not conflict with the accepted range; only regions after the one
    it stopped at are left unexamined. *)
Theorem scan_conflicts_passed (conflicts : MemRegionList) (c required : Z) :
  exists passed,
    conflicts = passed ++ scan_remaining conflicts c required /\
    Forall (fun r => size_add (MemRegion.start r) (MemRegion.size r)
                     <= scan_conflicts conflicts c required) passed /\
    match scan_remaining conflicts c required with
    | [] => True
    | r :: _ =>
        HasConflict (MemRegion.start r) (MemRegion.size r)
          (scan_conflicts conflicts c required) required = false
    end.
Proof.
  revert c. induction conflicts as [| r rest IH]; intros c;
    cbn [scan_conflicts scan_remaining].
  - exists []. repeat split. constructor.
  - destruct (HasConflict (MemRegion.start r) (MemRegion.size r) c required)
      eqn:Hc; cbn [negb].
    + destruct (IH (size_add (MemRegion.start r) (MemRegion.size r)))
        as (passed & Heq & Hpassed & Hstop).
      exists (r :: passed). split; [cbn [app]; now rewrite <- Heq |].
      split; [| exact Hstop].
      constructor; [| exact Hpassed].
      apply scan_conflicts_ge.
    + exists []. repeat split; [constructor | exact Hc].
Qed.

(** ** Where the allocator puts an entry *)

Section Placement.
Context {sorter : StdSort}.

Lemma GetUsedMemRegions_In (allocs : MemAllocList) (li : LiveInterval.t)
      (r : MemRegion.t) :
  In r (GetUsedMemRegions allocs li) <->
  exists e, In e allocs /\
            LiveInterval.intersect (MemAllocEntry.liveIntrvl e) li = true /\
            r = region_of e.
Proof.
  unfold GetUsedMemRegions. cbv zeta. fold region_of.
  rewrite std_sort_In, in_map_iff. split.
  - intros (e & <- & He). apply filter_In in He as [He Hint]. eauto.
  - intros (e & He & Hint & ->). exists e. split; [reflexivity |].
    apply filter_In. now split.
Qed.

Lemma snoc_decompose {A : Type} (l pre post : list A) (x e : A) :
  l ++ [x] = pre ++ e :: post ->
  (post = [] /\ pre = l /\ e = x) \/
  (exists post', post = post' ++ [x] /\ l = pre ++ e :: post').
Proof.
  intros Heq. destruct post as [| y post].
  - left. apply app_inj_tail in Heq as [-> ->]. auto.
  - right.
    destruct (exists_last (l := y :: post) ltac:(discriminate))
      as (post' & z & Hpost).
    rewrite Hpost in Heq.
    change (pre ++ e :: post' ++ [z]) with (pre ++ (e :: post') ++ [z]) in Heq.
    rewrite app_assoc in Heq. apply app_inj_tail in Heq as [-> ->].
    exists post'. now rewrite Hpost.
Qed.

Lemma alloc_step_new_entry (vm : ValMemSizeMap) (allocs : MemAllocList)
      (minSize : Z) (li : LiveInterval.t) (sz : Z) :
  vm !! LiveInterval.getValue li = Some sz ->
  alloc_step vm (allocs, minSize) li
  = (allocs ++ [MemAllocEntry.mk
                  (scan_conflicts (GetUsedMemRegions allocs li) 0 (wrap64 sz))
                  (wrap64 sz) li],
     Z.max minSize
       (size_add (scan_conflicts (GetUsedMemRegions allocs li) 0 (wrap64 sz))
                 (wrap64 sz))).
Proof. intros Hsz. unfold alloc_step. now rewrite Hsz. Qed.

Lemma alloc_step_tight (vm : ValMemSizeMap) (allocs : MemAllocList)
      (minSize : Z) (li : LiveInterval.t) :
  tightly_placed allocs ->
  tightly_placed (fst (alloc_step vm (allocs, minSize) li)).
Proof.
  intros Htight.
  destruct (vm !! LiveInterval.getValue li) as [sz |] eqn:Hsz.
  - rewrite (alloc_step_new_entry vm allocs minSize li sz Hsz). cbn [fst].
    intros pre e post Heq.
    apply snoc_decompose in Heq as [(-> & -> & ->) | (post' & -> & ->)].
    + cbn [MemAllocEntry.startAddr MemAllocEntry.liveIntrvl].
      destruct (scan_conflicts_origin (GetUsedMemRegions allocs li) 0 (wrap64 sz))
        as [Hz | (r & Hr & Hres)]; [now left | right].
      apply GetUsedMemRegions_In in Hr as (e' & He' & Hint & ->).
      exists e'. repeat split; assumption.
    + now apply (Htight pre e post').
  - rewrite alloc_step_unmapped by (unfold in_map; now rewrite Hsz). exact Htight.
Qed.

Lemma alloc_fold_tight (vm : ValMemSizeMap) (lives : list LiveInterval.t) :
  forall acc, tightly_placed (fst acc) ->
              tightly_placed (fst (fold_left (alloc_step vm) lives acc)).
Proof.
  induction lives as [| li lives IH]; intros [allocs minSize] Hacc;
    cbn [fold_left]; [exact Hacc |].
  apply IH. now apply alloc_step_tight.
Qed.

Lemma allocByLiveness_tight (old : MemAllocList) (lives : list LiveInterval.t)
      (vm : ValMemSizeMap) :
  tightly_placed (snd (allocByLiveness old lives vm)).
Proof.
  rewrite allocByLiveness_unfold. cbn [snd]. apply alloc_fold_tight.
  intros pre e post Heq. now destruct pre.
Qed.

(** X6: every entry the allocator returns sits at address 0 or right at
    the end of an entry placed before it whose live interval intersects
    its own: the allocator never leaves a gap it has no conflict for. *)
Theorem allocByLiveness_tightly_placed
        (old : MemAllocList) (lives : list LiveInterval.t) (vm : ValMemSizeMap) :
  tightly_placed (snd (allocByLiveness old lives vm)).
Proof. apply allocByLiveness_tight. Qed.

(** X7: when no two of the intervals that have a size intersect, every
    value is placed at address 0. *)
Theorem allocByLiveness_disjoint_lifetimes_share_zero
        (old : MemAllocList) (lives : list LiveInterval.t) (vm : ValMemSizeMap) :
  StronglySorted (fun a b => LiveInterval.intersect a b = false)
                 (List.filter (in_map vm) lives) ->
  Forall (fun e => MemAllocEntry.startAddr e = 0)
         (snd (allocByLiveness old lives vm)).
Proof.
  intros Hdisj.
  pose proof (allocByLiveness_tight old lives vm) as Htight.
  assert (Hint : List.map MemAllocEntry.liveIntrvl
                   (snd (allocByLiveness old lives vm))
                 = List.filter (in_map vm) lives).
  { rewrite allocByLiveness_unfold. cbn [snd].
    now rewrite alloc_fold_intervals. }
  rewrite <- Hint in Hdisj. clear Hint.
  apply List.Forall_forall. intros e He.
  apply in_split in He as (pre & post & Heq).
  destruct (Htight pre e post Heq) as [Hz | (e' & He' & Hi & _)]; [exact Hz |].
  rewrite Heq, List.map_app in Hdisj. cbn [List.map] in Hdisj.
  apply StronglySorted_app in Hdisj as (Hcross & _ & _).
  specialize (Hcross (MemAllocEntry.liveIntrvl e') (MemAllocEntry.liveIntrvl e)).
  rewrite Hcross in Hi; [discriminate | |].
  - apply list_elem_of_In, List.in_map, He'.
  - now left.
Qed.

End Placement.

Lemma allocByLiveness_disjoint_lifetimes_share_zero_witness :
  Forall (fun e => MemAllocEntry.startAddr e = 0)
    (snd (allocByLiveness []
            [LiveInterval.mk 0 0 1; LiveInterval.mk 1 2 3; LiveInterval.mk 2 4 4]%nat
            (<[ 0%nat := 10 ]> (<[ 1%nat := 20 ]> (<[ 2%nat := 10 ]> ∅))))).
Proof.
  apply allocByLiveness_disjoint_lifetimes_share_zero.
  vm_compute. repeat constructor.
Defined.

(** ** The footprint of an allocation *)

Section Footprint.
Context {sorter : StdSort}.

Lemma total_required_nonneg' (vm : ValMemSizeMap) (lives : list LiveInterval.t) :
  sizes_nonneg vm lives -> 0 <= total_required vm lives.
Proof.
  induction 1 as [| li lives Hli _ IH]; cbn [total_required fold_right]; [lia |].
  fold (total_required vm lives).
  destruct (vm !! LiveInterval.getValue li) as [sz |]; [| exact IH].
  specialize (Hli sz eq_refl). lia.
Qed.

Lemma alloc_step_within (vm : ValMemSizeMap) (bound : Z)
      (allocs : MemAllocList) (minSize : Z) (li : LiveInterval.t) (sz : Z) :
  vm !! LiveInterval.getValue li = Some sz ->
  0 <= sz -> 0 <= bound -> bound + sz < 2 ^ 64 ->
  Forall (entry_within bound) allocs ->
  0 <= minSize <= bound ->
  Forall (entry_within (bound + sz)) (fst (alloc_step vm (allocs, minSize) li)) /\
  0 <= snd (alloc_step vm (allocs, minSize) li) <= bound + sz.
Proof.
  intros Hsz Hnn Hb Hfit Hwithin Hmin.
  rewrite (alloc_step_new_entry vm allocs minSize li sz Hsz). cbn [fst snd].
  assert (Hw : wrap64 sz = sz) by (unfold wrap64; apply Z.mod_small; lia).
  rewrite Hw.
  set (c := scan_conflicts (GetUsedMemRegions allocs li) 0 sz).
  assert (Hc : 0 <= c <= bound).
  { split; [apply scan_conflicts_ge |].
    destruct (scan_conflicts_origin (GetUsedMemRegions allocs li) 0 sz)
      as [Hz | (r & Hr & Hres)]; fold c in Hz || fold c in Hres; [lia |].
    apply GetUsedMemRegions_In in Hr as (e & He & _ & ->).
    rewrite List.Forall_forall in Hwithin. destruct (Hwithin e He) as (H0 & H1 & H2).
    cbn [region_of MemRegion.start MemRegion.size] in Hres.
    rewrite size_add_small in Hres by lia. lia. }
  split.
  - apply Forall_app. split.
    + eapply Forall_impl; [exact Hwithin |]. unfold entry_within. intros; lia.
    + repeat constructor; cbn; lia.
  - rewrite size_add_small by lia. lia.
Qed.

Lemma alloc_fold_within (vm : ValMemSizeMap) (lives : list LiveInterval.t) :
  forall (bound : Z) (allocs : MemAllocList) (minSize : Z),
    sizes_nonneg vm lives ->
    0 <= bound -> bound + total_required vm lives < 2 ^ 64 ->
    Forall (entry_within bound) allocs ->
    0 <= minSize <= bound ->
    Forall (entry_within (bound + total_required vm lives))
           (fst (fold_left (alloc_step vm) lives (allocs, minSize))) /\
    0 <= snd (fold_left (alloc_step vm) lives (allocs, minSize))
      <= bound + total_required vm lives.
Proof.
  induction lives as [| li lives IH];
    intros bound allocs minSize Hnn Hb Hfit Hwithin Hmin;
    cbn [fold_left total_required fold_right].
  - rewrite Z.add_0_r. cbn [fst snd]. split; assumption.
  - fold (total_required vm lives).
    cbn [total_required fold_right] in Hfit. fold (total_required vm lives) in Hfit.
    apply Forall_cons_1 in Hnn as [Hli Hnn].
    pose proof (total_required_nonneg' vm lives Hnn) as Htot.
    destruct (vm !! LiveInterval.getValue li) as [sz |] eqn:Hsz.
    + specialize (Hli sz eq_refl).
      destruct (alloc_step_within vm bound allocs minSize li sz)
        as [Hwithin' Hmin']; try assumption; try lia.
      destruct (alloc_step vm (allocs, minSize) li) as [allocs' minSize'].
      cbn [fst snd] in Hwithin', Hmin'.
      replace (bound + (sz + total_required vm lives))
        with ((bound + sz) + total_required vm lives) by lia.
      apply IH; try assumption; lia.
    + rewrite alloc_step_unmapped by (unfold in_map; now rewrite Hsz).
      now apply IH.
Qed.

Lemma allocByLiveness_within (old : MemAllocList) (lives : list LiveInterval.t)
      (vm : ValMemSizeMap) :
  sizes_nonneg vm lives ->
  total_required vm lives < 2 ^ 64 ->
  Forall (entry_within (total_required vm lives))
         (snd (allocByLiveness old lives vm)) /\
  0 <= fst (allocByLiveness old lives vm) <= total_required vm lives.
Proof.
  intros Hnn Hfit. rewrite allocByLiveness_unfold. cbn [fst snd]. unfold clear.
  destruct (alloc_fold_within vm lives 0 [] 0) as [H1 H2];
    try assumption; try lia; [constructor |].
  rewrite Z.add_0_l in H1, H2. now split.
Qed.

(** X8: when the requested sizes are non-negative and their sum fits
    [size_t], no address computation wraps around: every entry lies inside
    [0, sum of the sizes] and the peak is at most that sum. *)
Theorem allocByLiveness_within_total
        (old : MemAllocList) (lives : list LiveInterval.t) (vm : ValMemSizeMap) :
  sizes_nonneg vm lives ->
  total_required vm lives < 2 ^ 64 ->
  Forall (entry_within (total_required vm lives))
         (snd (allocByLiveness old lives vm)) /\
  0 <= fst (allocByLiveness old lives vm) <= total_required vm lives.
Proof. apply allocByLiveness_within. Qed.

End Footprint.

Lemma allocByLiveness_within_total_witness :
  Forall (entry_within
            (total_required
               (<[ 0%nat := 10 ]> (<[ 1%nat := 20 ]> (<[ 2%nat := 10 ]> ∅)))
               [LiveInterval.mk 0 0 2; LiveInterval.mk 1 1 3;
                LiveInterval.mk 2 3 4]%nat))
    (snd (allocByLiveness []
            [LiveInterval.mk 0 0 2; LiveInterval.mk 1 1 3; LiveInterval.mk 2 3 4]%nat
            (<[ 0%nat := 10 ]> (<[ 1%nat := 20 ]> (<[ 2%nat := 10 ]> ∅))))) /\
  0 <= fst (allocByLiveness []
            [LiveInterval.mk 0 0 2; LiveInterval.mk 1 1 3; LiveInterval.mk 2 3 4]%nat
            (<[ 0%nat := 10 ]> (<[ 1%nat := 20 ]> (<[ 2%nat := 10 ]> ∅))))
    <= total_required
         (<[ 0%nat := 10 ]> (<[ 1%nat := 20 ]> (<[ 2%nat := 10 ]> ∅)))
         [LiveInterval.mk 0 0 2; LiveInterval.mk 1 1 3; LiveInterval.mk 2 3 4]%nat.
Proof.
  apply allocByLiveness_within_total.
  - repeat apply List.Forall_cons; try apply List.Forall_nil;
      intros sz Hsz; vm_compute in Hsz; injection Hsz as <-; lia.
  - reflexivity.
Defined.

(** ** The peak against the sum the planner computes *)

Section PeakAgainstSum.
Context {sorter : StdSort}.

Lemma maxSize_sum_sizes (vm : ValMemSizeMap) :
  map_Forall (fun _ sz => 0 <= sz) vm ->
  sum_sizes vm < 2 ^ 64 ->
  maxSize vm = sum_sizes vm.
Proof.
  unfold maxSize, sum_sizes. rewrite !map_fold_foldr, map_Forall_to_list.
  induction (map_to_list vm) as [| [v sz] l IH]; cbn [foldr uncurry];
    intros Hnn Hfit; [reflexivity |].
  apply Forall_cons_1 in Hnn as [Hsz Hnn]. cbn [uncurry] in Hsz.
  assert (Hl : 0 <= foldr (uncurry (fun (_ : Value) (sz acc : Z) => sz + acc)) 0 l).
  { clear -Hnn. induction Hnn as [| [v' sz'] l' H' _ IH']; cbn [foldr uncurry];
      [lia |]. cbn [uncurry] in H'. lia. }
  rewrite IH by (assumption || lia).
  unfold wrap64. rewrite (Z.mod_small sz) by lia.
  rewrite Z.mod_small by lia. lia.
Qed.

Lemma total_required_le_sum (lives : list LiveInterval.t) :
  forall vm : ValMemSizeMap,
    map_Forall (fun _ sz => 0 <= sz) vm ->
    NoDup (List.map LiveInterval.getValue lives) ->
    total_required vm lives <= sum_sizes vm.
Proof.
  assert (Hsum : forall vm : ValMemSizeMap,
             map_Forall (fun _ sz => 0 <= sz) vm -> 0 <= sum_sizes vm).
  { intros vm. unfold sum_sizes. rewrite map_fold_foldr, map_Forall_to_list.
    induction 1 as [| [v sz] l Hsz _ IH]; cbn [foldr uncurry]; [lia |].
    cbn [uncurry] in Hsz. lia. }
  induction lives as [| li lives IH]; intros vm Hnn Hdup;
    cbn [total_required fold_right List.map].
  - now apply Hsum.
  - fold (total_required vm lives).
    cbn [List.map] in Hdup. apply NoDup_cons in Hdup as [Hfresh Hdup].
    destruct (vm !! LiveInterval.getValue li) as [sz |] eqn:Hsz; [| now apply IH].
    unfold sum_sizes.
    rewrite (map_fold_delete_L _ _ (LiveInterval.getValue li) sz vm);
      [| intros; lia | exact Hsz].
    fold (sum_sizes (delete (LiveInterval.getValue li) vm)).
    assert (Heq : total_required vm lives
                  = total_required (delete (LiveInterval.getValue li) vm) lives).
    { clear -Hfresh. induction lives as [| li' lives IH'];
        cbn [total_required fold_right]; [reflexivity |].
      cbn [List.map] in Hfresh. rewrite not_elem_of_cons in Hfresh.
      destruct Hfresh as [Hne Hfresh].
      rewrite lookup_delete_ne by exact Hne.
      fold (total_required vm lives).
      fold (total_required (delete (LiveInterval.getValue li) vm) lives).
      now rewrite IH'. }
    rewrite Heq.
    specialize (IH (delete (LiveInterval.getValue li) vm)
                   (map_Forall_delete _ _ _ Hnn) Hdup).
    lia.
Qed.

Lemma allocByLiveness_peak_le_sum (old : MemAllocList)
      (lives : list LiveInterval.t) (vm : ValMemSizeMap) :
  map_Forall (fun _ sz => 0 <= sz) vm ->
  sum_sizes vm < 2 ^ 64 ->
  NoDup (List.map LiveInterval.getValue lives) ->
  0 <= fst (allocByLiveness old lives vm) <= sum_sizes vm.
Proof.
  intros Hnn Hfit Hdup.
  pose proof (total_required_le_sum lives vm Hnn Hdup) as Hle.
  destruct (allocByLiveness_within old lives vm) as [_ Hpeak]; [| lia | lia].
  apply List.Forall_forall. intros li _ sz Hsz. exact (Hnn _ _ Hsz).
Qed.

(** X19: with non-negative sizes whose sum fits [uint64_t] and at most one
    live interval per value, the peak the allocator returns never exceeds
    [maxSize], the sum the planner computes before it calls the allocator. *)
Theorem allocByLiveness_peak_le_maxSize
        (old : MemAllocList) (lives : list LiveInterval.t) (vm : ValMemSizeMap) :
  map_Forall (fun _ sz => 0 <= sz) vm ->
  sum_sizes vm < 2 ^ 64 ->
  NoDup (List.map LiveInterval.getValue lives) ->
  fst (allocByLiveness old lives vm) <= maxSize vm.
Proof.
  intros Hnn Hfit Hdup.
  rewrite maxSize_sum_sizes by assumption.
  now apply allocByLiveness_peak_le_sum.
Qed.

End PeakAgainstSum.

Lemma allocByLiveness_peak_le_maxSize_witness :
  fst (allocByLiveness []
         [LiveInterval.mk 0 0 2; LiveInterval.mk 1 1 3; LiveInterval.mk 2 3 4]%nat
         (<[ 0%nat := 10 ]> (<[ 1%nat := 20 ]> (<[ 2%nat := 10 ]> ∅))))
  <= maxSize (<[ 0%nat := 10 ]> (<[ 1%nat := 20 ]> (<[ 2%nat := 10 ]> ∅))).
Proof.
  apply allocByLiveness_peak_le_maxSize.
  - repeat (apply map_Forall_insert_2; [lia |]). apply map_Forall_empty.
  - vm_compute. reflexivity.
  - vm_compute. repeat constructor; cbn; intros Hin;
      repeat (apply elem_of_cons in Hin as [Hin | Hin]; [discriminate |]);
      now apply elem_of_nil in Hin.
Defined.

(** ** Values that are all live together *)

Section LiveTogether.
Context {sorter : StdSort}.

Lemma filter_all {A : Type} (f : A -> bool) (l : list A) :
  Forall (fun x => f x = true) l -> List.filter f l = l.
Proof.
  induction 1 as [| x l Hx _ IH]; cbn [List.filter]; [reflexivity |].
  now rewrite Hx, IH.
Qed.

Lemma stacked_starts (l : MemAllocList) :
  forall base top,
    stacked base l top ->
    Forall (fun e => 0 < MemAllocEntry.size e) l ->
    base <= top /\
    Forall (fun e => base <= MemAllocEntry.startAddr e) l /\
    StronglySorted (fun a b => MemRegion.start a < MemRegion.start b)
      (List.map region_of l).
Proof.
  induction l as [| e l IH]; intros base top Hst Hpos; cbn [stacked] in Hst.
  - subst. repeat split; try constructor. lia.
  - destruct Hst as [He Hst]. apply Forall_cons_1 in Hpos as [Hpe Hpos].
    destruct (IH _ _ Hst Hpos) as (Hle & Hge & Hs).
    split; [lia |]. split.
    + constructor; [lia |]. eapply Forall_impl; [exact Hge |]. cbn. intros; lia.
    + cbn [List.map]. constructor; [exact Hs |].
      apply Forall_forall. intros r Hr. apply list_elem_of_In in Hr.
      apply in_map_iff in Hr as (e' & <- & He').
      rewrite List.Forall_forall in Hge. specialize (Hge e' He').
      cbn [region_of MemRegion.start]. lia.
Qed.

Lemma stacked_snoc (l : MemAllocList) (sz : Z) (li : LiveInterval.t) :
  forall base top,
    stacked base l top ->
    stacked base (l ++ [MemAllocEntry.mk top sz li]) (top + sz).
Proof.
  induction l as [| e l IH]; intros base top Hst; cbn [stacked app] in *.
  - subst. cbn. auto.
  - destruct Hst as [He Hst]. split; [exact He |]. now apply IH.
Qed.

Lemma scan_conflicts_stacked (required : Z) (l : MemAllocList) :
  forall base top,
    0 < required -> 0 <= base -> top + required < 2 ^ 64 ->
    stacked base l top ->
    Forall (fun e => 0 < MemAllocEntry.size e) l ->
    scan_conflicts (List.map region_of l) base required = top.
Proof.
  induction l as [| e l IH]; intros base top Hreq Hb Hfit Hst Hpos;
    cbn [stacked List.map scan_conflicts] in *; [now subst |].
  destruct Hst as [He Hst]. apply Forall_cons_1 in Hpos as [Hpe Hpos].
  destruct (stacked_starts l _ _ Hst Hpos) as (Hle & _ & _).
  cbn [region_of MemRegion.start MemRegion.size]. rewrite He.
  assert (Hc : HasConflict base (MemAllocEntry.size e) base required = true).
  { unfold HasConflict. cbv zeta. rewrite !size_add_small by lia.
    rewrite negb_true_iff, orb_false_iff, !Z.leb_gt. lia. }
  rewrite Hc. cbn [negb]. rewrite size_add_small by lia.
  apply IH; try assumption; lia.
Qed.

Lemma alloc_step_stacked (vm : ValMemSizeMap) (allocs : MemAllocList)
      (top : Z) (li : LiveInterval.t) (sz : Z) :
  vm !! LiveInterval.getValue li = Some sz ->
  0 < sz -> top + sz < 2 ^ 64 ->
  stacked 0 allocs top ->
  Forall (fun e => 0 < MemAllocEntry.size e) allocs ->
  Forall (fun e => LiveInterval.intersect (MemAllocEntry.liveIntrvl e) li = true)
         allocs ->
  alloc_step vm (allocs, top) li
  = (allocs ++ [MemAllocEntry.mk top sz li], top + sz).
Proof.
  intros Hsz Hpos Hfit Hst Hsizes Hint.
  destruct (stacked_starts allocs _ _ Hst Hsizes) as (Htop & _ & Hsorted).
  rewrite (alloc_step_new_entry vm allocs top li sz Hsz).
  assert (Hw : wrap64 sz = sz) by (unfold wrap64; apply Z.mod_small; lia).
  rewrite Hw.
  assert (Hconf : GetUsedMemRegions allocs li = List.map region_of allocs).
  { unfold GetUsedMemRegions. cbv zeta. fold region_of.
    rewrite filter_all by exact Hint.
    now apply std_sort_ascending. }
  rewrite Hconf, (scan_conflicts_stacked sz allocs 0 top) by (assumption || lia).
  rewrite size_add_small by lia.
  f_equal. lia.
Qed.

Lemma alloc_fold_stacked (vm : ValMemSizeMap) (lives : list LiveInterval.t) :
  forall (allocs : MemAllocList) (top : Z),
    sizes_positive vm lives ->
    top + total_required vm lives < 2 ^ 64 ->
    StronglySorted (fun a b => LiveInterval.intersect a b = true)
                   (List.filter (in_map vm) lives) ->
    stacked 0 allocs top ->
    Forall (fun e => 0 < MemAllocEntry.size e) allocs ->
    Forall (fun e =>
              Forall (fun li => LiveInterval.intersect
                                  (MemAllocEntry.liveIntrvl e) li = true)
                     (List.filter (in_map vm) lives)) allocs ->
    stacked 0 (fst (fold_left (alloc_step vm) lives (allocs, top)))
            (top + total_required vm lives) /\
    snd (fold_left (alloc_step vm) lives (allocs, top))
    = top + total_required vm lives.
Proof.
  induction lives as [| li lives IH];
    intros allocs top Hpos Hfit Hall Hst Hsizes Hint;
    cbn [fold_left total_required fold_right].
  - rewrite Z.add_0_r. cbn [fst snd]. now split.
  - fold (total_required vm lives).
    cbn [total_required fold_right] in Hfit. fold (total_required vm lives) in Hfit.
    apply Forall_cons_1 in Hpos as [Hli Hpos].
    pose proof (total_required_nonneg vm lives Hpos) as Htot.
    cbn [List.filter] in Hall, Hint. unfold in_map at 1 in Hall.
    unfold in_map at 1 in Hint.
    destruct (vm !! LiveInterval.getValue li) as [sz |] eqn:Hsz.
    + specialize (Hli sz eq_refl).
      apply StronglySorted_cons in Hall as [Hhead Hall].
      rewrite alloc_step_stacked with (sz := sz); try assumption; try lia.
      * replace (top + (sz + total_required vm lives))
          with ((top + sz) + total_required vm lives) by lia.
        apply IH; try assumption; try lia.
        -- now apply stacked_snoc.
        -- apply Forall_app. split; [exact Hsizes |]. repeat constructor. exact Hli.
        -- apply Forall_app. split.
           ++ eapply Forall_impl; [exact Hint |]. cbn beta.
              intros e He. now apply Forall_cons_1 in He as [_ He].
           ++ repeat constructor. exact Hhead.
      * eapply Forall_impl; [exact Hint |]. cbn beta.
        intros e He. now apply Forall_cons_1 in He as [He _].
    + rewrite alloc_step_unmapped by (unfold in_map; now rewrite Hsz).
      now apply IH.
Qed.

(** X9: when all the values with a size are live together (their
    intervals intersect pairwise), the sizes are positive and their sum
    fits [size_t], the allocator places the values back to back from
    address 0 in the order of the intervals, and the peak is the sum of the
    sizes: nothing is shared. *)
Theorem allocByLiveness_all_live_stacked
        (old : MemAllocList) (lives : list LiveInterval.t) (vm : ValMemSizeMap) :
  sizes_positive vm lives ->
  total_required vm lives < 2 ^ 64 ->
  StronglySorted (fun a b => LiveInterval.intersect a b = true)
                 (List.filter (in_map vm) lives) ->
  stacked 0 (snd (allocByLiveness old lives vm)) (total_required vm lives) /\
  fst (allocByLiveness old lives vm) = total_required vm lives.
Proof.
  intros Hpos Hfit Hall. rewrite allocByLiveness_unfold. cbn [fst snd]. unfold clear.
  destruct (alloc_fold_stacked vm lives [] 0) as [H1 H2];
    [exact Hpos | lia | exact Hall | reflexivity | constructor | constructor |].
  rewrite Z.add_0_l in H1, H2. now split.
Qed.

End LiveTogether.

Lemma allocByLiveness_all_live_stacked_witness :
  stacked 0
    (snd (allocByLiveness []
            [LiveInterval.mk 0 0 4; LiveInterval.mk 1 1 3; LiveInterval.mk 2 3 5]%nat
            (<[ 0%nat := 10 ]> (<[ 1%nat := 20 ]> (<[ 2%nat := 10 ]> ∅)))))
    (total_required
       (<[ 0%nat := 10 ]> (<[ 1%nat := 20 ]> (<[ 2%nat := 10 ]> ∅)))
       [LiveInterval.mk 0 0 4; LiveInterval.mk 1 1 3; LiveInterval.mk 2 3 5]%nat) /\
  fst (allocByLiveness []
         [LiveInterval.mk 0 0 4; LiveInterval.mk 1 1 3; LiveInterval.mk 2 3 5]%nat
         (<[ 0%nat := 10 ]> (<[ 1%nat := 20 ]> (<[ 2%nat := 10 ]> ∅))))
  = total_required
      (<[ 0%nat := 10 ]> (<[ 1%nat := 20 ]> (<[ 2%nat := 10 ]> ∅)))
      [LiveInterval.mk 0 0 4; LiveInterval.mk 1 1 3; LiveInterval.mk 2 3 5]%nat.
Proof.
  apply allocByLiveness_all_live_stacked.
  - repeat apply List.Forall_cons; try apply List.Forall_nil;
      intros sz Hsz; vm_compute in Hsz; injection Hsz as <-; lia.
  - reflexivity.
  - vm_compute. repeat constructor.
Defined.

(** * Further properties of the planner *)

(** ** A recorded peak that does not fit [int64_t] *)

Lemma binary_round_aux_sign (sx : bool) (m e : Z) (l : location) :
  has_sign sx (binary_round_aux 24 128 sx m e l).
Proof.
  unfold binary_round_aux.
  destruct (shr_fexp 24 128 m e l) as [mrs' e'].
  destruct (shr_fexp 24 128 _ e' loc_Exact) as [mrs'' e''].
  destruct (shr_m mrs''); [reflexivity | | exact I].
  destruct (IntDef.Z.leb e'' (IntDef.Z.sub 128 24)); reflexivity.
Qed.

Lemma float_of_Z_sign (z : Z) : has_sign (z <? 0) (float_of_Z z).
Proof.
  unfold float_of_Z, binary_normalize.
  destruct z as [| p | p]; [reflexivity | |];
    unfold binary_round;
    destruct (shl_align p 0 (fexp 24 128 (IntDef.Z.add (Z.pos (digits2_pos p)) 0)))
      as [mz ez];
    apply binary_round_aux_sign.
Qed.

Lemma SFdiv_sign (sx sy : bool) (x y : spec_float) :
  has_sign sx x -> has_sign sy y ->
  has_sign (xorb sx sy) (SFdiv 24 128 x y).
Proof.
  destruct x as [sx' | sx' | | sx' mx ex], y as [sy' | sy' | | sy' my ey];
    cbn [has_sign SFdiv]; intros Hx Hy; subst; try reflexivity; try exact I.
  destruct (SFdiv_core_binary 24 128 (Z.pos mx) ex (Z.pos my) ey) as [[mz ez] lz].
  apply binary_round_aux_sign.
Qed.

Lemma SFltb_threshold_negative (f : spec_float) :
  has_sign true f -> SFltb threshold f = false.
Proof.
  destruct f as [s | s | | s m e]; cbn [has_sign]; intros Hs; subst; reflexivity.
Qed.

Lemma exceeds_threshold_negative (minSize prevMinSize : Z) :
  0 <= minSize -> prevMinSize < 0 ->
  exceeds_threshold minSize prevMinSize = false.
Proof.
  intros Hmin Hprev. unfold exceeds_threshold.
  apply SFltb_threshold_negative.
  pose proof (float_of_Z_sign minSize) as Hx.
  pose proof (float_of_Z_sign prevMinSize) as Hy.
  replace (minSize <? 0) with false in Hx by (symmetry; apply Z.ltb_ge; lia).
  replace (prevMinSize <? 0) with true in Hy by (symmetry; apply Z.ltb_lt; lia).
  exact (SFdiv_sign false true _ _ Hx Hy).
Qed.

Lemma to_int64_negative (z : Z) : 2 ^ 63 <= z < 2 ^ 64 -> to_int64 z = z - 2 ^ 64.
Proof.
  intros Hz. unfold to_int64, wrap64. cbv zeta.
  rewrite Z.mod_small by lia.
  destruct (Z.ltb_spec z (2 ^ 63)); lia.
Qed.

Section PlannerExtras.
Context {M : Type} `{SplitGraphManager M}.
Context {sorter : StdSort}.
Variable livesInfo : list LiveInterval.t.

(** X17: a peak of 2^63 or more is recorded in [prevMinSize] as a negative
    number, and with a negative [prevMinSize] the iteration cannot reach
    the split block: the quotient is not positive, so the planner accepts
    or shrinks again. *)
Theorem recorded_peak_above_int64_never_splits
        (localMemSize : Z) (g : SplitGraph) (s : State M) (recorded : Z) :
  2 ^ 63 <= recorded < 2 ^ 64 ->
  to_int64 recorded < 0 /\
  plannerIter livesInfo localMemSize g s (to_int64 recorded)
  = (if peak_of livesInfo (sgMgr s) g <? localMemSize
     then Break Accepted (snd (allocStep livesInfo g s))
     else shrinkStep g (snd (allocStep livesInfo g s))
            (peak_of livesInfo (sgMgr s) g)).
Proof.
  intros Hrec. rewrite to_int64_negative by exact Hrec.
  split; [lia |].
  rewrite plannerIter_eq. cbv zeta.
  pose proof (peak_of_range livesInfo (sgMgr s) g) as Hpeak.
  rewrite exceeds_threshold_negative by lia.
  now rewrite andb_false_r.
Qed.

(** X11: what the planner loop leaves in [m_MemAllocList].  After an
    acceptance it is the placement of the sub-graph's current sizes, whose
    peak is below the budget.  After an abandonment it is still the
    placement that did not fit: the one computed before the sizes were
    reset and the split was refused. *)
Theorem plannerLoop_final_allocation
        (localMemSize : Z) (g : SplitGraph) (fuel : nat) :
  forall (s : State M) (prevMinSize : Z) (v : Verdict) (s' : State M),
    plannerLoop livesInfo fuel localMemSize g s prevMinSize = Some (v, s') ->
    match v with
    | Accepted =>
        m_MemAllocList s'
        = snd (allocByLiveness [] livesInfo (getMemUsage (sgMgr s') g)) /\
        peak_of livesInfo (sgMgr s') g < localMemSize
    | Abandoned =>
        exists m,
          m_MemAllocList s'
          = snd (allocByLiveness [] livesInfo (getMemUsage m g)) /\
          localMemSize <= peak_of livesInfo m g /\
          splitNewSubGraph (resetToOrigSize m g) g = (sgMgr s', None)
    end.
Proof.
  induction fuel as [| fuel IH]; intros s prev v s' Hrun; [discriminate |].
  cbn [plannerLoop] in Hrun. rewrite plannerIter_eq in Hrun. cbv zeta in Hrun.
  destruct (Z.ltb_spec (peak_of livesInfo (sgMgr s) g) localMemSize) as [Hlt | Hge].
  - injection Hrun as <- <-. rewrite allocStep_eq. cbn [snd m_MemAllocList sgMgr].
    now split.
  - destruct (_ && _).
    + rewrite splitStep_cases in Hrun. cbv zeta in Hrun.
      rewrite allocStep_sgMgr in Hrun.
      destruct (splitNewSubGraph (resetToOrigSize (sgMgr s) g) g)
        as [m2 [g' |]] eqn:Hsplit; cbn [fst snd] in Hrun.
      * now apply IH in Hrun.
      * injection Hrun as <- <-. exists (sgMgr s). cbn [m_MemAllocList sgMgr].
        rewrite allocStep_eq. cbn [snd m_MemAllocList]. now repeat split.
    + now apply IH in Hrun.
Qed.

(** ** Shrinking comes before splitting *)

Lemma shrunk_before_split_snoc (tr : list Event) (e : Event) :
  shrunk_before_split tr ->
  (forall g r, e = SplitNewSubGraph g r ->
               exists pre' q p,
                 tr = pre' ++ [ErrsKb q; ShrinkSize g; GetMemUsage g;
                               AllocByLiveness p; ResetToOrigSize g]) ->
  shrunk_before_split (tr ++ [e]).
Proof.
  intros Htr He pre g r post Heq.
  apply snoc_decompose in Heq as [(_ & <- & Heq) | (post' & _ & Heq)].
  - now apply (He g r).
  - now apply (Htr pre g r post').
Qed.

Lemma shrunk_before_split_app (tr ext : list Event) :
  shrunk_before_split tr ->
  Forall (fun e => forall g r, e <> SplitNewSubGraph g r) ext ->
  shrunk_before_split (tr ++ ext).
Proof.
  intros Htr Hext. revert tr Htr.
  induction Hext as [| e ext He _ IH]; intros tr Htr.
  - now rewrite app_nil_r.
  - change (e :: ext) with ([e] ++ ext). rewrite app_assoc. apply IH.
    apply shrunk_before_split_snoc; [exact Htr |].
    intros g r Heq. now destruct (He g r).
Qed.

Lemma shrunk_before_split_nil : shrunk_before_split [].
Proof. intros pre g r post Heq. now destruct pre. Qed.

(** The invariant of the inner loop: a prior candidate is there only right
    after a shrink of the sub-graph. *)
Lemma plannerIter_shrunk (localMemSize : Z) (g : SplitGraph) (s : State M)
      (prevMinSize : Z) :
  shrunk_before_split (trace s) ->
  (prevMinSize <> 0 ->
   exists tr q, trace s = tr ++ [ErrsKb q; ShrinkSize g]) ->
  match plannerIter livesInfo localMemSize g s prevMinSize with
  | Break _ s' => shrunk_before_split (trace s')
  | Continue s' prevMinSize' =>
      shrunk_before_split (trace s') /\
      (prevMinSize' <> 0 ->
       exists tr q, trace s' = tr ++ [ErrsKb q; ShrinkSize g])
  end.
Proof.
  intros Htr Hprev. rewrite plannerIter_eq. cbv zeta.
  assert (H1 : shrunk_before_split (trace (snd (allocStep livesInfo g s)))).
  { rewrite allocStep_eq. cbn [snd trace].
    apply shrunk_before_split_app; [exact Htr | repeat constructor; discriminate]. }
  destruct (_ <? _); [exact H1 |].
  destruct (Z.eqb_spec prevMinSize 0) as [Hz | Hnz]; cbn [negb andb].
  - cbn [shrinkStep]. cbv zeta. split; [| eauto].
    apply shrunk_before_split_app; [exact H1 | repeat constructor; discriminate].
  - destruct (exceeds_threshold _ _).
    + destruct (Hprev Hnz) as (tr & q & Htail).
      assert (H2 : forall r,
                 shrunk_before_split
                   (trace (snd (allocStep livesInfo g s))
                    ++ [ResetToOrigSize g; SplitNewSubGraph g r])).
      { intros r.
        change [ResetToOrigSize g; SplitNewSubGraph g r]
          with ([ResetToOrigSize g] ++ [SplitNewSubGraph g r]).
        rewrite app_assoc. apply shrunk_before_split_snoc.
        - apply shrunk_before_split_app; [exact H1 |].
          repeat constructor. discriminate.
        - intros g0 r0 [= <- <-]. rewrite allocStep_eq. cbn [snd trace].
          rewrite Htail. exists tr, q. eexists.
          rewrite <- !app_assoc. reflexivity. }
      rewrite splitStep_cases. cbv zeta.
      destruct (snd (splitNewSubGraph _ g)) as [g' |]; cbn [trace].
      * split; [apply H2 | intros Hne; now destruct Hne].
      * apply shrunk_before_split_app; [apply H2 |].
        repeat constructor. discriminate.
    + cbn [shrinkStep]. cbv zeta. split; [| eauto].
      apply shrunk_before_split_app; [exact H1 | repeat constructor; discriminate].
Qed.

Lemma plannerLoop_shrunk (localMemSize : Z) (g : SplitGraph) (fuel : nat) :
  forall (s : State M) (prevMinSize : Z) (v : Verdict) (s' : State M),
    plannerLoop livesInfo fuel localMemSize g s prevMinSize = Some (v, s') ->
    shrunk_before_split (trace s) ->
    (prevMinSize <> 0 ->
     exists tr q, trace s = tr ++ [ErrsKb q; ShrinkSize g]) ->
    shrunk_before_split (trace s').
Proof.
  induction fuel as [| fuel IH]; intros s prev v s' Hrun Htr Hprev; [discriminate |].
  cbn [plannerLoop] in Hrun.
  pose proof (plannerIter_shrunk localMemSize g s prev Htr Hprev) as Hres.
  destruct (plannerIter livesInfo localMemSize g s prev) as [v1 s1 | s1 prev1].
  - injection Hrun as <- <-. exact Hres.
  - destruct Hres as [H1 H2]. eapply IH; eauto.
Qed.

Lemma worklistLoop_shrunk (localMemSize : Z) (fuel : nat) :
  forall (s s' : State M),
    worklistLoop livesInfo fuel localMemSize s = Some s' ->
    shrunk_before_split (trace s) -> shrunk_before_split (trace s').
Proof.
  induction fuel as [| fuel IH]; intros s s' Hrun Htr; [discriminate |].
  cbn [worklistLoop] in Hrun.
  destruct (worklist s) as [| g rest]; [now injection Hrun as <- |].
  destruct (plannerLoop livesInfo fuel localMemSize g (enterPlanner s rest) 0)
    as [[v s1] |] eqn:Hplan; [| discriminate].
  apply IH in Hrun; [exact Hrun |].
  cbn [leavePlanner trace].
  apply shrunk_before_split_app; [| repeat constructor; discriminate].
  eapply plannerLoop_shrunk; [exact Hplan | | intros Hne; now destruct Hne].
  cbn [enterPlanner trace].
  apply shrunk_before_split_app; [exact Htr | repeat constructor; discriminate].
Qed.

(** X12: over a whole run of the pass, a split is requested only at the
    end of the sequence shrink, usage, allocation, reset for the same
    sub-graph: no sub-graph is split, and none is given up, before it has
    been shrunk and placed again. *)
Theorem runOnModule_shrinks_before_split
        (fuel : nat) (backend : option DLATargetBackend)
        (newSgMgr : DLATargetBackend -> M) (old : MemAllocList)
        (tr0 : list Event) (r : Result) :
  runOnModule livesInfo fuel backend newSgMgr old tr0 = Some r ->
  shrunk_before_split tr0 -> shrunk_before_split (events r).
Proof.
  unfold runOnModule. intros Hrun Htr. destruct backend as [b |].
  - destruct (worklistLoop _ _ _ _) as [s |] eqn:Hloop; [| discriminate].
    injection Hrun as <-. cbn [events].
    apply shrunk_before_split_app; [| repeat constructor; discriminate].
    eapply worklistLoop_shrunk; [exact Hloop |]. cbn [trace].
    apply shrunk_before_split_app; [exact Htr | repeat constructor; discriminate].
  - injection Hrun as <-. cbn [events].
    apply shrunk_before_split_app; [exact Htr | repeat constructor; discriminate].
Qed.
End PlannerExtras.

(** ** Every sub-graph is planned once *)

Lemma count_events_app (p : Event -> bool) (a b : list Event) :
  count_events p (a ++ b) = (count_events p a + count_events p b)%nat.
Proof. unfold count_events. now rewrite List.filter_app, length_app. Qed.

Section PassExtras.
Context {M : Type} `{SplitGraphManager M}.
Context {sorter : StdSort}.
Variable livesInfo : list LiveInterval.t.

(** What one iteration adds to the trace and to the worklist. *)
Lemma plannerIter_events (localMemSize : Z) (g : SplitGraph) (s : State M)
      (prevMinSize : Z) :
  exists ext pushed,
    trace (result_state (plannerIter livesInfo localMemSize g s prevMinSize))
    = trace s ++ ext /\
    worklist (result_state (plannerIter livesInfo localMemSize g s prevMinSize))
    = pushed ++ worklist s /\
    count_events is_announcement ext = 0%nat /\
    count_events is_end_of_planning ext = 0%nat /\
    count_events is_new_subgraph ext = length pushed.
Proof.
  rewrite plannerIter_eq. cbv zeta. rewrite allocStep_eq. cbn [snd].
  destruct (_ <? _).
  { eexists. exists []. cbn [result_state trace worklist app]. now repeat split. }
  destruct (_ && _).
  - rewrite splitStep_cases. cbv zeta. cbn [sgMgr trace worklist m_MemAllocList].
    destruct (snd (splitNewSubGraph _ g)) as [g' |];
      cbn [result_state trace worklist].
    + eexists. exists [g']. rewrite <- !app_assoc. now repeat split.
    + eexists. exists []. rewrite <- !app_assoc. now repeat split.
  - cbn [shrinkStep result_state trace worklist]. cbv zeta.
    cbn [trace worklist].
    eexists. exists []. rewrite <- !app_assoc. now repeat split.
Qed.

Lemma plannerLoop_events (localMemSize : Z) (g : SplitGraph) (fuel : nat) :
  forall (s : State M) (prevMinSize : Z) (v : Verdict) (s' : State M),
    plannerLoop livesInfo fuel localMemSize g s prevMinSize = Some (v, s') ->
    exists ext pushed,
      trace s' = trace s ++ ext /\
      worklist s' = pushed ++ worklist s /\
      count_events is_announcement ext = 0%nat /\
      count_events is_end_of_planning ext = 0%nat /\
      count_events is_new_subgraph ext = length pushed.
Proof.
  induction fuel as [| fuel IH]; intros s prev v s' Hrun; [discriminate |].
  cbn [plannerLoop] in Hrun.
  destruct (plannerIter_events localMemSize g s prev)
    as (ext1 & pushed1 & Ht1 & Hw1 & Ha1 & He1 & Hn1).
  destruct (plannerIter livesInfo localMemSize g s prev) as [v1 s1 | s1 prev1];
    cbn [result_state] in Ht1, Hw1.
  - injection Hrun as <- <-. exists ext1, pushed1. now repeat split.
  - apply IH in Hrun as (ext2 & pushed2 & Ht2 & Hw2 & Ha2 & He2 & Hn2).
    exists (ext1 ++ ext2), (pushed2 ++ pushed1).
    rewrite Ht2, Ht1, Hw2, Hw1, <- !app_assoc, !count_events_app, length_app.
    repeat split; lia.
Qed.

Lemma worklistLoop_events (localMemSize : Z) (fuel : nat) :
  forall (s s' : State M),
    worklistLoop livesInfo fuel localMemSize s = Some s' ->
    worklist s' = [] /\
    exists ext,
      trace s' = trace s ++ ext /\
      count_events is_announcement ext
      = (length (worklist s) + count_events is_new_subgraph ext)%nat /\
      count_events is_end_of_planning ext = count_events is_announcement ext.
Proof.
  induction fuel as [| fuel IH]; intros s s' Hrun; [discriminate |].
  cbn [worklistLoop] in Hrun.
  destruct (worklist s) as [| g rest] eqn:Hwl.
  { injection Hrun as <-. split; [exact Hwl |].
    exists []. now rewrite app_nil_r. }
  destruct (plannerLoop livesInfo fuel localMemSize g (enterPlanner s rest) 0)
    as [[v s1] |] eqn:Hplan; [| discriminate].
  apply plannerLoop_events in Hplan
    as (ext1 & pushed & Ht1 & Hw1 & Ha1 & He1 & Hn1).
  apply IH in Hrun as (Hempty & ext2 & Ht2 & Ha2 & He2).
  split; [exact Hempty |].
  cbn [leavePlanner enterPlanner trace worklist] in Ht1, Hw1, Ht2, Ha2.
  exists ([Errs msg_alloc_or_shrink] ++ ext1 ++ [Outs msg_newline] ++ ext2).
  rewrite Ht2, Ht1, Hw1, length_app in *.
  rewrite <- !app_assoc, !count_events_app.
  change (count_events is_announcement [Errs msg_alloc_or_shrink]) with 1%nat.
  change (count_events is_announcement [Outs msg_newline]) with 0%nat.
  change (count_events is_end_of_planning [Errs msg_alloc_or_shrink]) with 0%nat.
  change (count_events is_end_of_planning [Outs msg_newline]) with 1%nat.
  change (count_events is_new_subgraph [Errs msg_alloc_or_shrink]) with 0%nat.
  change (count_events is_new_subgraph [Outs msg_newline]) with 0%nat.
  cbn [length]. repeat split; lia.
Qed.

(** X14: a run of the pass with a backend plans every sub-graph once: the
    worklist is worked off completely, and the number of plannings opened
    (and closed) is the number of sub-graphs the manager starts with plus
    the number of splits that yielded a new sub-graph. *)
Theorem runOnModule_plans_every_subgraph_once
        (fuel : nat) (b : DLATargetBackend)
        (newSgMgr : DLATargetBackend -> M) (old : MemAllocList)
        (tr0 : list Event) (r : Result) :
  runOnModule livesInfo fuel (Some b) newSgMgr old tr0 = Some r ->
  exists ext,
    events r = tr0 ++ [SchedulerRun; LivenessRun] ++ ext ++ [Dump] /\
    count_events is_announcement ext
    = (length (getSplitGraphs (newSgMgr b))
       + count_events is_new_subgraph ext)%nat /\
    count_events is_end_of_planning ext = count_events is_announcement ext.
Proof.
  unfold runOnModule. cbv zeta.
  destruct (worklistLoop _ _ _ _) as [s |] eqn:Hloop; [| discriminate].
  intros [= <-]. cbn [events].
  apply worklistLoop_events in Hloop as (_ & ext & Ht & Ha & He).
  cbn [trace worklist] in Ht, Ha. rewrite length_rev in Ha.
  exists ext. rewrite Ht, <- !app_assoc. now repeat split.
Qed.

(** X16: with a backend but no sub-graph to plan, the pass runs the
    scheduler and the liveness analysis, empties the list of entries
    (whatever it held before), dumps the manager and returns
    [kModuleNoChanged]. *)
Theorem runOnModule_without_subgraphs
        (fuel : nat) (b : DLATargetBackend)
        (newSgMgr : DLATargetBackend -> M) (old : MemAllocList)
        (tr0 : list Event) :
  getSplitGraphs (newSgMgr b) = [] ->
  runOnModule livesInfo (S fuel) (Some b) newSgMgr old tr0
  = Some (mkResult kModuleNoChanged []
            (tr0 ++ [SchedulerRun; LivenessRun; Dump])).
Proof.
  intros Hnone. unfold runOnModule. cbv zeta. rewrite Hnone.
  cbn [rev worklistLoop worklist m_MemAllocList trace clear].
  now rewrite <- app_assoc.
Qed.

(** ** Termination of the pass *)

Lemma plannerLoop_fuel_mono (localMemSize : Z) (g : SplitGraph) (fuel : nat) :
  forall (fuel' : nat) (s : State M) (prevMinSize : Z) (r : Verdict * State M),
    plannerLoop livesInfo fuel localMemSize g s prevMinSize = Some r ->
    (fuel <= fuel')%nat ->
    plannerLoop livesInfo fuel' localMemSize g s prevMinSize = Some r.
Proof.
  induction fuel as [| fuel IH]; intros fuel' s prev r Hrun Hle; [discriminate |].
  destruct fuel' as [| fuel']; [lia |].
  cbn [plannerLoop] in *.
  destruct (plannerIter livesInfo localMemSize g s prev); [exact Hrun |].
  apply IH; [exact Hrun | lia].
Qed.

Lemma worklistLoop_fuel_mono (localMemSize : Z) (fuel : nat) :
  forall (fuel' : nat) (s s' : State M),
    worklistLoop livesInfo fuel localMemSize s = Some s' ->
    (fuel <= fuel')%nat ->
    worklistLoop livesInfo fuel' localMemSize s = Some s'.
Proof.
  induction fuel as [| fuel IH]; intros fuel' s s' Hrun Hle; [discriminate |].
  destruct fuel' as [| fuel']; [lia |].
  cbn [worklistLoop] in *.
  destruct (worklist s) as [| g rest]; [exact Hrun |].
  destruct (plannerLoop livesInfo fuel localMemSize g (enterPlanner s rest) 0)
    as [[v s1] |] eqn:Hplan; [| discriminate].
  rewrite (plannerLoop_fuel_mono _ _ _ fuel' _ _ _ Hplan) by lia.
  apply IH; [exact Hrun | lia].
Qed.

Section Policy.
Variable localMemSize : Z.
Variable Inv : M -> Prop.
Variable mu : SplitGraph -> M -> nat.
Variable nu : M -> nat.
Hypothesis budget_pos : 0 < localMemSize.
Hypothesis policy : ConvergingPass livesInfo Inv mu nu.

(** The planner loop keeps the invariant, and pays for every sub-graph it
    pushes with a unit of [nu]. *)
Lemma plannerLoop_progress (g : SplitGraph) (fuel : nat) :
  forall (s : State M) (prevMinSize : Z) (v : Verdict) (s' : State M),
    plannerLoop livesInfo fuel localMemSize g s prevMinSize = Some (v, s') ->
    Inv (sgMgr s) ->
    Inv (sgMgr s') /\
    exists pushed,
      worklist s' = pushed ++ worklist s /\
      (nu (sgMgr s') + length pushed <= nu (sgMgr s))%nat.
Proof.
  pose proof (pass_converging _ _ _ _ policy g) as conv.
  induction fuel as [| fuel IH]; intros s prev v s' Hrun Hinv; [discriminate |].
  cbn [plannerLoop] in Hrun. rewrite plannerIter_eq in Hrun. cbv zeta in Hrun.
  destruct (_ <? _).
  { injection Hrun as <- <-. rewrite allocStep_sgMgr, allocStep_worklist.
    split; [exact Hinv |]. exists []. cbn [app length]. split; [reflexivity | lia]. }
  pose proof (conv_reset_inv _ _ _ _ _ conv _ Hinv) as Hinv1.
  pose proof (conv_reset_nu _ _ _ _ _ conv _ Hinv) as Hnu1.
  pose proof (conv_split_inv _ _ _ _ _ conv _ Hinv1) as Hinv2.
  destruct (_ && _).
  - rewrite splitStep_cases in Hrun. cbv zeta in Hrun.
    rewrite allocStep_sgMgr, allocStep_worklist in Hrun.
    destruct (snd (splitNewSubGraph (resetToOrigSize (sgMgr s) g) g))
      as [g' |] eqn:Hsplit.
    + pose proof (conv_split _ _ _ _ _ conv _ g' Hinv1 Hsplit) as Hnu2.
      apply IH in Hrun as (Hinv' & pushed & Hw & Hnu); [| exact Hinv2].
      cbn [sgMgr worklist] in Hw, Hnu.
      split; [exact Hinv' |]. exists (pushed ++ [g']).
      rewrite Hw, <- app_assoc, length_app. cbn [app length].
      split; [reflexivity | lia].
    + pose proof (pass_refused _ _ _ _ policy _ g Hinv1 Hsplit) as Hnu2.
      injection Hrun as <- <-. cbn [sgMgr worklist].
      split; [exact Hinv2 |]. exists []. cbn [app length].
      split; [reflexivity | lia].
  - unfold shrinkStep in Hrun. cbv zeta in Hrun.
    rewrite allocStep_sgMgr, allocStep_worklist in Hrun.
    pose proof (conv_shrink_inv _ _ _ _ _ conv _ Hinv) as Hinv'.
    pose proof (conv_shrink_nu _ _ _ _ _ conv _ Hinv) as Hnu'.
    apply IH in Hrun as (Hinv'' & pushed & Hw & Hnu); [| exact Hinv'].
    cbn [sgMgr worklist] in Hw, Hnu.
    split; [exact Hinv'' |]. exists pushed. split; [exact Hw | lia].
Qed.

Lemma worklistLoop_terminates_from (n : nat) :
  forall s : State M,
    Inv (sgMgr s) ->
    (length (worklist s) + nu (sgMgr s) <= n)%nat ->
    exists fuel s', worklistLoop livesInfo fuel localMemSize s = Some s'.
Proof.
  induction n as [| n IH]; intros s Hinv Hn.
  - exists 1%nat, s. cbn [worklistLoop].
    destruct (worklist s); [reflexivity | cbn [length] in Hn; lia].
  - destruct (worklist s) as [| g rest] eqn:Hwl.
    { exists 1%nat, s. cbn [worklistLoop]. now rewrite Hwl. }
    cbn [length] in Hn.
    destruct (plannerLoop_terminates_from livesInfo localMemSize g Inv (mu g) nu
                budget_pos (pass_converging _ _ _ _ policy g)
                (nu (sgMgr s)) (mu g (sgMgr s)) (enterPlanner s rest) 0
                Hinv ltac:(cbn; lia) ltac:(cbn; lia))
      as (fuel1 & v & s1 & Hplan).
    destruct (plannerLoop_progress g fuel1 _ _ _ _ Hplan Hinv)
      as (Hinv1 & pushed & Hw1 & Hnu1).
    cbn [enterPlanner sgMgr worklist] in Hw1, Hnu1.
    destruct (IH (leavePlanner s1)) as (fuel2 & s' & Hloop).
    + exact Hinv1.
    + cbn [leavePlanner sgMgr worklist]. rewrite Hw1, length_app. lia.
    + exists (S (Nat.max fuel1 fuel2)), s'. cbn [worklistLoop]. rewrite Hwl.
      rewrite (plannerLoop_fuel_mono _ _ _ (Nat.max fuel1 fuel2) _ _ _ Hplan) by lia.
      apply (worklistLoop_fuel_mono _ fuel2); [exact Hloop | lia].
Qed.
End Policy.

(** X15: with a positive budget and a policy that converges on every
    sub-graph, a run of the pass with a backend terminates: from some
    amount of fuel on, [runOnModule] returns one and the same result, with
    status [kModuleNoChanged]. *)
Theorem runOnModule_terminates
        (b : DLATargetBackend) (newSgMgr : DLATargetBackend -> M)
        (Inv : M -> Prop) (mu : SplitGraph -> M -> nat) (nu : M -> nat)
        (old : MemAllocList) (tr0 : list Event) :
  0 < wrap64 (getLocalMemSize b) ->
  ConvergingPass livesInfo Inv mu nu ->
  Inv (newSgMgr b) ->
  exists fuel r,
    status r = kModuleNoChanged /\
    forall fuel', (fuel <= fuel')%nat ->
      runOnModule livesInfo fuel' (Some b) newSgMgr old tr0 = Some r.
Proof.
  intros Hpos Hpolicy Hinv.
  set (s0 := mkState (clear old) (newSgMgr b) (rev (getSplitGraphs (newSgMgr b)))
               (tr0 ++ [SchedulerRun; LivenessRun])).
  destruct (worklistLoop_terminates_from (wrap64 (getLocalMemSize b)) Inv mu nu
              Hpos Hpolicy (length (worklist s0) + nu (sgMgr s0)) s0 Hinv
              ltac:(lia)) as (fuel & s' & Hloop).
  exists fuel. eexists. split; [| intros fuel' Hle; unfold runOnModule; cbv zeta;
    fold s0; rewrite (worklistLoop_fuel_mono _ _ fuel' _ _ Hloop Hle); reflexivity].
  reflexivity.
Qed.
End PassExtras.

(** ** The further properties on the synthetic manager *)

Lemma synthetic_lives_values (n : nat) :
  List.map LiveInterval.getValue (Synthetic.lives n) = seq 0 n.
Proof.
  unfold Synthetic.lives. rewrite List.map_map. cbn [LiveInterval.getValue].
  apply List.map_id.
Qed.

Lemma synthetic_peak_bound (n : nat) (m : Synthetic.Mgr) (g : SplitGraph) :
  Synthetic.in_range m ->
  peak_of (Synthetic.lives n) m g < 2 ^ 63.
Proof.
  intros Hm. unfold peak_of.
  change (getMemUsage m g) with (Synthetic.usage m g). unfold Synthetic.usage.
  assert (Hdup : NoDup (List.map LiveInterval.getValue (Synthetic.lives n)))
    by (rewrite synthetic_lives_values; apply NoDup_seq).
  destruct (Synthetic.graphs m !! g) as [x |] eqn:Hx.
  - pose proof (Forall_lookup_1 _ _ _ _ Hm Hx) as [Hc _]. cbn beta in Hc.
    assert (Hsum : sum_sizes ({[ g := Synthetic.cur x ]} : ValMemSizeMap)
                   = Synthetic.cur x + 0)
      by (unfold sum_sizes; now rewrite map_fold_singleton).
    destruct (allocByLiveness_peak_le_sum [] (Synthetic.lives n)
                {[ g := Synthetic.cur x ]}) as [_ Hle];
      [| rewrite Hsum; lia | exact Hdup | rewrite Hsum in Hle; lia].
    apply map_Forall_singleton. lia.
  - assert (Hsum : sum_sizes (∅ : ValMemSizeMap) = 0)
      by (unfold sum_sizes; now rewrite map_fold_empty).
    destruct (allocByLiveness_peak_le_sum [] (Synthetic.lives n) ∅) as [_ Hle];
      [apply map_Forall_empty | rewrite Hsum; lia | exact Hdup |].
    rewrite Hsum in Hle. lia.
Qed.

Lemma synthetic_converging_pass (n : nat) :
  ConvergingPass (Synthetic.lives n) Synthetic.in_range
                 Synthetic.shrink_room Synthetic.splits_left.
Proof.
  split; [intros g; split |];
    cbn [shrinkSize resetToOrigSize splitNewSubGraph getMemUsage
         Synthetic.manager].
  - intros m Hm. unfold Synthetic.shrink.
    destruct (Synthetic.graphs m !! g) as [x |] eqn:Hx; [| exact Hm].
    unfold Synthetic.in_range in *. cbn [Synthetic.graphs].
    apply Forall_insert; [exact Hm |].
    pose proof (Forall_lookup_1 _ _ _ _ Hm Hx) as [Hc Ho]. cbn beta in Hc, Ho.
    cbn [Synthetic.cur Synthetic.orig]. split; [| exact Ho].
    pose proof (Z.mul_div_le (Synthetic.cur x) 2 ltac:(lia)).
    pose proof (Z.div_pos (Synthetic.cur x) 2 ltac:(lia) ltac:(lia)).
    destruct (_ <? _); lia.
  - intros m Hm. unfold Synthetic.reset.
    destruct (Synthetic.graphs m !! g) as [x |] eqn:Hx; [| exact Hm].
    unfold Synthetic.in_range in *. cbn [Synthetic.graphs].
    apply Forall_insert; [exact Hm |].
    pose proof (Forall_lookup_1 _ _ _ _ Hm Hx) as [Hc Ho]. cbn beta in Hc, Ho.
    cbn [Synthetic.cur Synthetic.orig]. lia.
  - intros m Hm. unfold Synthetic.split.
    destruct (Synthetic.splits_left m) as [| k]; [exact Hm |].
    destruct (Synthetic.graphs m !! g) as [x |] eqn:Hx; [| exact Hm].
    unfold Synthetic.in_range in *. cbn [fst Synthetic.graphs].
    pose proof (Forall_lookup_1 _ _ _ _ Hm Hx) as [Hc Ho]. cbn beta in Hc, Ho.
    pose proof (Z.mul_div_le (Synthetic.orig x) 2 ltac:(lia)).
    pose proof (Z.div_pos (Synthetic.orig x) 2 ltac:(lia) ltac:(lia)).
    apply Forall_app. split; [apply Forall_insert; [exact Hm |] | repeat constructor];
      cbn [Synthetic.cur Synthetic.orig]; lia.
  - intros m Hm. unfold Synthetic.shrink, Synthetic.shrink_room, Synthetic.usage.
    destruct (Synthetic.graphs m !! g) as [x |] eqn:Hx;
      [| rewrite Hx; now left].
    pose proof (Forall_lookup_1 _ _ _ _ Hm Hx) as [Hc Ho]. cbn beta in Hc, Ho.
    cbn [Synthetic.graphs].
    rewrite list_lookup_insert_eq by (eapply lookup_lt_Some; exact Hx).
    cbn [Synthetic.cur].
    pose proof (Z.mul_div_le (Synthetic.cur x) 2 ltac:(lia)).
    pose proof (Z.div_pos (Synthetic.cur x) 2 ltac:(lia) ltac:(lia)).
    destruct (_ <? _); [now left |].
    destruct (Z.eq_dec (Synthetic.cur x / 2) (Synthetic.cur x)) as [-> | Hne];
      [now left | right; lia].
  - intros m _. unfold Synthetic.shrink.
    now destruct (Synthetic.graphs m !! g).
  - intros m _. unfold Synthetic.reset.
    now destruct (Synthetic.graphs m !! g).
  - intros m g' _. unfold Synthetic.split.
    destruct (Synthetic.splits_left m) as [| k]; [discriminate |].
    destruct (Synthetic.graphs m !! g); [| discriminate].
    cbn [fst Synthetic.splits_left]. lia.
  - intros m Hm. now apply synthetic_peak_bound.
  - intros m g _. unfold Synthetic.split.
    destruct (Synthetic.splits_left m) as [| k] eqn:Hk;
      [cbn [fst]; rewrite Hk; lia |].
    destruct (Synthetic.graphs m !! g); [discriminate |].
    cbn [fst]. rewrite Hk. lia.
Qed.

Lemma recorded_peak_above_int64_never_splits_witness :
  to_int64 (2 ^ 63) < 0 /\
  plannerIter (Synthetic.lives 1) (2 ^ 63) 0%nat
    (Synthetic.state Synthetic.huge) (to_int64 (2 ^ 63))
  = (if peak_of (Synthetic.lives 1)
          (sgMgr (Synthetic.state Synthetic.huge)) 0%nat <? 2 ^ 63
     then Break Accepted
            (snd (allocStep (Synthetic.lives 1) 0%nat
                    (Synthetic.state Synthetic.huge)))
     else shrinkStep 0%nat
            (snd (allocStep (Synthetic.lives 1) 0%nat
                    (Synthetic.state Synthetic.huge)))
            (peak_of (Synthetic.lives 1)
               (sgMgr (Synthetic.state Synthetic.huge)) 0%nat)).
Proof.
  apply (recorded_peak_above_int64_never_splits (Synthetic.lives 1) (2 ^ 63)
           0%nat (Synthetic.state Synthetic.huge) (2 ^ 63)).
  lia.
Defined.

Lemma plannerLoop_final_allocation_witness :
  exists s_ab,
    plannerLoop (Synthetic.lives 2) 10 500 1%nat
      (enterPlanner (mkState [] Synthetic.pair [1; 0]%nat []) [0%nat]) 0
    = Some (Abandoned, s_ab) /\
    exists m,
      m_MemAllocList s_ab
      = snd (allocByLiveness [] (Synthetic.lives 2) (getMemUsage m 1%nat)) /\
      500 <= peak_of (Synthetic.lives 2) m 1%nat /\
      splitNewSubGraph (resetToOrigSize m 1%nat) 1%nat = (sgMgr s_ab, None).
Proof.
  eexists. split; [vm_compute; reflexivity |].
  refine (plannerLoop_final_allocation (Synthetic.lives 2) 500 1%nat 10
            (enterPlanner (mkState [] Synthetic.pair [1; 0]%nat []) [0%nat]) 0
            Abandoned _ _).
  vm_compute. reflexivity.
Defined.

Lemma runOnModule_shrinks_before_split_witness :
  shrunk_before_split pair_events.
Proof.
  exact (runOnModule_shrinks_before_split (Synthetic.lives 2) 12
           (Some {| getLocalMemSize := 500 |}) (fun _ => Synthetic.pair) [] []
           _ runOnModule_pair shrunk_before_split_nil).
Defined.

Lemma runOnModule_plans_every_subgraph_once_witness :
  exists ext,
    pair_events = [] ++ [SchedulerRun; LivenessRun] ++ ext ++ [Dump] /\
    count_events is_announcement ext
    = (length (getSplitGraphs Synthetic.pair)
       + count_events is_new_subgraph ext)%nat /\
    count_events is_end_of_planning ext = count_events is_announcement ext.
Proof.
  exact (runOnModule_plans_every_subgraph_once (Synthetic.lives 2) 12
           {| getLocalMemSize := 500 |} (fun _ => Synthetic.pair) [] []
           _ runOnModule_pair).
Defined.

Lemma runOnModule_without_subgraphs_witness :
  runOnModule (Synthetic.lives 1) 1 (Some {| getLocalMemSize := 500 |})
    (fun _ => Synthetic.mkMgr [] 0) overlap_placed []
  = Some (mkResult kModuleNoChanged [] ([] ++ [SchedulerRun; LivenessRun; Dump])).
Proof.
  apply (runOnModule_without_subgraphs (Synthetic.lives 1) 0
           {| getLocalMemSize := 500 |} (fun _ => Synthetic.mkMgr [] 0)).
  reflexivity.
Defined.

Lemma runOnModule_terminates_witness :
  exists fuel r,
    status r = kModuleNoChanged /\
    forall fuel', (fuel <= fuel')%nat ->
      runOnModule (Synthetic.lives 2) fuel' (Some {| getLocalMemSize := 500 |})
        (fun _ => Synthetic.pair) [] [] = Some r.
Proof.
  apply (runOnModule_terminates (Synthetic.lives 2) {| getLocalMemSize := 500 |}
           (fun _ => Synthetic.pair) Synthetic.in_range Synthetic.shrink_room
           Synthetic.splits_left [] []).
  - reflexivity.
  - apply synthetic_converging_pass.
  - repeat constructor; cbn; lia.
Defined.

(** ** A budget of zero, and the order of planning *)

Section PassEdgeCases.
Context {M : Type} `{SplitGraphManager M}.
Context {sorter : StdSort}.
Variable livesInfo : list LiveInterval.t.

(** X18: with a budget of 0 nothing fits, and a sub-graph whose peak is 0
    keeps the planner loop running for ever: the recorded [prevMinSize]
    stays 0, so the split block is never reached and the loop only
    shrinks. *)
Theorem plannerLoop_zero_budget_diverges
        (localMemSize : Z) (g : SplitGraph) :
  localMemSize <= 0 ->
  (forall m, peak_of livesInfo m g = 0) ->
  forall (fuel : nat) (s : State M),
    plannerLoop livesInfo fuel localMemSize g s 0 = None.
Proof.
  intros Hbudget Hpeak.
  induction fuel as [| fuel IH]; intros s; [reflexivity |].
  cbn [plannerLoop]. rewrite plannerIter_eq. cbv zeta. rewrite Hpeak.
  replace (0 <? localMemSize) with false by (symmetry; apply Z.ltb_ge; lia).
  cbn [Z.eqb negb andb]. unfold shrinkStep. cbv zeta.
  change (to_int64 0) with 0. apply IH.
Qed.

Lemma plannerLoop_first_events (localMemSize : Z) (g : SplitGraph) (fuel : nat)
      (s : State M) (prevMinSize : Z) (v : Verdict) (s' : State M) :
  plannerLoop livesInfo fuel localMemSize g s prevMinSize = Some (v, s') ->
  exists ext,
    trace s'
    = trace s ++ [GetMemUsage g;
                  AllocByLiveness (peak_of livesInfo (sgMgr s) g)] ++ ext.
Proof.
  destruct fuel as [| fuel]; [discriminate |].
  cbn [plannerLoop]. rewrite plannerIter_eq. cbv zeta.
  rewrite allocStep_eq. cbn [snd].
  destruct (_ <? _).
  { intros [= <- <-]. exists []. now rewrite app_nil_r. }
  destruct (_ && _).
  - rewrite splitStep_cases. cbv zeta. cbn [sgMgr trace worklist m_MemAllocList].
    destruct (snd (splitNewSubGraph _ g)) as [g' |].
    + intros Hrun. apply plannerLoop_events in Hrun as (ext & _ & Ht & _).
      cbn [trace] in Ht. rewrite Ht, <- !app_assoc. eauto.
    + intros [= <- <-]. cbn [trace]. rewrite <- !app_assoc. eauto.
  - unfold shrinkStep. cbv zeta. cbn [trace].
    intros Hrun. apply plannerLoop_events in Hrun as (ext & _ & Ht & _).
    cbn [trace] in Ht. rewrite Ht, <- !app_assoc. eauto.
Qed.

(** X13: the worklist is worked off from its back: a run of the pass
    first plans the last sub-graph that [getSplitGraphs] lists. *)
Theorem runOnModule_plans_last_subgraph_first
        (fuel : nat) (b : DLATargetBackend)
        (newSgMgr : DLATargetBackend -> M) (old : MemAllocList)
        (tr0 : list Event) (r : Result) (gs : list SplitGraph) (g : SplitGraph) :
  getSplitGraphs (newSgMgr b) = gs ++ [g] ->
  runOnModule livesInfo fuel (Some b) newSgMgr old tr0 = Some r ->
  exists ext,
    events r
    = tr0 ++ [SchedulerRun; LivenessRun; Errs msg_alloc_or_shrink;
              GetMemUsage g;
              AllocByLiveness (peak_of livesInfo (newSgMgr b) g)] ++ ext.
Proof.
  intros Hgs. unfold runOnModule. cbv zeta. rewrite Hgs, rev_app_distr.
  cbn [rev app].
  destruct fuel as [| fuel]; [discriminate |].
  cbn [worklistLoop worklist].
  destruct (plannerLoop _ _ _ _ _ _) as [[v s1] |] eqn:Hplan; [| discriminate].
  destruct (worklistLoop _ _ _ _) as [s' |] eqn:Hloop; [| discriminate].
  intros [= <-]. cbn [events].
  apply plannerLoop_first_events in Hplan as (ext1 & Ht1).
  apply worklistLoop_events in Hloop as (_ & ext2 & Ht2 & _).
  cbn [leavePlanner enterPlanner trace sgMgr] in Ht1, Ht2.
  rewrite Ht2, Ht1, <- !app_assoc. cbn [app]. eauto.
Qed.
End PassEdgeCases.

Lemma plannerLoop_zero_budget_diverges_witness :
  plannerLoop [] 7 0 0%nat (Synthetic.state Synthetic.pair) 0 = None.
Proof.
  apply (plannerLoop_zero_budget_diverges [] 0 0%nat); [lia |].
  intros m. reflexivity.
Defined.

Lemma runOnModule_plans_last_subgraph_first_witness :
  exists ext,
    pair_events
    = [] ++ [SchedulerRun; LivenessRun; Errs msg_alloc_or_shrink;
             GetMemUsage 1%nat;
             AllocByLiveness (peak_of (Synthetic.lives 2) Synthetic.pair 1%nat)]
         ++ ext.
Proof.
  exact (runOnModule_plans_last_subgraph_first (Synthetic.lives 2) 12
           {| getLocalMemSize := 500 |} (fun _ => Synthetic.pair) [] []
           _ [0%nat] 1%nat eq_refl runOnModule_pair).
Defined.
